(** * no-js chat: the broadcast core of [chat/main.go]

    A shallow embedding of the chat server: the [App] with its registry of
    connection channels and its bounded history, the methods [append],
    [sendCount], [send], [sendHistory], [addChan], [removeChan], and the three
    handlers.  Handlers run concurrently, one goroutine per request, so they
    are embedded as step machines over a shared [World]; a schedule chooses
    which goroutine takes its next step.

    Go strings are byte sequences: they are [string]s here, one [ascii] per
    byte.  The functions of Go's standard library the source calls
    ([template.HTMLEscapeString], [strings.TrimSpace], [fmt.Sprintf],
    [Time.Format], [http.Redirect]) are embedded from their documented
    behaviour, each under the name it has in Go. *)

From Stdlib Require Import ZArith NArith Ascii String DecimalString.
From stdpp Require Import base numbers list strings gmap.

Local Open Scope N_scope.

(** ** Constants of the source *)

(** Number of updates to keep in history. *)
Definition historyLimit : nat := 20.

(** Maximum message length. *)
Definition maxMsgLen : nat := 1024.

(** Number of buffered messages per connection. *)
Definition bufferSize : nat := 5.

(** ** Bytes and strings *)

Module GoString.

(** [len(s)]: the number of bytes. *)
Definition len (s : string) : nat := String.length s.

(** [s[i]] as a number; 0 out of range (the source never indexes there). *)
Definition byteAt (s : string) (i : nat) : N :=
  match String.get i s with
  | Some c => N_of_ascii c
  | None => 0
  end.

(** [s[i:j]]. *)
Definition slice (s : string) (i j : nat) : string :=
  String.substring i (j - i) s.

(** [s[i:]]. *)
Definition sliceFrom (s : string) (i : nat) : string :=
  String.substring i (len s - i) s.

(** The one-byte string of a byte value. *)
Definition ofByte (b : N) : string := String (ascii_of_N b) EmptyString.

(** [n] copies of a byte. *)
Fixpoint repeat (c : ascii) (n : nat) : string :=
  match n with
  | O => EmptyString
  | S n' => String c (repeat c n')
  end.

(** The double quote, which a literal cannot hold. *)
Definition dquote : string := ofByte 34.

End GoString.

Import GoString.

(** ** [template.HTMLEscapeString] *)

Module Template.

Definition htmlNull : string := ofByte 239 +:+ ofByte 191 +:+ ofByte 189.
Definition htmlQuot : string := "&#34;".
Definition htmlApos : string := "&#39;".
Definition htmlAmp : string := "&amp;".
Definition htmlLt : string := "&lt;".
Definition htmlGt : string := "&gt;".

(** The [switch c] of [HTMLEscape]: the replacement of a byte, if any. *)
Definition htmlReplacement (c : ascii) : option string :=
  match N_of_ascii c with
  | 0 => Some htmlNull
  | 34 => Some htmlQuot
  | 39 => Some htmlApos
  | 38 => Some htmlAmp
  | 60 => Some htmlLt
  | 62 => Some htmlGt
  | _ => None
  end.

Fixpoint HTMLEscapeString (s : string) : string :=
  match s with
  | EmptyString => EmptyString
  | String c s' =>
      match htmlReplacement c with
      | Some h => h +:+ HTMLEscapeString s'
      | None => String c (HTMLEscapeString s')
      end
  end.

End Template.

(** ** [utf8] decoding and [unicode.IsSpace], as [strings.TrimSpace] uses them *)

Module Utf8.

Definition RuneError : N := 65533.
Definition RuneSelf : N := 128.
Definition UTFMax : nat := 4.

(** Continuation bytes are 0x80..0xBF. *)
Definition locb : N := 128.
Definition hicb : N := 191.

(** The table [first] with [acceptRanges]: for a leading byte, the length of
    its sequence and the range its second byte must lie in; [None] for the
    bytes that start no sequence of two or more bytes. *)
Definition first (s0 : N) : option (nat * N * N) :=
  if (194 <=? s0) && (s0 <=? 223) then Some (2%nat, locb, hicb)
  else if s0 =? 224 then Some (3%nat, 160, hicb)
  else if (225 <=? s0) && (s0 <=? 236) then Some (3%nat, locb, hicb)
  else if s0 =? 237 then Some (3%nat, locb, 159)
  else if (238 <=? s0) && (s0 <=? 239) then Some (3%nat, locb, hicb)
  else if s0 =? 240 then Some (4%nat, 144, hicb)
  else if (241 <=? s0) && (s0 <=? 243) then Some (4%nat, locb, hicb)
  else if s0 =? 244 then Some (4%nat, locb, 143)
  else None.

Definition cont (b : N) : bool := (locb <=? b) && (b <=? hicb).

(** [utf8.DecodeRuneInString]: the first rune of [s] and its width. *)
Definition DecodeRuneInString (s : string) : N * nat :=
  let n := len s in
  if (n <? 1)%nat then (RuneError, 0%nat)
  else
    let s0 := byteAt s 0 in
    if s0 <? RuneSelf then (s0, 1%nat)
    else
      match first s0 with
      | None => (RuneError, 1%nat)
      | Some (sz, lo, hi) =>
          if (n <? sz)%nat then (RuneError, 1%nat)
          else
            let s1 := byteAt s 1 in
            if (s1 <? lo) || (hi <? s1) then (RuneError, 1%nat)
            else if (sz <=? 2)%nat then
              (N.lor (N.shiftl (N.land s0 31) 6) (N.land s1 63), 2%nat)
            else
              let s2 := byteAt s 2 in
              if negb (cont s2) then (RuneError, 1%nat)
              else if (sz <=? 3)%nat then
                (N.lor (N.shiftl (N.land s0 15) 12)
                   (N.lor (N.shiftl (N.land s1 63) 6) (N.land s2 63)), 3%nat)
              else
                let s3 := byteAt s 3 in
                if negb (cont s3) then (RuneError, 1%nat)
                else
                  (N.lor (N.shiftl (N.land s0 7) 18)
                     (N.lor (N.shiftl (N.land s1 63) 12)
                        (N.lor (N.shiftl (N.land s2 63) 6) (N.land s3 63))),
                   4%nat)
      end.

(** [utf8.RuneStart]: not a continuation byte. *)
Definition RuneStart (b : N) : bool := negb (N.land b 192 =? 128).

(** The loop [for start--; start >= lim; start--] of
    [DecodeLastRuneInString], with [n] iterations left, so that [start] is
    [lim + n - 1]; the result is [start] on exit, [lim - 1] when no start
    byte was met. *)
Fixpoint lastRuneStart (s : string) (lim n : nat) : Z :=
  match n with
  | O => Z.of_nat lim - 1
  | S n' =>
      if RuneStart (byteAt s (lim + n')) then Z.of_nat (lim + n')
      else lastRuneStart s lim n'
  end.

(** [utf8.DecodeLastRuneInString]: the last rune of [s] and its width. *)
Definition DecodeLastRuneInString (s : string) : N * nat :=
  let end_ := len s in
  if (end_ =? 0)%nat then (RuneError, 0%nat)
  else
    let r := byteAt s (end_ - 1) in
    if r <? RuneSelf then (r, 1%nat)
    else
      let lim := (end_ - UTFMax)%nat in
      let start := Z.to_nat (Z.max 0 (lastRuneStart s lim (end_ - 1 - lim))) in
      let '(r, size) := DecodeRuneInString (slice s start end_) in
      if negb (start + size =? end_)%nat then (RuneError, 1%nat)
      else (r, size).

(** [unicode.IsSpace]: Latin-1 spaces, then the White_Space table. *)
Definition IsSpace (r : N) : bool :=
  if r <=? 255 then
    ((9 <=? r) && (r <=? 13)) || (r =? 32) || (r =? 133) || (r =? 160)
  else
    (r =? 5760) || ((8192 <=? r) && (r <=? 8202)) || (r =? 8232)
    || (r =? 8233) || (r =? 8239) || (r =? 8287) || (r =? 12288).

End Utf8.

(** ** [strings.TrimSpace] *)

Module Strings.

Import Utf8.

(** The table [asciiSpace]: tab, newline, vertical tab, form feed, carriage
    return, space. *)
Definition asciiSpace (c : N) : bool :=
  ((9 <=? c) && (c <=? 13)) || (c =? 32).

(** [indexFunc(s, f, false)] followed by [s[i:]], which is [TrimLeftFunc]:
    runes are decoded from the left while [f] holds of them.  Each turn
    consumes at least one byte, so [len s] turns of [fuel] are enough. *)
Fixpoint trimLeftLoop (f : N -> bool) (s : string) (fuel : nat) : string :=
  match fuel with
  | O => EmptyString
  | S fuel' =>
      if (len s =? 0)%nat then EmptyString
      else
        let '(r, size) := DecodeRuneInString s in
        if f r then trimLeftLoop f (sliceFrom s size) fuel' else s
  end.

Definition TrimLeftFunc (s : string) (f : N -> bool) : string :=
  trimLeftLoop f s (len s).

(** [lastIndexFunc(s, f, false)]: [i] runs down from [len s]; [None] is
    Go's -1. *)
Fixpoint lastIndexLoop (f : N -> bool) (s : string) (i fuel : nat)
  : option nat :=
  match fuel with
  | O => None
  | S fuel' =>
      if (i =? 0)%nat then None
      else
        let '(r, size) := DecodeLastRuneInString (slice s 0 i) in
        let i' := (i - size)%nat in
        if f r then lastIndexLoop f s i' fuel' else Some i'
  end.

Definition TrimRightFunc (s : string) (f : N -> bool) : string :=
  match lastIndexLoop f s (len s) (len s) with
  | Some i =>
      if RuneSelf <=? byteAt s i then
        let '(_, wid) := DecodeRuneInString (sliceFrom s i) in
        slice s 0 (i + wid)
      else slice s 0 (i + 1)
  | None => slice s 0 0
  end.

Definition TrimFunc (s : string) (f : N -> bool) : string :=
  TrimRightFunc (TrimLeftFunc s f) f.

(** The result of one of the two scanning loops of [TrimSpace]: it met a
    byte that is not ASCII at this index and falls back to the Unicode
    functions, or it stopped at this index. *)
Inductive scan : Type :=
| Fallback (i : nat)
| Stop (i : nat).

(** The first loop: [rest] is [s[start:]]. *)
Fixpoint scanStart (rest : string) (start : nat) : scan :=
  match rest with
  | EmptyString => Stop start
  | String c rest' =>
      if RuneSelf <=? N_of_ascii c then Fallback start
      else if asciiSpace (N_of_ascii c) then scanStart rest' (S start)
      else Stop start
  end.

(** The second loop: [stop] is [start + n] and runs down to [start]. *)
Fixpoint scanStop (s : string) (start n : nat) : scan :=
  match n with
  | O => Stop start
  | S n' =>
      let c := byteAt s (start + n') in
      if RuneSelf <=? c then Fallback (start + n)
      else if asciiSpace c then scanStop s start n'
      else Stop (start + n)
  end.

Definition TrimSpace (s : string) : string :=
  match scanStart s 0 with
  | Fallback start => TrimFunc (sliceFrom s start) IsSpace
  | Stop start =>
      match scanStop s start (len s - start) with
      | Fallback stop => TrimRightFunc (slice s start stop) IsSpace
      | Stop stop => slice s start stop
      end
  end.

End Strings.

(** ** [fmt.Sprintf] *)

Module Fmt.

(** An operand: the source passes strings to [%s] and an [int] (a length)
    to [%d]. *)
Inductive arg : Type :=
| AString (s : string)
| AInt (n : nat).

(** [%d] of a length: decimal digits, "0" for zero. *)
Definition decimal (n : nat) : string :=
  NilZero.string_of_uint (Nat.to_uint n).

(** The text [type=value] of fmt's reports of a misused operand. *)
Definition typed (a : arg) : string :=
  match a with
  | AString s => "string=" +:+ s
  | AInt n => "int=" +:+ decimal n
  end.

Fixpoint extra (a : list arg) : string :=
  match a with
  | [] => EmptyString
  | [x] => typed x
  | x :: a' => typed x +:+ ", " +:+ extra a'
  end.

(** [fmt.Sprintf] for the verbs of the source's formats: [%s] of a string
    and [%d] of an int, with [%%].  A misused or missing operand is
    reported inside the result as fmt documents it; the other verbs of fmt
    are not embedded (the formats of this program hold none) and take the
    path of a misused operand. *)
Fixpoint Sprintf (format : string) (a : list arg) : string :=
  match format with
  | EmptyString =>
      match a with
      | [] => EmptyString
      | _ => "%!(EXTRA " +:+ extra a +:+ ")"
      end
  | String "%" EmptyString => "%!(NOVERB)"
  | String "%" (String "%" rest) => String "%" (Sprintf rest a)
  | String "%" (String verb rest) =>
      match a with
      | [] => "%!" +:+ String verb "(MISSING)" +:+ Sprintf rest []
      | x :: a' =>
          match verb, x with
          | "s"%char, AString s => s +:+ Sprintf rest a'
          | "d"%char, AInt n => decimal n +:+ Sprintf rest a'
          | _, _ =>
              "%!" +:+ String verb "(" +:+ typed x +:+ ")" +:+ Sprintf rest a'
          end
      end
  | String c rest => String c (Sprintf rest a)
  end.

End Fmt.

(** ** [time.Time] and [Time.Format] *)

Module Time.

(** What [time.Now().UTC()] yields, as the fields [Format] reads from it:
    the date and the clock of the instant in UTC. *)
Record t : Type := mk {
  year : nat;
  month : nat;
  day : nat;
  hour : nat;
  minute : nat;
  second : nat
}.

(** A reading of a real clock. *)
Definition valid (t : t) : Prop :=
  (year t < 100 * 100 /\ 1 <= month t <= 12 /\ 1 <= day t <= 31
   /\ hour t <= 23 /\ minute t <= 59 /\ second t <= 59)%nat.

(** [appendInt]: decimal, padded with zeros on the left to [width]. *)
Definition appendInt (x width : nat) : string :=
  let digits := Fmt.decimal x in
  repeat "0" (width - len digits) +:+ digits.

(** [Time.Format]: the layout is read chunk by chunk ([nextStdChunk]).
    The chunks embedded are those of the layout of the source, "2006",
    "01", "02", "15", "04" and "05"; every other byte of the layout is
    copied. *)
Fixpoint Format (t : t) (layout : string) : string :=
  match layout with
  | EmptyString => EmptyString
  | String "2" (String "0" (String "0" (String "6" rest))) =>
      appendInt (year t) 4 +:+ Format t rest
  | String "0" (String "1" rest) => appendInt (month t) 2 +:+ Format t rest
  | String "0" (String "2" rest) => appendInt (day t) 2 +:+ Format t rest
  | String "1" (String "5" rest) => appendInt (hour t) 2 +:+ Format t rest
  | String "0" (String "4" rest) => appendInt (minute t) 2 +:+ Format t rest
  | String "0" (String "5" rest) => appendInt (second t) 2 +:+ Format t rest
  | String c rest => String c (Format t rest)
  end.

End Time.

Close Scope N_scope.

Import Template Strings Fmt.

(** ** The data model *)

(** Update represents a chat update. *)
Record Update : Type := mkUpdate {
  timestamp : string;
  message : string
}.

(** A [chan []byte] is a reference: its identity is a number and its buffer
    lives in the heap of channels.  A payload is the [string] of its bytes. *)
Definition chan : Type := nat.

Record Chan : Type := mkChan {
  cap : nat;
  buf : list string
}.

(** App represents the main application: the set of registered channels
    ([map[chan []byte]struct{}]) and the chat log.  The two mutexes are not
    fields: what runs under one of them is one atomic step below. *)
Record App : Type := mkApp {
  chans : gset chan;
  history : list Update
}.

(** NewApp returns a new App. *)
Definition NewApp : App := {| chans := ∅; history := [] |}.

(** append an Update to the chat log. *)
Definition append (update : Update) (a : App) : App :=
  let history1 := history a ++ [update] in
  {| chans := chans a;
     history :=
       if historyLimit <? length history1
       then drop (length history1 - historyLimit) history1
       else history1 |}.

(** [select { case ch <- data: default: continue }]: the payload enters the
    buffer when there is room, and is dropped otherwise. *)
Definition trySend (data : string) (ch : chan) (h : gmap chan Chan)
  : gmap chan Chan :=
  match h !! ch with
  | Some c =>
      if length (buf c) <? cap c
      then <[ch := {| cap := cap c; buf := buf c ++ [data] |}]> h
      else h
  | None => h
  end.

(** [for ch := range a.chans { select ... }], the loop that ends both
    [sendCount] and [send].  Go visits the keys of a map in no fixed order;
    every channel is visited once. *)
Definition broadcast (data : string) (a : App) (h : gmap chan Chan)
  : gmap chan Chan :=
  set_fold (trySend data) h (chans a).

Definition countFormat : string :=
  "<style>#nc::before{content:" +:+ dquote +:+ "%d" +:+ dquote +:+ "}</style>".

Definition newFormat : string :=
  "<div class=" +:+ dquote +:+ "new" +:+ dquote
  +:+ "><p>%s</p><time>%s</time></div>".

Definition historyFormat : string := "<div><p>%s</p><time>%s</time></div>".

(** The first two lines of [sendCount]: the payload, from [len(a.chans)]. *)
Definition countData (a : App) : string :=
  Sprintf countFormat [AInt (size (chans a))].

(** sendCount sends the current connection count to all clients. *)
Definition sendCount (a : App) (h : gmap chan Chan) : gmap chan Chan :=
  broadcast (countData a) a h.

(** The payload of [send]. *)
Definition newData (update : Update) : string :=
  Sprintf newFormat [AString (message update); AString (timestamp update)].

(** send an Update by appending it to the chat log and sending to clients. *)
Definition send (update : Update) (a : App) (h : gmap chan Chan)
  : App * gmap chan Chan :=
  let a1 := append update a in
  (a1, broadcast (newData update) a1 h).

(** addChan adds a client chan to listeners. *)
Definition addChan (ch : chan) (a : App) : App :=
  {| chans := {[ch]} ∪ chans a; history := history a |}.

(** removeChan removes a client chan from listeners. *)
Definition removeChan (ch : chan) (a : App) : App :=
  {| chans := chans a ∖ {[ch]}; history := history a |}.

(** ** The response writer *)

(** An [http.ResponseWriter] as the handlers see it.  [flusher] says whether
    it is an [http.Flusher]; [credit] is the number of calls of [Write] that
    still succeed before the peer is gone, which the handler cannot see;
    [body] holds the payloads written, oldest first. *)
Record ResponseWriter : Type := mkWriter {
  flusher : bool;
  credit : nat;
  header : gmap string string;
  status : option nat;
  body : list string;
  flushes : nat
}.

(** The writer of a fresh connection. *)
Definition newWriter (canFlush : bool) (writes : nat) : ResponseWriter :=
  {| flusher := canFlush; credit := writes; header := ∅; status := None;
     body := []; flushes := 0 |}.

(** [w.Header().Set(key, value)]. *)
Definition HeaderSet (key value : string) (w : ResponseWriter)
  : ResponseWriter :=
  {| flusher := flusher w; credit := credit w;
     header := <[key := value]> (header w); status := status w;
     body := body w; flushes := flushes w |}.

(** [w.WriteHeader(code)]: the first status sent stands. *)
Definition WriteHeader (code : nat) (w : ResponseWriter) : ResponseWriter :=
  {| flusher := flusher w; credit := credit w; header := header w;
     status := match status w with Some c => Some c | None => Some code end;
     body := body w; flushes := flushes w |}.

(** [w.Write(data)]: the writer and whether the call returned an error.
    A first write sends status 200 when none was sent. *)
Definition Write (data : string) (w : ResponseWriter)
  : ResponseWriter * bool :=
  match credit w with
  | O => (w, true)
  | S k =>
      let w1 := WriteHeader 200 w in
      ({| flusher := flusher w1; credit := k; header := header w1;
          status := status w1; body := body w1 ++ [data];
          flushes := flushes w1 |}, false)
  end.

(** [flusher.Flush()]. *)
Definition Flush (w : ResponseWriter) : ResponseWriter :=
  {| flusher := flusher w; credit := credit w; header := header w;
     status := status w; body := body w; flushes := S (flushes w) |}.

(** The payload [sendHistory] writes for one update. *)
Definition historyData (update : Update) : string :=
  Sprintf historyFormat [AString (message update); AString (timestamp update)].

(** The loop of [sendHistory] over the updates left. *)
Fixpoint sendHistoryLoop (updates : list Update) (w : ResponseWriter)
  : ResponseWriter * bool :=
  match updates with
  | [] => (w, false)
  | update :: rest =>
      let '(w1, err) := Write (historyData update) w in
      if err then (w1, true) else sendHistoryLoop rest w1
  end.

(** sendHistory sends chat log to a client. *)
Definition sendHistory (w : ResponseWriter) (a : App) : ResponseWriter * bool :=
  sendHistoryLoop (history a) w.

(** ** Requests *)

(** An [http.Request]: its method and its parsed form ([url.Values]). *)
Record Request : Type := mkRequest {
  Method : string;
  PostForm : gmap string (list string)
}.

(** [Values.Get]: the first value of the key, or the empty string. *)
Definition Get (v : gmap string (list string)) (key : string) : string :=
  match v !! key with
  | Some (x :: _) => x
  | _ => EmptyString
  end.

(** [http.Redirect(w, r, url, code)] for a request that is not a GET or a
    HEAD: the Location header and the status, no body. *)
Definition Redirect (w : ResponseWriter) (url : string) (code : nat)
  : ResponseWriter :=
  WriteHeader code (HeaderSet "Location" url w).

(** ** The handlers as goroutines *)

Definition nl : string := ofByte 10.
Definition tab : string := ofByte 9.

(** Leading portion of main page. *)
Definition pageHead : string :=
  "<!doctype html>" +:+ nl
  +:+ "<html>" +:+ nl
  +:+ "<head>" +:+ nl
  +:+ "<title>noscript timeline</title>" +:+ nl
  +:+ "<meta name=" +:+ dquote +:+ "viewport" +:+ dquote +:+ " content="
  +:+ dquote +:+ "width=device-width, initial-scale=1" +:+ dquote +:+ ">" +:+ nl
  +:+ "<link rel=" +:+ dquote +:+ "stylesheet" +:+ dquote +:+ " type="
  +:+ dquote +:+ "text/css" +:+ dquote +:+ " href=" +:+ dquote
  +:+ "/static/style.css" +:+ dquote +:+ ">" +:+ nl
  +:+ "</head>" +:+ nl
  +:+ "<body>" +:+ nl
  +:+ "<header>" +:+ nl
  +:+ tab +:+ "<div id=" +:+ dquote +:+ "count" +:+ dquote
  +:+ ">Being seen by <span id=" +:+ dquote +:+ "nc" +:+ dquote
  +:+ "></span> connection(s)</div>" +:+ nl
  +:+ tab +:+ "<form method=" +:+ dquote +:+ "post" +:+ dquote +:+ ">" +:+ nl
  +:+ tab +:+ tab +:+ "<textarea name=" +:+ dquote +:+ "msg" +:+ dquote
  +:+ " placeholder=" +:+ dquote +:+ "Start typing..." +:+ dquote
  +:+ " autofocus></textarea>" +:+ nl
  +:+ tab +:+ tab +:+ "<div><button>Post</button></div>" +:+ nl
  +:+ tab +:+ "</form>" +:+ nl
  +:+ "</header>" +:+ nl
  +:+ "<main>" +:+ nl.

(** The layout of the timestamp of a post. *)
Definition stampLayout : string := "2006-01-02 15:04:05".

(** Where [sendCount] returns to: the live loop of [getHandler] (line 184),
    or the end of its deferred function (line 175). *)
Inductive after : Type :=
| ThenLoop (ch : chan)
| ThenReturn.

(** The next statement of a goroutine serving a request.  A step is a
    statement, or a run of statements of which at most one reads or writes
    what the goroutines share; a section held under a mutex is one step. *)
Inductive pc : Type :=
| Handler                                  (* handler, lines 153-161 *)
| GetEntry                                 (* getHandler, lines 165-169 *)
| GetMake                                  (* line 171 *)
| GetAdd (ch : chan)                       (* lines 172-176 *)
| GetHead (ch : chan)                      (* line 178 *)
| GetHistory (ch : chan)                   (* lines 179-182 *)
| GetFlush (ch : chan)                     (* line 183 *)
| GetSelect (ch : chan)                    (* lines 186-197 *)
| GetLoopFlush (ch : chan)                 (* line 198 *)
| GetDeferred (ch : chan)                  (* line 174 *)
| CountLen (k : after)                     (* sendCount, lines 93-94 *)
| CountLoop (data : string) (k : after)    (* sendCount, lines 95-103 *)
| PostEntry                                (* postHandler, lines 204-213 *)
| SendAppend (update : Update)             (* send, line 108 *)
| SendLoop (update : Update)               (* send, lines 109-120 *)
| PostRedirect                             (* line 216 *)
| Returned.

(** What a step did, for the log of the run. *)
Inductive event : Type :=
| EvMake (ch : chan)              (* the channel was made *)
| EvJoin (ch : chan)              (* addChan *)
| EvLeave (ch : chan)             (* removeChan *)
| EvHead (err : bool)             (* the page head was written *)
| EvHistory (err : bool)          (* sendHistory returned *)
| EvFlush                         (* Flush, lines 183 and 198 *)
| EvPayload (data : string) (err : bool)  (* a received payload was written *)
| EvPing (err : bool)             (* the single space was written *)
| EvLen (n : nat)                 (* sendCount read len(a.chans) *)
| EvCount (data : string)         (* sendCount offered data to the channels *)
| EvAppend (update : Update)      (* append *)
| EvSend (data : string)          (* send offered data to the channels *)
| EvRedirect (code : nat).        (* http.Redirect *)

Record Thread : Type := mkThread {
  req : Request;
  rw : ResponseWriter;
  at_pc : pc
}.

Definition goto (th : Thread) (w : ResponseWriter) (p : pc) : Thread :=
  {| req := req th; rw := w; at_pc := p |}.

Definition resume (k : after) : pc :=
  match k with
  | ThenLoop ch => GetSelect ch
  | ThenReturn => Returned
  end.

(** One step of a goroutine: its new state, the shared state and what
    happened.  [now] is what [time.Now().UTC()] would return. *)
Definition thread_step (now : Time.t) (th : Thread) (a : App)
    (h : gmap chan Chan) : Thread * App * gmap chan Chan * list event :=
  let w := rw th in
  match at_pc th with
  | Handler =>
      if String.eqb (Method (req th)) "GET" then (goto th w GetEntry, a, h, [])
      else if String.eqb (Method (req th)) "POST"
      then (goto th w PostEntry, a, h, [])
      else (goto th w Returned, a, h, [])
  | GetEntry =>
      let w1 := HeaderSet "Content-Type" "text/html; charset=utf-8" w in
      if flusher w1 then (goto th w1 GetMake, a, h, [])
      else (goto th w1 Returned, a, h, [])
  | GetMake =>
      let ch := fresh (dom h) in
      (goto th w (GetAdd ch), a,
       <[ch := {| cap := bufferSize; buf := [] |}]> h, [EvMake ch])
  | GetAdd ch => (goto th w (GetHead ch), addChan ch a, h, [EvJoin ch])
  | GetHead ch =>
      let '(w1, err) := Write pageHead w in
      (goto th w1 (GetHistory ch), a, h, [EvHead err])
  | GetHistory ch =>
      let '(w1, err) := sendHistory w a in
      if err then (goto th w1 (GetDeferred ch), a, h, [EvHistory err])
      else (goto th w1 (GetFlush ch), a, h, [EvHistory err])
  | GetFlush ch =>
      (goto th (Flush w) (CountLen (ThenLoop ch)), a, h, [EvFlush])
  | GetSelect ch =>
      match h !! ch with
      | Some {| cap := n; buf := msg :: rest |} =>
          let h1 := <[ch := {| cap := n; buf := rest |}]> h in
          let '(w1, err) := Write msg w in
          if err then (goto th w1 (GetDeferred ch), a, h1, [EvPayload msg err])
          else (goto th w1 (GetLoopFlush ch), a, h1, [EvPayload msg err])
      | _ =>
          let '(w1, err) := Write " " w in
          if err then (goto th w1 (GetDeferred ch), a, h, [EvPing err])
          else (goto th w1 (GetLoopFlush ch), a, h, [EvPing err])
      end
  | GetLoopFlush ch => (goto th (Flush w) (GetSelect ch), a, h, [EvFlush])
  | GetDeferred ch =>
      (goto th w (CountLen ThenReturn), removeChan ch a, h, [EvLeave ch])
  | CountLen k =>
      (goto th w (CountLoop (countData a) k), a, h, [EvLen (size (chans a))])
  | CountLoop data k =>
      (goto th w (resume k), a, broadcast data a h, [EvCount data])
  | PostEntry =>
      let msg := Get (PostForm (req th)) "msg" in
      if maxMsgLen <? len msg
      then (goto th (Redirect w "/" 302) Returned, a, h, [EvRedirect 302])
      else
        let msg := HTMLEscapeString msg in
        let msg := TrimSpace msg in
        if 0 <? len msg then
          let timestamp := Time.Format now stampLayout in
          (goto th w (SendAppend {| timestamp := timestamp; message := msg |}),
           a, h, [])
        else (goto th w PostRedirect, a, h, [])
  | SendAppend update =>
      (goto th w (SendLoop update), append update a, h, [EvAppend update])
  | SendLoop update =>
      (goto th w PostRedirect, a, broadcast (newData update) a h,
       [EvSend (newData update)])
  | PostRedirect =>
      (goto th (Redirect w "/" 302) Returned, a, h, [EvRedirect 302])
  | Returned => (th, a, h, [])
  end.

(** ** The server *)

(** The process: the App, the channels, the clock, the goroutines serving
    requests (a goroutine is named by its index) and the log of what they
    did, oldest first. *)
Record World : Type := mkWorld {
  app : App;
  heap : gmap chan Chan;
  clock : Time.t;
  threads : list Thread;
  log : list (nat * event)
}.

(** What can happen next: a request arrives and a goroutine is started for
    it, with a fresh writer; a goroutine takes its next step; time passes. *)
Inductive action : Type :=
| Accept (r : Request) (canFlush : bool) (writes : nat)
| Run (t : nat)
| Tick (now : Time.t).

(** The events of a step, with the goroutine that took it. *)
Definition tag (t : nat) (evs : list event) : list (nat * event) :=
  (λ e, (t, e)) <$> evs.

Definition exec (σ : World) (x : action) : World :=
  match x with
  | Accept r canFlush writes =>
      {| app := app σ; heap := heap σ; clock := clock σ;
         threads :=
           threads σ
           ++ [{| req := r; rw := newWriter canFlush writes;
                  at_pc := Handler |}];
         log := log σ |}
  | Run t =>
      match threads σ !! t with
      | Some th =>
          let '(th1, a1, h1, evs) :=
            thread_step (clock σ) th (app σ) (heap σ) in
          {| app := a1; heap := h1; clock := clock σ;
             threads := <[t := th1]> (threads σ);
             log := log σ ++ tag t evs |}
      | None => σ
      end
  | Tick now =>
      {| app := app σ; heap := heap σ; clock := now; threads := threads σ;
         log := log σ |}
  end.

Definition run (σ : World) (schedule : list action) : World :=
  foldl exec σ schedule.

(** The server as [main] starts it. *)
Definition start (now : Time.t) : World :=
  {| app := NewApp; heap := ∅; clock := now; threads := []; log := [] |}.

(** [n] updates appended one after the other. *)
Definition appendAll (updates : list Update) (a : App) : App :=
  foldl (λ a1 update, append update a1) a updates.

(** The last [n] elements of a list. *)
Definition lastn {A} (n : nat) (l : list A) : list A := drop (length l - n) l.

(** What the non-blocking send does to one channel. *)
Definition offer (data : string) (c : Chan) : Chan :=
  if length (buf c) <? cap c
  then {| cap := cap c; buf := buf c ++ [data] |}
  else c.

(** [n] steps of one goroutine while the others are at rest: the goroutine,
    the shared state and the events, oldest first. *)
Fixpoint steps (n : nat) (now : Time.t) (th : Thread) (a : App)
    (h : gmap chan Chan) : Thread * App * gmap chan Chan * list event :=
  match n with
  | O => (th, a, h, [])
  | S n' =>
      let '(th1, a1, h1, evs1) := thread_step now th a h in
      let '(th2, a2, h2, evs2) := steps n' now th1 a1 h1 in
      (th2, a2, h2, evs1 ++ evs2)
  end.

(** postHandler handles new chat posts: the function of the source, as it
    runs when no other goroutine takes a step meanwhile. *)
Definition postHandler (now : Time.t) (r : Request) (w : ResponseWriter)
    (a : App) (h : gmap chan Chan)
  : ResponseWriter * App * gmap chan Chan :=
  let msg := Get (PostForm r) "msg" in
  if maxMsgLen <? len msg then (Redirect w "/" 302, a, h)
  else
    let msg := HTMLEscapeString msg in
    let msg := TrimSpace msg in
    let '(a1, h1) :=
      if 0 <? len msg
      then send {| timestamp := Time.Format now stampLayout; message := msg |}
             a h
      else (a, h) in
    (Redirect w "/" 302, a1, h1).

(** The events of [postHandler]. *)
Definition postEvents (now : Time.t) (r : Request) : list event :=
  let msg := Get (PostForm r) "msg" in
  if maxMsgLen <? len msg then [EvRedirect 302]
  else
    let msg := TrimSpace (HTMLEscapeString msg) in
    if 0 <? len msg then
      let update :=
        {| timestamp := Time.Format now stampLayout; message := msg |} in
      [EvAppend update; EvSend (newData update); EvRedirect 302]
    else [EvRedirect 302].

(** A request as it is posted by the form of the page. *)
Definition postRequest (msg : string) : Request :=
  {| Method := "POST"; PostForm := {[ "msg" := [msg] ]} |}.

Definition getRequest : Request := {| Method := "GET"; PostForm := ∅ |}.

(** The number of steps goroutine [t] takes in a schedule. *)
Fixpoint turns (t : nat) (schedule : list action) : nat :=
  match schedule with
  | [] => 0
  | Run t' :: rest => (if decide (t' = t) then 1 else 0) + turns t rest
  | _ :: rest => turns t rest
  end.

(** The steps a goroutine serving a POST has before it: at most five. *)
Definition todo (p : pc) : nat :=
  match p with
  | Handler => 5
  | PostEntry => 4
  | SendAppend _ => 3
  | SendLoop _ => 2
  | PostRedirect => 1
  | _ => 0
  end.

(** A goroutine serving a POST on the writer [w0]: it has not touched the
    writer, or it has returned and the writer holds the redirect. *)
Definition posting (w0 : ResponseWriter) (th : Thread) : Prop :=
  Method (req th) = "POST"
  ∧ match at_pc th with
    | Handler | PostEntry | SendAppend _ | SendLoop _ | PostRedirect =>
        rw th = w0
    | Returned => rw th = Redirect w0 "/" 302
    | _ => False
    end.

(** ** What the log may hold *)

(** An update as [postHandler] makes it: the escaped and trimmed form of a
    field of at most [maxMsgLen] bytes, not empty, stamped by a reading of
    the clock.  [P] is what is known of the readings of the clock. *)
Definition admitted (P : Time.t → Prop) (update : Update) : Prop :=
  ∃ raw now,
    P now
    ∧ len raw ≤ maxMsgLen
    ∧ message update = TrimSpace (HTMLEscapeString raw)
    ∧ 0 < len (message update)
    ∧ timestamp update = Time.Format now stampLayout.

(** The payload of a count update. *)
Definition countFragment (n : nat) : string := Sprintf countFormat [AInt n].

(** A payload a channel may hold: a count update or an admitted update. *)
Definition payload_ok (P : Time.t → Prop) (data : string) : Prop :=
  (∃ n, data = countFragment n)
  ∨ (∃ update, admitted P update ∧ data = newData update).

Definition pc_ok (P : Time.t → Prop) (p : pc) : Prop :=
  match p with
  | SendAppend update | SendLoop update => admitted P update
  | CountLoop data _ => ∃ n, data = countFragment n
  | _ => True
  end.

Definition event_ok (P : Time.t → Prop) (e : event) : Prop :=
  match e with
  | EvAppend update => admitted P update
  | EvSend data => ∃ update, admitted P update ∧ data = newData update
  | EvCount data => ∃ n, data = countFragment n
  | EvPayload data _ => payload_ok P data
  | _ => True
  end.

Definition heap_ok (P : Time.t → Prop) (h : gmap chan Chan) : Prop :=
  ∀ ch c, h !! ch = Some c → cap c = bufferSize ∧ Forall (payload_ok P) (buf c).

(** Only admitted updates are in the chat log, in the channels, in the hands
    of a goroutine or in the log of the run. *)
Definition sound (P : Time.t → Prop) (σ : World) : Prop :=
  P (clock σ)
  ∧ Forall (admitted P) (history (app σ))
  ∧ heap_ok P (heap σ)
  ∧ (∀ t th, threads σ !! t = Some th → pc_ok P (at_pc th))
  ∧ (∀ t e, (t, e) ∈ log σ → event_ok P e).

(** The clock is only set to readings of which [P] holds. *)
Definition reads (P : Time.t → Prop) (x : action) : Prop :=
  match x with
  | Tick now => P now
  | _ => True
  end.

(** Nothing is known of the clock. *)
Definition any : Time.t → Prop := λ _, True.

(** The bytes of a string. *)
Definition bytes (s : string) : list ascii := list_ascii_of_string s.

(** The bytes that are markup when a browser reads them as they are: NUL,
    the two quotes and the two angle brackets.  ([HTMLEscape] replaces the
    ampersand as well, and every replacement but that of NUL starts with
    one.) *)
Definition special (c : ascii) : bool :=
  match N_of_ascii c with
  | 0%N | 34%N | 39%N | 60%N | 62%N => true
  | _ => false
  end.

(** An instant for the examples. *)
Definition noon : Time.t := Time.mk 2026 10 30 12 0 0.

Definition putRequest : Request :=
  {| Method := "PUT"; PostForm := {[ "msg" := ["hi"] ]} |}.

(** ** The shape of a timestamp *)

Definition isDigit (c : ascii) : bool :=
  ((48 <=? N_of_ascii c) && (N_of_ascii c <=? 57))%N.

(** [hasShape pattern s]: [s] is [pattern] with a decimal digit for each
    [d], the other bytes as they are. *)
Fixpoint hasShape (pattern s : string) : bool :=
  match pattern, s with
  | EmptyString, EmptyString => true
  | String p pattern', String c s' =>
      (if Ascii.eqb p "d" then isDigit c else Ascii.eqb p c)
      && hasShape pattern' s'
  | _, _ => false
  end.

(** YYYY-MM-DD HH:MM:SS, what the layout of the source yields. *)
Definition stampShape : string := "dddd-dd-dd dd:dd:dd".

(** YYYY-MM-DD HH:MM:SS UTC, the format with the suffix. *)
Definition stampShapeUTC : string := "dddd-dd-dd dd:dd:dd UTC".

(** The new-message fragment with a timestamp that carries the suffix UTC:
    [data] is such a fragment for [update]. *)
Definition newFragmentUTC (update : Update) (data : string) : Prop :=
  ∃ stamp,
    hasShape stampShapeUTC stamp = true
    ∧ data
      = "<div class=" +:+ dquote +:+ "new" +:+ dquote +:+ "><p>"
        +:+ message update +:+ "</p><time>" +:+ stamp +:+ "</time></div>".

(** ** The life of a connection *)

#[global] Instance Update_eq_dec : EqDecision Update.
Proof. solve_decision. Defined.

(** The events of goroutine [t] in a log, oldest first. *)
Definition events_of (t : nat) (l : list (nat * event)) : list event :=
  snd <$> filter (λ x, x.1 = t) l.

(** How far a goroutine has got, as its events tell: the states of a
    connection (opening, replaying, live, closed) cut at every event, and
    the three events of a post. *)
Inductive phase : Type :=
| Opening                          (* nothing has happened *)
| Made (ch : chan)                 (* the channel exists *)
| Joined (ch : chan)               (* and is registered *)
| Headed (ch : chan)               (* the page head was written *)
| Replayed (ch : chan)             (* the chat log was written *)
| Flushed (ch : chan)              (* and flushed *)
| Counting (ch : chan) (n : nat)   (* the count was read *)
| Live (ch : chan)                 (* in the loop, at the select *)
| Wrote (ch : chan)                (* in the loop, before the flush *)
| Failed (ch : chan)               (* a write failed *)
| Left (ch : chan)                 (* the channel was removed *)
| LeftCounting (ch : chan) (n : nat)
| Closed (ch : chan)               (* the last count was sent *)
| Appended (update : Update)       (* a post: the update is in the log *)
| Sent                             (* and was offered to the channels *)
| Redirected.                      (* the post was answered *)

(** The event a goroutine may log next, and where it gets with it. *)
Definition next (p : phase) (e : event) : option phase :=
  match p, e with
  | Opening, EvMake ch => Some (Made ch)
  | Made ch, EvJoin ch' => if decide (ch' = ch) then Some (Joined ch) else None
  | Joined ch, EvHead _ => Some (Headed ch)
  | Headed ch, EvHistory err => Some (if err then Failed ch else Replayed ch)
  | Replayed ch, EvFlush => Some (Flushed ch)
  | Flushed ch, EvLen n => Some (Counting ch n)
  | Counting ch n, EvCount data =>
      if decide (data = countFragment n) then Some (Live ch) else None
  | Live ch, EvPayload _ err => Some (if err then Failed ch else Wrote ch)
  | Live ch, EvPing err => Some (if err then Failed ch else Wrote ch)
  | Wrote ch, EvFlush => Some (Live ch)
  | Failed ch, EvLeave ch' => if decide (ch' = ch) then Some (Left ch) else None
  | Left ch, EvLen n => Some (LeftCounting ch n)
  | LeftCounting ch n, EvCount data =>
      if decide (data = countFragment n) then Some (Closed ch) else None
  | Opening, EvAppend update => Some (Appended update)
  | Appended update, EvSend data =>
      if decide (data = newData update) then Some Sent else None
  | Sent, EvRedirect code | Opening, EvRedirect code =>
      if decide (code = 302) then Some Redirected else None
  | _, _ => None
  end.

(** Where a list of events leads from [p], if it can be logged at all. *)
Fixpoint trace (p : phase) (es : list event) : option phase :=
  match es with
  | [] => Some p
  | e :: es' =>
      match next p e with
      | Some p' => trace p' es'
      | None => None
      end
  end.

(** The statement a goroutine is at agrees with what it has logged. *)
Definition agrees (p : pc) (ph : phase) : Prop :=
  match p, ph with
  | Handler, Opening | GetEntry, Opening | GetMake, Opening => True
  | GetAdd ch, Made ch' => ch = ch'
  | GetHead ch, Joined ch' => ch = ch'
  | GetHistory ch, Headed ch' => ch = ch'
  | GetFlush ch, Replayed ch' => ch = ch'
  | CountLen (ThenLoop ch), Flushed ch' => ch = ch'
  | CountLoop data (ThenLoop ch), Counting ch' n =>
      ch = ch' ∧ data = countFragment n
  | GetSelect ch, Live ch' => ch = ch'
  | GetLoopFlush ch, Wrote ch' => ch = ch'
  | GetDeferred ch, Failed ch' => ch = ch'
  | CountLen ThenReturn, Left _ => True
  | CountLoop data ThenReturn, LeftCounting _ n => data = countFragment n
  | PostEntry, Opening | SendAppend _, Opening | PostRedirect, Opening => True
  | SendLoop update, Appended update' => update = update'
  | PostRedirect, Sent => True
  | Returned, Opening | Returned, Closed _ | Returned, Redirected => True
  | _, _ => False
  end.

(** Every goroutine is where its events say, and only goroutines that exist
    have events. *)
Definition traced (σ : World) : Prop :=
  (∀ t e, (t, e) ∈ log σ → t < length (threads σ))
  ∧ (∀ t th, threads σ !! t = Some th →
       ∃ ph, trace Opening (events_of t (log σ)) = Some ph
             ∧ agrees (at_pc th) ph).

(** The place an event of the opening has among the events of its
    goroutine, counted from 0. *)
Definition place (e : event) : option nat :=
  match e with
  | EvMake _ => Some 0
  | EvJoin _ => Some 1
  | EvHead _ => Some 2
  | EvHistory _ => Some 3
  | _ => None
  end.

(** C3 as it is stated: the join comes after the writes of the replay. *)
Definition joins_after_replay (es : list event) : Prop :=
  ∀ i j ch err,
    es !! i = Some (EvJoin ch) →
    es !! j = Some (EvHead err) ∨ es !! j = Some (EvHistory err) →
    j < i.

(** C7 as it is stated, for a join: the count update that the join of [t]
    triggers, the one [sendCount] is about to send before the goroutine
    enters its loop, shows the size the registry had at the instant of the
    join. *)
Definition count_is_size_at_join : Prop :=
  ∀ now before between t th ch data,
    let σj := run (start now) before in
    last (log σj) = Some (t, EvJoin ch) →
    threads (run σj between) !! t = Some th →
    at_pc th = CountLoop data (ThenLoop ch) →
    data = countFragment (size (chans (app σj))).

(** C7 as it is stated, for the trigger: a goroutine that joins sends a count
    update for its join, before it leaves. *)
Definition count_follows_join (es : list event) : Prop :=
  ∀ i j ch,
    es !! i = Some (EvJoin ch) →
    es !! j = Some (EvLeave ch) →
    ∃ k data, i < k < j ∧ es !! k = Some (EvCount data).

(** The number of events of the opening a phase has behind it. *)
Definition stage (p : phase) : nat :=
  match p with
  | Opening => 0
  | Made _ => 1
  | Joined _ => 2
  | Headed _ => 3
  | _ => 4
  end.

(** The phases of a connection once its channel is made. *)
Definition connected (p : phase) : bool :=
  match p with
  | Opening | Appended _ | Sent | Redirected => false
  | _ => true
  end.

(** One connection, opened on a server with one update in its chat log. *)
Definition oneConnection : list action :=
  [Accept (postRequest "hello") true 0] ++ replicate 5 (Run 0)
  ++ [Accept getRequest true 9] ++ replicate 9 (Run 1).

(** The channel of a connection. *)
Definition chan_of (p : phase) : option chan :=
  match p with
  | Made ch | Joined ch | Headed ch | Replayed ch | Flushed ch
  | Counting ch _ | Live ch | Wrote ch | Failed ch | Left ch
  | LeftCounting ch _ | Closed ch => Some ch
  | _ => None
  end.

(** Two connections: the second joins while the first writes its replay. *)
Definition firstJoins : list action :=
  [Accept getRequest true 9; Accept getRequest true 9] ++ replicate 4 (Run 0).

Definition secondJoins : list action :=
  replicate 4 (Run 1) ++ replicate 4 (Run 0).

(** A connection whose peer goes away during the replay. *)
Definition lostInReplay : list action :=
  [Accept (postRequest "hello") true 0] ++ replicate 5 (Run 0)
  ++ [Accept getRequest true 1] ++ replicate 9 (Run 1).

(** ** The registry and the connections of a run *)

(** The channel a goroutine has made and not yet removed from the
    registry. *)
Definition holds (p : pc) : option chan :=
  match p with
  | GetAdd ch | GetHead ch | GetHistory ch | GetFlush ch | GetSelect ch
  | GetLoopFlush ch | GetDeferred ch => Some ch
  | CountLen (ThenLoop ch) | CountLoop _ (ThenLoop ch) => Some ch
  | _ => None
  end.

(** The channel of a goroutine between its [addChan] and its [removeChan]:
    the channel of an open connection. *)
Definition joined (p : pc) : option chan :=
  match p with
  | GetAdd _ => None
  | _ => holds p
  end.

Definition holder (σ : World) (t : nat) : option chan :=
  threads σ !! t ≫= λ th, holds (at_pc th).

Definition member (σ : World) (t : nat) : option chan :=
  threads σ !! t ≫= λ th, joined (at_pc th).

(** The registry holds the channels of the open connections, every channel
    a goroutine holds is allocated, and no two goroutines hold the same. *)
Definition registered (σ : World) : Prop :=
  (∀ ch, ch ∈ chans (app σ) ↔ ∃ t, member σ t = Some ch)
  ∧ (∀ t ch, holder σ t = Some ch → ch ∈ dom (heap σ))
  ∧ (∀ t1 t2 ch, holder σ t1 = Some ch → holder σ t2 = Some ch → t1 = t2).

Definition isJoin (e : event) : bool :=
  match e with EvJoin _ => true | _ => false end.

Definition isLeave (e : event) : bool :=
  match e with EvLeave _ => true | _ => false end.

(** A goroutine that has joined the registry and not left it, as its
    events tell. *)
Definition online (es : list event) : bool :=
  existsb isJoin es && negb (existsb isLeave es).

(** The goroutines of a log whose connection is joined and not yet left. *)
Definition connections (l : list (nat * event)) : gset nat :=
  list_to_set (filter (λ t, online (events_of t l) = true) (l.*1)).

(** The phases after the join, and those after the leave. *)
Definition entered (p : phase) : bool :=
  match p with
  | Opening | Made _ | Appended _ | Sent | Redirected => false
  | _ => true
  end.

Definition gone (p : phase) : bool :=
  match p with
  | Left _ | LeftCounting _ _ | Closed _ => true
  | _ => false
  end.

(** ** Blanks, and what the handlers do alone *)

(** An ASCII white space byte: what the table [asciiSpace] marks. *)
Definition blank (c : ascii) : bool := asciiSpace (N_of_ascii c).

(** A byte below [utf8.RuneSelf]. *)
Definition isASCII (c : ascii) : bool := (N_of_ascii c <? Utf8.RuneSelf)%N.

(** An ASCII byte that is not a blank. *)
Definition solid (b : N) : bool := (b <? 128)%N && negb (asciiSpace b).

(** The blank bytes taken off the front of a list of bytes. *)
Fixpoint lstrip (l : list ascii) : list ascii :=
  match l with
  | c :: l' => if blank c then lstrip l' else l
  | [] => []
  end.

(** The blank bytes taken off its end. *)
Definition rstrip (l : list ascii) : list ascii := rev (lstrip (rev l)).

(** The updates appended in a run, oldest first, as its log tells. *)
Definition appended (l : list (nat * event)) : list Update :=
  omap (λ x, match x.2 with EvAppend update => Some update | _ => None end) l.

(** No buffer holds more than its capacity. *)
Definition roomy (h : gmap chan Chan) : Prop :=
  ∀ ch c, h !! ch = Some c → length (buf c) ≤ cap c.

(** The media type [getHandler] declares. *)
Definition htmlType : string := "text/html; charset=utf-8".

(** A goroutine serving a GET on a writer [w0] that is no [http.Flusher]:
    it has not touched the writer, or it has returned and the writer holds
    the media type. *)
Definition deaf (w0 : ResponseWriter) (th : Thread) : Prop :=
  Method (req th) = "GET"
  ∧ flusher w0 = false
  ∧ match at_pc th with
    | Handler | GetEntry => rw th = w0
    | Returned => rw th = HeaderSet "Content-Type" htmlType w0
    | _ => False
    end.

(** The steps such a goroutine has before it. *)
Definition toreturn (p : pc) : nat :=
  match p with
  | Handler => 2
  | GetEntry => 1
  | _ => 0
  end.

(** * Properties *)

(** ** The chat log is a sliding window *)

Section History.

Lemma append_history update a :
  history (append update a)
  = drop (length (history a ++ [update]) - historyLimit)
      (history a ++ [update]).
Proof.
  unfold append; simpl.
  destruct (historyLimit <? length (history a ++ [update])) eqn:E; [done|].
  apply Nat.ltb_ge in E.
  by replace (length (history a ++ [update]) - historyLimit) with 0 by lia.
Qed.

Lemma append_bounded update a :
  length (history (append update a)) ≤ historyLimit.
Proof. rewrite append_history, length_drop. lia. Qed.

Lemma append_last update a : last (history (append update a)) = Some update.
Proof.
  rewrite append_history, length_app; simpl.
  rewrite drop_app, last_app.
  replace (length (history a) + 1 - historyLimit - length (history a))
    with 0 by (unfold historyLimit; lia).
  done.
Qed.

Lemma append_chans update a : chans (append update a) = chans a.
Proof. done. Qed.

Lemma lastn_app_lastn {A} (n : nat) (l m : list A) :
  lastn n (lastn n l ++ m) = lastn n (l ++ m).
Proof.
  unfold lastn. rewrite !length_app, length_drop, !drop_app, drop_drop.
  rewrite length_drop.
  destruct (decide (length l ≤ n)) as [Hle|Hgt].
  - replace (length l - n) with 0 by lia. by rewrite !Nat.sub_0_r.
  - f_equal; [f_equal; lia|]. f_equal; lia.
Qed.

Lemma appendAll_history updates a :
  length (history a) ≤ historyLimit →
  history (appendAll updates a) = lastn historyLimit (history a ++ updates).
Proof.
  revert a. induction updates as [|u us IH]; intros a Ha.
  - unfold lastn. rewrite app_nil_r.
    by replace (length (history a) - historyLimit) with 0 by lia.
  - change (appendAll (u :: us) a) with (appendAll us (append u a)).
    rewrite IH by apply append_bounded.
    rewrite append_history. fold (lastn historyLimit (history a ++ [u])).
    rewrite lastn_app_lastn. by rewrite <- app_assoc.
Qed.

Lemma appendAll_cons_history u updates a :
  history (appendAll (u :: updates) a)
  = lastn historyLimit (history a ++ u :: updates).
Proof.
  change (appendAll (u :: updates) a) with (appendAll updates (append u a)).
  rewrite appendAll_history by apply append_bounded.
  rewrite append_history. fold (lastn historyLimit (history a ++ [u])).
  rewrite lastn_app_lastn. by rewrite <- app_assoc.
Qed.

Lemma appendAll_bounded updates a :
  length (history a) ≤ historyLimit →
  length (history (appendAll updates a)) ≤ historyLimit.
Proof.
  intros Ha. rewrite appendAll_history by done.
  unfold lastn. rewrite length_drop. lia.
Qed.

Lemma appendAll_window updates a k :
  length updates = historyLimit + k →
  history (appendAll updates a) = drop k updates.
Proof.
  intros Hlen. destruct updates as [|u us]; [done|].
  rewrite appendAll_cons_history. unfold lastn.
  remember (u :: us) as updates.
  rewrite length_app, Hlen, drop_app.
  rewrite drop_ge by lia. rewrite app_nil_l. f_equal. lia.
Qed.

End History.

(** ** The fan-out *)

Section Broadcast.

Implicit Types (h : gmap chan Chan) (a : App) (ch : chan).

Lemma trySend_lookup data ch h ch' :
  trySend data ch h !! ch'
  = if decide (ch = ch') then offer data <$> h !! ch' else h !! ch'.
Proof.
  unfold trySend, offer. case_decide as E; [subst ch'|].
  - destruct (h !! ch) as [c|] eqn:Hc; simpl; [|by rewrite Hc].
    destruct (length (buf c) <? cap c);
      [by rewrite lookup_insert_eq|by rewrite Hc].
  - destruct (h !! ch) as [c|]; [|done].
    destruct (length (buf c) <? cap c); [by rewrite lookup_insert_ne|done].
Qed.

(** Every registered channel is offered the payload once, and no other
    channel is touched. *)
Lemma broadcast_lookup data a h ch :
  broadcast data a h !! ch
  = if decide (ch ∈ chans a) then offer data <$> h !! ch else h !! ch.
Proof.
  unfold broadcast. generalize (chans a). intros X.
  pose (P := λ (h1 : gmap chan Chan) (X : gset chan),
              h1 !! ch = if decide (ch ∈ X) then offer data <$> h !! ch
                         else h !! ch).
  change (P (set_fold (trySend data) h X) X).
  apply set_fold_ind_L; unfold P.
  - by rewrite decide_False by apply not_elem_of_empty.
  - intros x Y h1 Hx IH. rewrite trySend_lookup, IH.
    destruct (decide (x = ch)) as [->|Hne].
    + rewrite decide_False by done.
      rewrite decide_True; [done|]. apply elem_of_union_l.
      by apply elem_of_singleton.
    + destruct (decide (ch ∈ Y)) as [Hin|Hout].
      * rewrite decide_True; [done|]. by apply elem_of_union_r.
      * rewrite decide_False; [done|].
        intros [Hs|?]%elem_of_union; [|done].
        apply elem_of_singleton in Hs. congruence.
Qed.

Lemma offer_room data c :
  length (buf c) < cap c →
  offer data c = {| cap := cap c; buf := buf c ++ [data] |}.
Proof. intros H. unfold offer. by apply Nat.ltb_lt in H as ->. Qed.

Lemma offer_full data c : cap c ≤ length (buf c) → offer data c = c.
Proof. intros H. unfold offer. by apply Nat.ltb_ge in H as ->. Qed.

Lemma offer_cap data c : cap (offer data c) = cap c.
Proof. unfold offer. by destruct (_ <? _). Qed.

End Broadcast.

(** ** Escaping and trimming, byte by byte *)

Section Bytes.

Implicit Types (s : string) (c : ascii).

Lemma bytes_app s1 s2 : bytes (s1 +:+ s2) = bytes s1 ++ bytes s2.
Proof. induction s1 as [|c s1 IH]; simpl; [done|]. by rewrite IH. Qed.

Lemma len_bytes s : len s = length (bytes s).
Proof. induction s as [|c s IH]; simpl; [done|]. by rewrite IH. Qed.

Lemma len_app s1 s2 : len (s1 +:+ s2) = len s1 + len s2.
Proof. by rewrite !len_bytes, bytes_app, length_app. Qed.

Lemma substring_bytes i n s : bytes (String.substring i n s) ⊆ bytes s.
Proof.
  revert i n. induction s as [|c s IH]; intros i n.
  - by destruct i, n.
  - destruct i as [|i]; simpl.
    + destruct n as [|n]; simpl; [apply list_subseteq_nil|].
      intros x [->|Hx]%elem_of_cons; [left|right]. by apply (IH 0 n).
    + intros x Hx. right. by apply (IH i n).
Qed.

Lemma slice_bytes s i j : bytes (slice s i j) ⊆ bytes s.
Proof. apply substring_bytes. Qed.

Lemma sliceFrom_bytes s i : bytes (sliceFrom s i) ⊆ bytes s.
Proof. apply substring_bytes. Qed.

Lemma trimLeftLoop_bytes f s fuel : bytes (trimLeftLoop f s fuel) ⊆ bytes s.
Proof.
  revert s. induction fuel as [|fuel IH]; intros s; simpl.
  - apply list_subseteq_nil.
  - destruct (len s =? 0); [apply list_subseteq_nil|].
    destruct (Utf8.DecodeRuneInString s) as [r size].
    destruct (f r); [|done].
    etrans; [apply IH|apply sliceFrom_bytes].
Qed.

Lemma TrimRightFunc_bytes s f : bytes (TrimRightFunc s f) ⊆ bytes s.
Proof.
  unfold TrimRightFunc. destruct (lastIndexLoop _ _ _ _) as [i|].
  - destruct (_ <=? _)%N; [|apply slice_bytes].
    destruct (Utf8.DecodeRuneInString _). apply slice_bytes.
  - apply slice_bytes.
Qed.

Lemma TrimFunc_bytes s f : bytes (TrimFunc s f) ⊆ bytes s.
Proof.
  unfold TrimFunc, TrimLeftFunc.
  etrans; [apply TrimRightFunc_bytes|apply trimLeftLoop_bytes].
Qed.

(** Trimming only removes bytes. *)
Lemma TrimSpace_bytes s : bytes (TrimSpace s) ⊆ bytes s.
Proof.
  unfold TrimSpace. destruct (scanStart s 0) as [start|start].
  - etrans; [apply TrimFunc_bytes|apply sliceFrom_bytes].
  - destruct (scanStop _ _ _) as [stop|stop]; [|apply slice_bytes].
    etrans; [apply TrimRightFunc_bytes|apply slice_bytes].
Qed.

Lemma htmlReplacement_special c :
  match htmlReplacement c with
  | Some h => Forall (λ x, special x = false) (bytes h)
  | None => special c = false
  end.
Proof.
  destruct c as [[] [] [] [] [] [] [] []]; vm_compute;
    first [reflexivity | repeat constructor].
Qed.

(** No special byte is left by the escaping. *)
Lemma HTMLEscapeString_special s :
  Forall (λ x, special x = false) (bytes (HTMLEscapeString s)).
Proof.
  induction s as [|c s IH]; simpl; [constructor|].
  pose proof (htmlReplacement_special c) as Hc.
  destruct (htmlReplacement c) as [h|].
  - rewrite bytes_app. by apply Forall_app.
  - by constructor.
Qed.

Lemma escaped_trimmed_special raw c :
  c ∈ bytes (TrimSpace (HTMLEscapeString raw)) → special c = false.
Proof.
  intros Hc%TrimSpace_bytes.
  by eapply Forall_forall in Hc; [|apply HTMLEscapeString_special].
Qed.

End Bytes.

(** ** Timestamps and fragments *)

Section Shape.

Implicit Types (p s : string).

Lemma append_cons c s1 s2 : String c s1 +:+ s2 = String c (s1 +:+ s2).
Proof. reflexivity. Qed.

Lemma hasShape_app p1 s1 p2 s2 :
  hasShape p1 s1 = true → hasShape p2 s2 = true →
  hasShape (p1 +:+ p2) (s1 +:+ s2) = true.
Proof.
  revert s1. induction p1 as [|c p1 IH]; intros [|c1 s1]; simpl; try done.
  intros [Hc H1]%andb_true_iff H2. rewrite Hc. simpl. by apply IH.
Qed.

Lemma hasShape_len p s : hasShape p s = true → len s = len p.
Proof.
  revert s. induction p as [|c p IH]; intros [|c1 s]; simpl; try done.
  intros [_ H]%andb_true_iff. f_equal. by apply IH.
Qed.

Lemma append_empty s : s +:+ "" = s.
Proof. induction s as [|c s IH]; [done|]. by rewrite append_cons, IH. Qed.

(** Up to 99 in two digits, up to 9999 in four. *)
Lemma appendInt_2 x : x < 100 → hasShape "dd" (Time.appendInt x 2) = true.
Proof.
  intros Hx.
  assert (H : forallb (λ x, hasShape "dd" (Time.appendInt x 2)) (seq 0 100)
              = true) by (vm_compute; reflexivity).
  rewrite forallb_forall in H. apply H, in_seq. lia.
Qed.

Lemma appendInt_4 x :
  x < 100 * 100 → hasShape "dddd" (Time.appendInt x 4) = true.
Proof.
  intros Hx.
  assert (H : forallb (λ x, hasShape "dddd" (Time.appendInt x 4))
                (seq 0 (100 * 100)) = true) by (vm_compute; reflexivity).
  rewrite forallb_forall in H. apply H, in_seq. lia.
Qed.

Lemma Format_stamp now :
  Time.Format now stampLayout
  = Time.appendInt (Time.year now) 4 +:+ "-"
    +:+ Time.appendInt (Time.month now) 2 +:+ "-"
    +:+ Time.appendInt (Time.day now) 2 +:+ " "
    +:+ Time.appendInt (Time.hour now) 2 +:+ ":"
    +:+ Time.appendInt (Time.minute now) 2 +:+ ":"
    +:+ Time.appendInt (Time.second now) 2.
Proof.
  rewrite <- (append_empty (Time.appendInt (Time.second now) 2)) at 1.
  reflexivity.
Qed.

Lemma Format_shape now :
  Time.valid now → hasShape stampShape (Time.Format now stampLayout) = true.
Proof.
  intros (Hy & Hmo & Hd & Hh & Hmi & Hs). rewrite Format_stamp.
  change stampShape
    with ("dddd" +:+ "-" +:+ "dd" +:+ "-" +:+ "dd" +:+ " " +:+ "dd" +:+ ":"
          +:+ "dd" +:+ ":" +:+ "dd").
  repeat first
    [ apply hasShape_app
    | apply appendInt_4; lia
    | apply appendInt_2; lia
    | reflexivity ].
Qed.

End Shape.

Lemma newData_exact update :
  newData update
  = "<div class=" +:+ dquote +:+ "new" +:+ dquote +:+ "><p>"
    +:+ message update +:+ "</p><time>" +:+ timestamp update
    +:+ "</time></div>".
Proof. reflexivity. Qed.

Lemma historyData_exact update :
  historyData update
  = "<div><p>" +:+ message update +:+ "</p><time>" +:+ timestamp update
    +:+ "</time></div>".
Proof. reflexivity. Qed.

Lemma countFragment_exact n :
  countFragment n
  = "<style>#nc::before{content:" +:+ dquote +:+ decimal n +:+ dquote
    +:+ "}</style>".
Proof. reflexivity. Qed.

Lemma Write_ok data w :
  0 < credit w →
  ∃ w1, Write data w = (w1, false) ∧ body w1 = body w ++ [data]
        ∧ credit w1 = credit w - 1.
Proof.
  intros H. unfold Write. destruct (credit w) as [|k]; [lia|].
  eexists. split; [done|]. simpl. split; [done|lia].
Qed.

(** With the peer there, [sendHistory] writes the chat log, oldest first. *)
Lemma sendHistory_writes w a :
  length (history a) ≤ credit w →
  (sendHistory w a).2 = false
  ∧ body (sendHistory w a).1 = body w ++ (historyData <$> history a).
Proof.
  unfold sendHistory. generalize (history a). intros l. revert w.
  induction l as [|u l IH]; intros w Hc; simpl.
  - by rewrite app_nil_r.
  - simpl in Hc. destruct (Write_ok (historyData u) w) as (w1 & -> & Hb & Hc1);
      [lia|].
    destruct (IH w1) as [-> ->]; [lia|]. split; [done|].
    by rewrite Hb, <- app_assoc.
Qed.

(** ** Runs *)

Lemma run_cons σ x s : run σ (x :: s) = run (exec σ x) s.
Proof. done. Qed.

Lemma run_app σ s1 s2 : run σ (s1 ++ s2) = run (run σ s1) s2.
Proof. apply foldl_app. Qed.

Lemma run_invariant (P : World → Prop) (Q : action → Prop) σ schedule :
  P σ → Forall Q schedule → (∀ σ1 x, P σ1 → Q x → P (exec σ1 x)) →
  P (run σ schedule).
Proof.
  intros H0 Hs Hstep. revert σ H0.
  induction Hs as [|x s Hx Hs IH]; intros σ H0; [done|].
  rewrite run_cons. by apply IH, Hstep.
Qed.

Lemma exec_Run σ t th :
  threads σ !! t = Some th →
  exec σ (Run t)
  = let '(th1, a1, h1, evs) := thread_step (clock σ) th (app σ) (heap σ) in
    {| app := a1; heap := h1; clock := clock σ;
       threads := <[t := th1]> (threads σ);
       log := log σ ++ tag t evs |}.
Proof. intros H. simpl. by rewrite H. Qed.

Lemma run_alone n σ t th :
  threads σ !! t = Some th →
  run σ (replicate n (Run t))
  = let '(th1, a1, h1, evs) := steps n (clock σ) th (app σ) (heap σ) in
    {| app := a1; heap := h1; clock := clock σ;
       threads := <[t := th1]> (threads σ);
       log := log σ ++ tag t evs |}.
Proof.
  revert σ th. induction n as [|n IH]; intros σ th Hth.
  - simpl. rewrite app_nil_r, list_insert_id by done. by destruct σ.
  - simpl replicate. rewrite run_cons, (exec_Run _ _ _ Hth). simpl steps.
    destruct (thread_step _ _ _ _) as [[[th1 a1] h1] evs1].
    erewrite IH; simpl.
    2:{ apply list_lookup_insert_eq. by eapply lookup_lt_Some. }
    destruct (steps n _ _ _ _) as [[[th2 a2] h2] evs2].
    unfold tag. by rewrite list_insert_insert_eq, fmap_app, app_assoc.
Qed.

Lemma post_steps now th a h :
  at_pc th = Handler → Method (req th) = "POST" →
  steps 5 now th a h
  = let '(w, a1, h1) := postHandler now (req th) (rw th) a h in
    (goto th w Returned, a1, h1, postEvents now (req th)).
Proof.
  intros Hpc Hm. unfold postHandler, postEvents.
  cbn [steps]. unfold thread_step at 1. rewrite Hpc, Hm.
  cbn [String.eqb Ascii.eqb Bool.eqb]. cbv iota.
  unfold thread_step at 1. cbn [at_pc goto req rw].
  destruct (maxMsgLen <? len _) eqn:Hlen.
  - unfold thread_step. cbn [at_pc goto req rw app]. done.
  - destruct (0 <? len _) eqn:Hne.
    + unfold thread_step. cbn [at_pc goto req rw app]. done.
    + unfold thread_step. cbn [at_pc goto req rw app]. done.
Qed.

(** ** The cases of a step *)

Ltac step_cases H :=
  repeat match type of H with
    | context [if ?b then _ else _] => destruct b eqn:?
    | context [let '(_, _) := ?x in _] => destruct x eqn:?
    | context [match ?x with Some _ => _ | None => _ end] => destruct x eqn:?
    | context [match ?x with mkChan _ _ => _ end] => destruct x eqn:?
    | context [match ?x with [] => _ | _ :: _ => _ end] => destruct x eqn:?
    end.

(** ** The chat log in a run *)

Lemma thread_step_history now th a h th1 a1 h1 evs :
  thread_step now th a h = (th1, a1, h1, evs) →
  history a1 = history a ∨ ∃ update, a1 = append update a.
Proof.
  intros Hstep. unfold thread_step in Hstep.
  destruct (at_pc th); step_cases Hstep; simplify_eq; eauto.
Qed.

(** In every run of the server the chat log is within its bound. *)
Lemma reachable_bounded now schedule :
  length (history (app (run (start now) schedule))) ≤ historyLimit.
Proof.
  apply (run_invariant
           (λ σ, length (history (app σ)) ≤ historyLimit) (λ _, True)).
  - simpl. lia.
  - by apply Forall_forall.
  - intros σ x H _. destruct x as [r canFlush writes|t|now']; simpl; try done.
    destruct (threads σ !! t) as [th|]; [|done].
    destruct (thread_step _ _ _ _) as [[[th1 a1] h1] evs] eqn:Hstep.
    apply thread_step_history in Hstep as [Hsame|[update ->]]; simpl.
    + by rewrite Hsame.
    + apply append_bounded.
Qed.

(** C2.  The chat log never holds more than [historyLimit] updates: not
    after one [append] in any state, not after any sequence of them on a new
    App, and at no time in any run of the server.  After [historyLimit + k]
    updates (k >= 1) have been appended, whatever the log held before, it
    holds exactly the last [historyLimit] of them in the order they were
    appended. *)
Theorem history_sliding_window :
  (∀ update a, length (history (append update a)) ≤ historyLimit)
  ∧ (∀ updates, length (history (appendAll updates NewApp)) ≤ historyLimit)
  ∧ (∀ now schedule,
       length (history (app (run (start now) schedule))) ≤ historyLimit)
  ∧ (∀ a updates k,
       1 ≤ k →
       length updates = historyLimit + k →
       history (appendAll updates a) = drop k updates
       ∧ length (history (appendAll updates a)) = historyLimit).
Proof.
  split_and!.
  - apply append_bounded.
  - intros updates. apply appendAll_bounded. simpl. lia.
  - apply reachable_bounded.
  - intros a updates k _ Hlen. rewrite (appendAll_window _ _ k) by done.
    split; [done|]. rewrite length_drop. lia.
Qed.

(** Twenty-one numbered updates. *)
Lemma history_sliding_window_witness :
  let updates :=
    (λ n, {| timestamp := "2026-10-30 18:06:09"; message := decimal n |})
      <$> seq 0 21 in
  history (appendAll updates NewApp) = drop 1 updates
  ∧ length (history (appendAll updates NewApp)) = historyLimit.
Proof.
  intros updates.
  apply (proj2 (proj2 (proj2 history_sliding_window)) NewApp updates 1);
    [lia | reflexivity].
Defined.

(** ** Only admitted updates are stored and sent *)

Section Sound.

Variable P : Time.t → Prop.

Lemma append_admitted update a :
  admitted P update → Forall (admitted P) (history a) →
  Forall (admitted P) (history (append update a)).
Proof.
  intros Hu Ha. rewrite append_history. apply Forall_drop, Forall_app.
  split; [done|]. by apply Forall_singleton.
Qed.

Lemma offer_ok data c :
  payload_ok P data →
  cap c = bufferSize ∧ Forall (payload_ok P) (buf c) →
  cap (offer data c) = bufferSize
  ∧ Forall (payload_ok P) (buf (offer data c)).
Proof.
  intros Hd [Hcap Hbuf]. rewrite offer_cap. split; [done|].
  unfold offer. destruct (_ <? _); [|done]. simpl.
  apply Forall_app. split; [done|]. by apply Forall_singleton.
Qed.

Lemma broadcast_ok data a h :
  payload_ok P data → heap_ok P h → heap_ok P (broadcast data a h).
Proof.
  intros Hd Hh ch c. rewrite broadcast_lookup.
  destruct (decide (ch ∈ chans a)); [|apply Hh].
  destruct (h !! ch) as [c0|] eqn:Hc; simpl; [|done].
  intros [= <-]. apply offer_ok; [done|]. by apply (Hh ch).
Qed.

Lemma insert_ok ch c h :
  heap_ok P h → cap c = bufferSize → Forall (payload_ok P) (buf c) →
  heap_ok P (<[ch := c]> h).
Proof.
  intros Hh Hcap Hbuf ch' c'. rewrite lookup_insert.
  case_decide; [by intros [= <-]|apply Hh].
Qed.

Lemma countData_ok a : ∃ n, countData a = countFragment n.
Proof. by exists (size (chans a)). Qed.

Lemma thread_step_sound now th a h th1 a1 h1 evs :
  thread_step now th a h = (th1, a1, h1, evs) →
  P now →
  pc_ok P (at_pc th) → Forall (admitted P) (history a) → heap_ok P h →
  pc_ok P (at_pc th1) ∧ Forall (admitted P) (history a1) ∧ heap_ok P h1
  ∧ Forall (event_ok P) evs.
Proof.
  intros Hstep Hnow Hpc Ha Hh. unfold thread_step in Hstep.
  destruct (at_pc th) eqn:Hat; cbn [pc_ok] in Hpc.
  all: step_cases Hstep; simplify_eq; cbn [at_pc goto pc_ok].
  all: split_and!; try done.
  all: try (by repeat constructor).
  all: try match goal with
         | Hl : ?h !! ?ch = Some {| cap := _; buf := _ :: _ |},
           Hh : heap_ok P ?h |- _ =>
             destruct (Hh _ _ Hl) as [? [? ?]%Forall_cons]; simpl in *
         end.
  all: try (apply insert_ok; first [done | by repeat constructor]).
  all: try (by apply Forall_singleton).
  - apply countData_ok.
  - by destruct k.
  - apply broadcast_ok; [by left|done].
  - exists (Get (PostForm (req th)) "msg"), now.
    split_and!; [done|by apply Nat.ltb_ge|done|by apply Nat.ltb_lt|done].
  - by apply append_admitted.
  - apply broadcast_ok; [right; by exists update|done].
  - repeat constructor. by exists update.
  - by rewrite Hat.
Qed.

Lemma exec_sound σ x : sound P σ → reads P x → sound P (exec σ x).
Proof.
  intros (Hc & Ha & Hh & Hth & Hlog) Hx.
  destruct x as [r canFlush writes|t|now].
  - split_and!; simpl; try done.
    intros t th [[_ Hl]|[_ <-]]%lookup_snoc_Some; [|done].
    by apply (Hth t).
  - simpl. destruct (threads σ !! t) as [th|] eqn:Ht; [|done].
    destruct (thread_step _ _ _ _) as [[[th1 a1] h1] evs] eqn:Hstep.
    apply thread_step_sound in Hstep as (Hpc1 & Ha1 & Hh1 & Hevs);
      [|done|by apply (Hth t)|done|done].
    split_and!; simpl; try done.
    + intros t' th'. rewrite list_lookup_insert.
      case_decide as E; [|apply Hth].
      destruct E as [-> _]. by intros [= <-].
    + intros t' e [Hin|Hin]%elem_of_app; [by apply (Hlog t')|].
      apply list_elem_of_fmap in Hin as (e' & [= -> ->] & Hin).
      by eapply Forall_forall in Hevs.
  - done.
Qed.

Lemma start_sound now : P now → sound P (start now).
Proof.
  intros Hnow. split_and!; simpl; try done.
  intros t e Hin. by apply not_elem_of_nil in Hin.
Qed.

Lemma reachable_sound now schedule :
  P now → Forall (reads P) schedule → sound P (run (start now) schedule).
Proof.
  intros Hnow Hs.
  apply (run_invariant (sound P) (reads P)); [by apply start_sound|done|].
  apply exec_sound.
Qed.

End Sound.

Lemma reads_any schedule : Forall (reads any) schedule.
Proof. apply Forall_forall. by intros []. Qed.

Lemma reachable_sound_any now schedule :
  sound any (run (start now) schedule).
Proof. apply reachable_sound; [done|apply reads_any]. Qed.

Lemma send_steps now th a h update :
  at_pc th = SendAppend update →
  steps 2 now th a h
  = (goto th (rw th) PostRedirect, (send update a h).1, (send update a h).2,
     [EvAppend update; EvSend (newData update)]).
Proof.
  intros Hpc. cbn [steps]. unfold thread_step at 1. rewrite Hpc.
  unfold thread_step. by cbn [at_pc goto].
Qed.

(** C1.  [send] first appends the update to the chat log (it becomes its
    last entry, the registry is untouched) and then offers the rendered
    update to every registered channel without blocking: a registered
    channel of capacity [bufferSize] holding fewer than [bufferSize] payloads
    gets exactly one copy at the end of its buffer, a full one gets none,
    and a channel that is not registered is left alone.  [send] is a total
    function: there is no state of the channels in which it does not
    return.  In every run of the server every channel has the capacity
    [bufferSize], and the two steps of a goroutine that is about to [send]
    do just that. *)
Theorem send_fans_out :
  (∀ update a (h : gmap chan Chan) ch c,
     h !! ch = Some c →
     cap c = bufferSize →
     let a1 := (send update a h).1 in
     let h1 := (send update a h).2 in
     a1 = append update a
     ∧ last (history a1) = Some update
     ∧ chans a1 = chans a
     ∧ h1 = broadcast (newData update) a1 h
     ∧ (ch ∈ chans a → length (buf c) < bufferSize →
        h1 !! ch = Some {| cap := cap c; buf := buf c ++ [newData update] |})
     ∧ (ch ∈ chans a → bufferSize ≤ length (buf c) → h1 !! ch = Some c)
     ∧ (ch ∉ chans a → h1 !! ch = Some c))
  ∧ (∀ now schedule t th update ch c,
       let σ := run (start now) schedule in
       threads σ !! t = Some th →
       at_pc th = SendAppend update →
       heap σ !! ch = Some c →
       let σ2 := run σ [Run t; Run t] in
       app σ2 = append update (app σ)
       ∧ log σ2 = log σ ++ [(t, EvAppend update); (t, EvSend (newData update))]
       ∧ heap σ2 !! ch
         = Some (if decide (ch ∈ chans (app σ) ∧ length (buf c) < bufferSize)
                 then {| cap := cap c; buf := buf c ++ [newData update] |}
                 else c)).
Proof.
  split.
  - intros update a h ch c Hc Hcap. simpl. split_and!; try done.
    + apply append_last.
    + intros Hin Hlen. rewrite broadcast_lookup, append_chans.
      rewrite decide_True by done. rewrite Hc. simpl.
      by rewrite offer_room by lia.
    + intros Hin Hlen. rewrite broadcast_lookup, append_chans.
      rewrite decide_True by done. rewrite Hc. simpl.
      by rewrite offer_full by lia.
    + intros Hout. rewrite broadcast_lookup, append_chans.
      by rewrite decide_False by done.
  - intros now schedule t th update ch c σ Ht Hpc Hc σ2. subst σ2.
    destruct (reachable_sound_any now schedule) as (_ & _ & Hh & _).
    destruct (Hh ch c Hc) as [Hcap _].
    change [Run t; Run t] with (replicate 2 (Run t)).
    rewrite (run_alone 2 _ _ _ Ht), (send_steps _ _ _ _ _ Hpc). simpl.
    split_and!; try done.
    rewrite broadcast_lookup, append_chans, Hc. simpl.
    destruct (decide (ch ∈ chans (app σ))) as [Hin|Hout].
    + destruct (decide (length (buf c) < bufferSize)) as [Hlt|Hge].
      * rewrite decide_True by done. by rewrite offer_room by lia.
      * rewrite decide_False by (intros [_ ?]; done).
        by rewrite offer_full by lia.
    + by rewrite decide_False by (intros [? _]; done).
Qed.

(** One registered channel with room, one that is full. *)
Lemma send_fans_out_witness :
  let update := {| timestamp := "2026-10-30 18:06:09"; message := "hi" |} in
  let a := {| chans := {[3; 4]}; history := [] |} in
  let c3 := {| cap := 5; buf := ["a"] |} in
  let c4 := {| cap := 5; buf := ["a"; "b"; "c"; "d"; "e"] |} in
  let h : gmap chan Chan := {[3 := c3; 4 := c4]} in
  (send update a h).2 !! 3
  = Some {| cap := 5; buf := ["a"; newData update] |}
  ∧ (send update a h).2 !! 4 = Some c4.
Proof.
  intros update a c3 c4 h. split.
  - pose proof (proj1 send_fans_out update a h 3 c3 eq_refl eq_refl)
      as (_ & _ & _ & _ & Hroom & _).
    apply Hroom.
    + apply elem_of_union_l. by apply elem_of_singleton.
    + simpl. unfold bufferSize. lia.
  - pose proof (proj1 send_fans_out update a h 4 c4 eq_refl eq_refl)
      as (_ & _ & _ & _ & _ & Hfull & _).
    apply Hfull.
    + apply elem_of_union_r. by apply elem_of_singleton.
    + simpl. unfold bufferSize. lia.
Defined.

(** ** The submit handler *)

Lemma post_alone σ t th :
  threads σ !! t = Some th →
  at_pc th = Handler →
  Method (req th) = "POST" →
  run σ (replicate 5 (Run t))
  = let '(w, a1, h1) :=
      postHandler (clock σ) (req th) (rw th) (app σ) (heap σ) in
    {| app := a1; heap := h1; clock := clock σ;
       threads := <[t := goto th w Returned]> (threads σ);
       log := log σ ++ tag t (postEvents (clock σ) (req th)) |}.
Proof.
  intros Ht Hpc Hm. rewrite (run_alone _ _ _ _ Ht), post_steps by done.
  by destruct (postHandler _ _ _ _ _) as [[w a1] h1].
Qed.

Lemma postHandler_long now r w a h :
  maxMsgLen < len (Get (PostForm r) "msg") →
  postHandler now r w a h = (Redirect w "/" 302, a, h)
  ∧ postEvents now r = [EvRedirect 302].
Proof.
  intros H%Nat.ltb_lt. unfold postHandler, postEvents. by rewrite H.
Qed.

Lemma postHandler_empty now r w a h :
  len (TrimSpace (HTMLEscapeString (Get (PostForm r) "msg"))) = 0 →
  postHandler now r w a h = (Redirect w "/" 302, a, h)
  ∧ postEvents now r = [EvRedirect 302].
Proof.
  intros H. unfold postHandler, postEvents. rewrite H.
  by destruct (maxMsgLen <? _).
Qed.

Lemma postHandler_accepted now r w a h :
  len (Get (PostForm r) "msg") ≤ maxMsgLen →
  0 < len (TrimSpace (HTMLEscapeString (Get (PostForm r) "msg"))) →
  let update :=
    {| timestamp := Time.Format now stampLayout;
       message := TrimSpace (HTMLEscapeString (Get (PostForm r) "msg")) |} in
  postHandler now r w a h
  = (Redirect w "/" 302, append update a,
     broadcast (newData update) (append update a) h)
  ∧ postEvents now r
    = [EvAppend update; EvSend (newData update); EvRedirect 302].
Proof.
  intros H1%Nat.ltb_ge H2%Nat.ltb_lt. unfold postHandler, postEvents.
  by rewrite H1, H2.
Qed.

Lemma postHandler_writer now r w a h :
  (postHandler now r w a h).1.1 = Redirect w "/" 302.
Proof.
  unfold postHandler. destruct (maxMsgLen <? _); [done|].
  by destruct (0 <? _).
Qed.

Lemma thread_step_posting w0 now th a h th1 a1 h1 evs :
  thread_step now th a h = (th1, a1, h1, evs) →
  posting w0 th →
  posting w0 th1 ∧ todo (at_pc th1) ≤ todo (at_pc th) - 1.
Proof.
  intros Hstep [Hm Hw]. unfold thread_step in Hstep. unfold posting.
  destruct (at_pc th) eqn:Hat; try done.
  1: rewrite Hm in Hstep; simpl in Hstep.
  all: step_cases Hstep; simplify_eq; simpl; try (split; [done|lia]).
  rewrite Hat. split; [done|]. simpl. lia.
Qed.

Lemma run_posting w0 schedule σ t th :
  threads σ !! t = Some th →
  posting w0 th →
  ∃ th1, threads (run σ schedule) !! t = Some th1
         ∧ posting w0 th1
         ∧ todo (at_pc th1) ≤ todo (at_pc th) - turns t schedule.
Proof.
  revert σ th. induction schedule as [|x s IH]; intros σ th Ht Hp.
  - exists th. simpl. split_and!; [done|done|lia].
  - rewrite run_cons. destruct x as [r canFlush writes|t'|now]; simpl turns.
    + apply IH; [|done]. simpl. by apply lookup_app_l_Some.
    + destruct (decide (t' = t)) as [->|Hne].
      * rewrite (exec_Run _ _ _ Ht).
        destruct (thread_step _ _ _ _) as [[[th1 a1] h1] evs] eqn:Hstep.
        destruct (thread_step_posting _ _ _ _ _ _ _ _ _ Hstep Hp) as [Hp1 Htodo].
        destruct (IH {| app := a1; heap := h1; clock := clock σ;
                        threads := <[t := th1]> (threads σ);
                        log := log σ ++ tag t evs |} th1)
          as (th2 & Ht2 & Hp2 & Htodo2); [|done|].
        { simpl. apply list_lookup_insert_eq. by eapply lookup_lt_Some. }
        exists th2. split_and!; [done|done|lia].
      * destruct (IH (exec σ (Run t')) th) as (th2 & Ht2 & Hp2 & Htodo2);
          [|done|].
        { simpl. destruct (threads σ !! t') as [th'|]; [|done].
          destruct (thread_step _ _ _ _) as [[[th1 a1] h1] evs]. simpl.
          by rewrite list_lookup_insert_ne. }
        exists th2. split_and!; [done|done|lia].
    + by apply IH.
Qed.

Lemma post_returns σ t th schedule :
  threads σ !! t = Some th →
  at_pc th = Handler →
  Method (req th) = "POST" →
  5 ≤ turns t schedule →
  ∃ th1, threads (run σ schedule) !! t = Some th1
         ∧ at_pc th1 = Returned
         ∧ rw th1 = Redirect (rw th) "/" 302.
Proof.
  intros Ht Hpc Hm Hturns.
  destruct (run_posting (rw th) schedule σ t th Ht) as (th1 & Ht1 & [_ Hp] & Htodo).
  { split; [done|]. by rewrite Hpc. }
  exists th1. rewrite Hpc in Htodo. simpl in Htodo.
  destruct (at_pc th1); simpl in Htodo; try done; lia.
Qed.

Lemma turns_replicate t n : turns t (replicate n (Run t)) = n.
Proof.
  induction n as [|n IH]; [done|]. simpl. rewrite decide_True by done.
  by rewrite IH.
Qed.

(** C4.  A goroutine serving a POST answers 302 Found to "/" and writes no
    body, whatever the field holds and whatever the other goroutines do
    meanwhile: once it has had five steps it has returned and its writer
    holds the redirect.  When the raw field is longer than [maxMsgLen] bytes
    the request changes nothing: the App and every channel are as before and
    the redirect is the only thing the goroutine did.  And in every run of
    the server, every update of the chat log, every update sent and every
    update waiting in a channel comes from a field of at most [maxMsgLen]
    bytes (its escaped form can be longer). *)
Theorem post_redirects_and_rejects_long :
  (∀ σ t th schedule,
     threads σ !! t = Some th →
     at_pc th = Handler →
     Method (req th) = "POST" →
     status (rw th) = None →
     5 ≤ turns t schedule →
     ∃ th1,
       threads (run σ schedule) !! t = Some th1
       ∧ at_pc th1 = Returned
       ∧ status (rw th1) = Some 302
       ∧ header (rw th1) !! "Location" = Some "/"
       ∧ body (rw th1) = body (rw th))
  ∧ (∀ σ t th,
       threads σ !! t = Some th →
       at_pc th = Handler →
       Method (req th) = "POST" →
       maxMsgLen < len (Get (PostForm (req th)) "msg") →
       let σ1 := run σ (replicate 5 (Run t)) in
       app σ1 = app σ ∧ heap σ1 = heap σ
       ∧ log σ1 = log σ ++ [(t, EvRedirect 302)])
  ∧ (∀ now schedule,
       let σ := run (start now) schedule in
       (∀ update, update ∈ history (app σ) →
          ∃ raw, len raw ≤ maxMsgLen
                 ∧ message update = TrimSpace (HTMLEscapeString raw))
       ∧ (∀ t data, (t, EvSend data) ∈ log σ →
            ∃ update raw,
              data = newData update ∧ len raw ≤ maxMsgLen
              ∧ message update = TrimSpace (HTMLEscapeString raw))
       ∧ (∀ ch c data, heap σ !! ch = Some c → data ∈ buf c →
            (∃ n, data = countFragment n)
            ∨ (∃ update raw,
                 data = newData update ∧ len raw ≤ maxMsgLen
                 ∧ message update = TrimSpace (HTMLEscapeString raw)))).
Proof.
  split_and!.
  - intros σ t th schedule Ht Hpc Hm Hst Hturns.
    destruct (post_returns σ t th schedule Ht Hpc Hm Hturns)
      as (th1 & Ht1 & Hpc1 & Hw).
    exists th1. rewrite Hw. simpl. rewrite Hst.
    split_and!; try done. apply lookup_insert_eq.
  - intros σ t th Ht Hpc Hm Hlong σ1. subst σ1.
    rewrite (post_alone _ _ _ Ht Hpc Hm).
    by destruct (postHandler_long (clock σ) (req th) (rw th) (app σ) (heap σ)
                   Hlong) as [-> ->].
  - intros now schedule σ.
    destruct (reachable_sound_any now schedule) as (_ & Ha & Hh & _ & Hlog).
    fold σ in Ha, Hh, Hlog. split_and!.
    + intros update Hin. eapply Forall_forall in Ha; [|done].
      destruct Ha as (raw & _ & _ & ? & ? & _). by exists raw.
    + intros t data Hin.
      destruct (Hlog _ _ Hin) as (u & (raw & _ & _ & ? & ? & _) & ->).
      by exists u, raw.
    + intros ch c data Hc Hin. destruct (Hh _ _ Hc) as [_ Hbuf].
      eapply Forall_forall in Hbuf; [|done].
      destruct Hbuf as [?|(u & (raw & _ & _ & ? & ? & _) & ->)];
        [by left|right].
      by exists u, raw.
Qed.

(** A field of 1025 bytes. *)
Lemma post_redirects_and_rejects_long_witness :
  let σ := run (start noon) [Accept (postRequest (repeat "a" 1025)) true 0] in
  let σ1 := run σ (replicate 5 (Run 0)) in
  (∃ th1,
     threads σ1 !! 0 = Some th1 ∧ at_pc th1 = Returned
     ∧ status (rw th1) = Some 302
     ∧ header (rw th1) !! "Location" = Some "/"
     ∧ body (rw th1) = [])
  ∧ app σ1 = app σ ∧ heap σ1 = heap σ
  ∧ log σ1 = log σ ++ [(0, EvRedirect 302)].
Proof.
  intros σ σ1.
  set (th := {| req := postRequest (repeat "a" 1025);
                rw := newWriter true 0; at_pc := Handler |}).
  split.
  - apply (proj1 post_redirects_and_rejects_long σ 0 th
             (replicate 5 (Run 0)));
      [reflexivity | reflexivity | reflexivity | reflexivity |].
    rewrite turns_replicate. lia.
  - apply (proj1 (proj2 post_redirects_and_rejects_long) σ 0 th);
      [reflexivity | reflexivity | reflexivity |].
    apply Nat.ltb_lt. vm_compute. reflexivity.
Defined.

(** C5.  When a POST is accepted (a field of at most [maxMsgLen] bytes whose
    escaped and trimmed form is not empty), the update appended to the chat
    log and rendered into the payload offered to the channels carries
    exactly [TrimSpace (HTMLEscapeString raw)]; no NUL, quote or angle
    bracket of the field is left in it as it was.  Posting [<b>hi</b>]
    stores [&lt;b&gt;hi&lt;/b&gt;].  In every run of the server, every
    message of the chat log is such a text. *)
Theorem post_stores_escaped_trimmed :
  (∀ σ t th raw,
     threads σ !! t = Some th →
     at_pc th = Handler →
     Method (req th) = "POST" →
     Get (PostForm (req th)) "msg" = raw →
     len raw ≤ maxMsgLen →
     0 < len (TrimSpace (HTMLEscapeString raw)) →
     let update :=
       {| timestamp := Time.Format (clock σ) stampLayout;
          message := TrimSpace (HTMLEscapeString raw) |} in
     let σ1 := run σ (replicate 5 (Run t)) in
     app σ1 = append update (app σ)
     ∧ last (history (app σ1)) = Some update
     ∧ heap σ1 = broadcast (newData update) (app σ1) (heap σ)
     ∧ log σ1
       = log σ ++ [(t, EvAppend update); (t, EvSend (newData update));
                   (t, EvRedirect 302)]
     ∧ (∀ c, c ∈ bytes (message update) → special c = false))
  ∧ TrimSpace (HTMLEscapeString "<b>hi</b>") = "&lt;b&gt;hi&lt;/b&gt;"
  ∧ (∀ now schedule update,
       update ∈ history (app (run (start now) schedule)) →
       (∃ raw, message update = TrimSpace (HTMLEscapeString raw))
       ∧ (∀ c, c ∈ bytes (message update) → special c = false)).
Proof.
  split_and!.
  - intros σ t th raw Ht Hpc Hm Hraw Hlen Hne update σ1. subst σ1 raw.
    rewrite (post_alone _ _ _ Ht Hpc Hm).
    destruct (postHandler_accepted (clock σ) (req th) (rw th) (app σ) (heap σ)
                Hlen Hne) as [-> ->].
    simpl. split_and!; try done.
    + apply append_last.
    + intros c. apply escaped_trimmed_special.
  - reflexivity.
  - intros now schedule update Hin.
    destruct (reachable_sound_any now schedule) as (_ & Ha & _).
    eapply Forall_forall in Ha; [|done].
    destruct Ha as (raw & _ & _ & _ & Hmsg & _). split; [by exists raw|].
    rewrite Hmsg. intros c. apply escaped_trimmed_special.
Qed.

(** The post of the example, with blanks around it. *)
Lemma post_stores_escaped_trimmed_witness :
  let σ := run (start noon) [Accept (postRequest " <b>hi</b> ") true 0] in
  let update :=
    {| timestamp := "2026-10-30 12:00:00"; message := "&lt;b&gt;hi&lt;/b&gt;" |} in
  history (app (run σ (replicate 5 (Run 0)))) = [update]
  ∧ log (run σ (replicate 5 (Run 0)))
    = [(0, EvAppend update); (0, EvSend (newData update)); (0, EvRedirect 302)].
Proof.
  intros σ update.
  pose proof (proj1 post_stores_escaped_trimmed σ 0
                {| req := postRequest " <b>hi</b> ";
                   rw := newWriter true 0; at_pc := Handler |}
                " <b>hi</b> " eq_refl eq_refl eq_refl eq_refl) as H.
  destruct H as (Happ & _ & _ & Hlog & _).
  - vm_compute. lia.
  - vm_compute. lia.
  - split; [by rewrite Happ|exact Hlog].
Defined.

(** C8.  A POST whose field is empty once escaped and trimmed (empty, or
    white space only) changes nothing: the App and every channel are as
    before, and the redirect is all the goroutine did.  In every run of the
    server no update of the chat log and no update sent has an empty
    message. *)
Theorem empty_post_ignored :
  (∀ σ t th,
     threads σ !! t = Some th →
     at_pc th = Handler →
     Method (req th) = "POST" →
     len (TrimSpace (HTMLEscapeString (Get (PostForm (req th)) "msg"))) = 0 →
     let σ1 := run σ (replicate 5 (Run t)) in
     app σ1 = app σ ∧ heap σ1 = heap σ
     ∧ log σ1 = log σ ++ [(t, EvRedirect 302)])
  ∧ (∀ now schedule,
       let σ := run (start now) schedule in
       (∀ update, update ∈ history (app σ) → 0 < len (message update))
       ∧ (∀ t data, (t, EvSend data) ∈ log σ →
            ∃ update, data = newData update ∧ 0 < len (message update))).
Proof.
  split.
  - intros σ t th Ht Hpc Hm Hempty σ1. subst σ1.
    rewrite (post_alone _ _ _ Ht Hpc Hm).
    by destruct (postHandler_empty (clock σ) (req th) (rw th) (app σ) (heap σ)
                   Hempty) as [-> ->].
  - intros now schedule σ.
    destruct (reachable_sound_any now schedule) as (_ & Ha & _ & _ & Hlog).
    fold σ in Ha, Hlog. split.
    + intros update Hin. eapply Forall_forall in Ha; [|done].
      by destruct Ha as (raw & _ & _ & _ & _ & ? & _).
    + intros t data Hin.
      destruct (Hlog _ _ Hin) as (u & (raw & _ & _ & _ & _ & ? & _) & ->).
      by exists u.
Qed.

(** A space, a tab and a newline. *)
Lemma empty_post_ignored_witness :
  let σ := run (start noon) [Accept (postRequest (" " +:+ tab +:+ nl)) true 0] in
  let σ1 := run σ (replicate 5 (Run 0)) in
  app σ1 = app σ ∧ heap σ1 = heap σ ∧ log σ1 = log σ ++ [(0, EvRedirect 302)].
Proof.
  intros σ σ1.
  apply (proj1 empty_post_ignored σ 0
           {| req := postRequest (" " +:+ tab +:+ nl);
              rw := newWriter true 0; at_pc := Handler |});
    reflexivity.
Defined.

(** C9.  The length is checked on the raw field, before it is escaped: the
    field of [maxMsgLen] (1024) bytes [<] is accepted, and the message
    stored for it is [&lt;] 1024 times, 4096 bytes, more than
    [maxMsgLen]. *)
Theorem length_checked_before_escaping :
  let raw := repeat "<" maxMsgLen in
  let stored := TrimSpace (HTMLEscapeString raw) in
  len raw = maxMsgLen
  ∧ len stored = 4 * maxMsgLen
  ∧ maxMsgLen < len stored
  ∧ ∀ now,
      history
        (app (run (start now)
                (Accept (postRequest raw) true 0 :: replicate 5 (Run 0))))
      = [{| timestamp := Time.Format now stampLayout; message := stored |}].
Proof.
  intros raw stored.
  assert (Hraw : len raw = maxMsgLen) by (vm_compute; reflexivity).
  assert (Hstored : len stored = 4 * maxMsgLen) by (vm_compute; reflexivity).
  split_and!; [done|done|rewrite Hstored; unfold maxMsgLen; lia|].
  intros now. rewrite run_cons.
  set (th := {| req := postRequest raw; rw := newWriter true 0;
                at_pc := Handler |}).
  rewrite (post_alone _ 0 th); [|done..].
  destruct (postHandler_accepted now (postRequest raw) (newWriter true 0)
              NewApp ∅) as [Hpost _].
  - change (Get (PostForm (postRequest raw)) "msg") with raw. lia.
  - change (Get (PostForm (postRequest raw)) "msg") with raw.
    fold stored. rewrite Hstored. unfold maxMsgLen. lia.
  - simpl in Hpost |- *. unfold th. simpl. rewrite Hpost. done.
Qed.

(** ** The dispatch *)

Lemma steps_Returned n now th a h :
  at_pc th = Returned → steps n now th a h = (th, a, h, []).
Proof.
  intros Hpc. induction n as [|n IH]; [done|].
  simpl. unfold thread_step. by rewrite Hpc, IH.
Qed.

Lemma steps_other_method n now th a h :
  at_pc th = Handler →
  Method (req th) ≠ "GET" →
  Method (req th) ≠ "POST" →
  steps (S n) now th a h = (goto th (rw th) Returned, a, h, []).
Proof.
  intros Hpc Hget%String.eqb_neq Hpost%String.eqb_neq.
  cbn [steps]. unfold thread_step at 1. rewrite Hpc, Hget, Hpost.
  by rewrite steps_Returned.
Qed.

(** C10.  A request whose method is neither GET nor POST: [handler] returns
    at its first step.  Nothing is written to the response, and the App (the
    registry and the chat log), the channels and the log of the run are
    untouched, however often the goroutine is scheduled. *)
Theorem other_methods_do_nothing σ t th n :
  threads σ !! t = Some th →
  at_pc th = Handler →
  Method (req th) ≠ "GET" →
  Method (req th) ≠ "POST" →
  let σ1 := run σ (replicate (S n) (Run t)) in
  app σ1 = app σ
  ∧ heap σ1 = heap σ
  ∧ log σ1 = log σ
  ∧ threads σ1
    = <[t := {| req := req th; rw := rw th; at_pc := Returned |}]> (threads σ).
Proof.
  intros Ht Hpc Hget Hpost σ1. subst σ1.
  rewrite (run_alone _ _ _ _ Ht), (steps_other_method _ _ _ _ _ Hpc Hget Hpost).
  simpl. by rewrite app_nil_r.
Qed.

(** A PUT arriving while a GET connection is live. *)
Lemma other_methods_do_nothing_witness :
  let σ := run (start noon)
             ([Accept getRequest true 9] ++ replicate 9 (Run 0)
              ++ [Accept putRequest true 9]) in
  let σ1 := run σ (replicate 3 (Run 1)) in
  app σ1 = app σ ∧ heap σ1 = heap σ ∧ log σ1 = log σ
  ∧ body <$> (rw <$> threads σ1) = body <$> (rw <$> threads σ).
Proof.
  intros σ σ1.
  pose proof (other_methods_do_nothing σ 1
                {| req := putRequest; rw := newWriter true 9;
                   at_pc := Handler |} 2 eq_refl eq_refl) as H.
  destruct H as (Ha & Hh & Hl & Hth).
  - vm_compute. discriminate.
  - vm_compute. discriminate.
  - split_and!; [exact Ha|exact Hh|exact Hl|].
    fold σ1 in Hth. rewrite Hth. reflexivity.
Defined.

(** ** The fragments *)

(** C6, as the code has it.  The payload [send] offers to the channels is
    exactly [<div class="new"><p>message</p><time>timestamp</time></div>],
    and the payload [sendHistory] writes for an update of the chat log is the
    same without the attribute [class="new"].  The timestamp is the reading
    of the clock in the format YYYY-MM-DD HH:MM:SS, nineteen bytes: the
    layout of the source names no zone, and no suffix UTC is written.  So it
    is in every run of the server whose clock shows real dates, for every
    update sent; and [sendHistory] writes one such payload for each update of
    the chat log, oldest first, as long as the peer is there. *)
Theorem fragments_exact :
  (∀ update,
     newData update
     = "<div class=" +:+ dquote +:+ "new" +:+ dquote +:+ "><p>"
       +:+ message update +:+ "</p><time>" +:+ timestamp update
       +:+ "</time></div>"
     ∧ historyData update
       = "<div><p>" +:+ message update +:+ "</p><time>" +:+ timestamp update
         +:+ "</time></div>")
  ∧ (∀ now,
       Time.valid now →
       hasShape stampShape (Time.Format now stampLayout) = true
       ∧ len (Time.Format now stampLayout) = 19)
  ∧ (∀ now schedule t data,
       Time.valid now →
       Forall (reads Time.valid) schedule →
       (t, EvSend data) ∈ log (run (start now) schedule) →
       ∃ update,
         data = newData update
         ∧ hasShape stampShape (timestamp update) = true)
  ∧ (∀ w a,
       length (history a) ≤ credit w →
       (sendHistory w a).2 = false
       ∧ body (sendHistory w a).1 = body w ++ (historyData <$> history a)).
Proof.
  split_and!.
  - intros update. split; [apply newData_exact|apply historyData_exact].
  - intros now Hnow. pose proof (Format_shape now Hnow) as H.
    split; [done|]. by apply hasShape_len in H.
  - intros now schedule t data Hnow Hs Hin.
    destruct (reachable_sound Time.valid now schedule Hnow Hs)
      as (_ & _ & _ & _ & Hlog).
    destruct (Hlog _ _ Hin) as (u & (raw & now1 & Hv & _ & _ & _ & Hts) & ->).
    exists u. split; [done|]. rewrite Hts. by apply Format_shape.
  - apply sendHistory_writes.
Qed.

(** The clock at noon. *)
Lemma fragments_exact_witness :
  hasShape stampShape (Time.Format noon stampLayout) = true
  ∧ len (Time.Format noon stampLayout) = 19.
Proof.
  apply (proj1 (proj2 fragments_exact) noon).
  unfold Time.valid. simpl. lia.
Defined.

(** C6, as it is stated, fails: the fragment sent for the post of [hi] at
    noon carries the timestamp [2026-10-30 12:00:00], with no suffix UTC. *)
Lemma fragment_without_UTC :
  let σ := run (start noon)
             (Accept (postRequest "hi") true 0 :: replicate 5 (Run 0)) in
  let update := {| timestamp := "2026-10-30 12:00:00"; message := "hi" |} in
  history (app σ) = [update]
  ∧ log σ
    = [(0, EvAppend update); (0, EvSend (newData update));
       (0, EvRedirect 302)]
  ∧ ¬ newFragmentUTC update (newData update).
Proof.
  intros σ update. split_and!; [reflexivity|reflexivity|].
  intros (stamp & Hshape%hasShape_len & Heq).
  apply (f_equal len) in Heq. rewrite !len_app in Heq.
  rewrite Hshape in Heq. vm_compute in Heq. discriminate.
Qed.

(** ** Every goroutine follows the life of a connection *)

Section Traces.

Implicit Types (es : list event) (p q : phase) (e : event).

Lemma trace_app p es1 es2 :
  trace p (es1 ++ es2) = trace p es1 ≫= λ q, trace q es2.
Proof.
  revert p. induction es1 as [|e es1 IH]; intros p; simpl; [done|].
  destruct (next p e); [apply IH|done].
Qed.

Lemma events_of_app t l1 l2 :
  events_of t (l1 ++ l2) = events_of t l1 ++ events_of t l2.
Proof. unfold events_of. by rewrite filter_app, fmap_app. Qed.

Lemma events_of_cons t t' e l :
  events_of t ((t', e) :: l)
  = if decide (t' = t) then e :: events_of t l else events_of t l.
Proof.
  unfold events_of. case_decide.
  - by rewrite filter_cons_True by done.
  - by rewrite filter_cons_False by done.
Qed.

Lemma events_of_tag t evs : events_of t (tag t evs) = evs.
Proof.
  induction evs as [|e evs IH]; [done|].
  change (tag t (e :: evs)) with ((t, e) :: tag t evs).
  by rewrite events_of_cons, decide_True, IH.
Qed.

Lemma events_of_tag_ne t t' evs : t ≠ t' → events_of t (tag t' evs) = [].
Proof.
  intros Hne. induction evs as [|e evs IH]; [done|].
  change (tag t' (e :: evs)) with ((t', e) :: tag t' evs).
  by rewrite events_of_cons, decide_False.
Qed.

Lemma events_of_fresh t l :
  (∀ t' e, (t', e) ∈ l → t' < t) → events_of t l = [].
Proof.
  intros H. induction l as [|[t' e] l IH]; [done|].
  rewrite events_of_cons, decide_False.
  - apply IH. intros t1 e1 Hin. apply (H t1 e1). by right.
  - intros ->. specialize (H t e ltac:(left)). lia.
Qed.

Lemma thread_step_traced now th a h th1 a1 h1 evs ph :
  thread_step now th a h = (th1, a1, h1, evs) →
  agrees (at_pc th) ph →
  ∃ ph1, trace ph evs = Some ph1 ∧ agrees (at_pc th1) ph1.
Proof.
  intros Hstep Hag. unfold thread_step in Hstep.
  destruct (at_pc th) as [| | | | | | | | | |k|data k| | | | |] eqn:Hat;
    try destruct k.
  all: step_cases Hstep; simplify_eq.
  all: destruct ph; simpl in Hag; try done; destruct_and?; simplify_eq.
  all: cbn [trace next at_pc goto resume]; rewrite ?decide_True by done.
  all: try (eexists; split; [done|]; by simpl).
  all: try (eexists; split; [done|]; by rewrite Hat).
Qed.

Lemma exec_traced σ x : traced σ → traced (exec σ x).
Proof.
  intros [Hlog Hth]. destruct x as [r canFlush writes|t|now]; [| |done].
  - split; simpl.
    + intros t e Hin. rewrite length_app. simpl. specialize (Hlog t e Hin). lia.
    + intros t th [[_ Hl]|[-> <-]]%lookup_snoc_Some; [by apply Hth|].
      exists Opening. rewrite events_of_fresh; [done|]. apply Hlog.
  - simpl. destruct (threads σ !! t) as [th|] eqn:Ht; [|done].
    destruct (thread_step _ _ _ _) as [[[th1 a1] h1] evs] eqn:Hstep.
    destruct (Hth t th Ht) as (ph & Htr & Hag).
    destruct (thread_step_traced _ _ _ _ _ _ _ _ _ Hstep Hag)
      as (ph1 & Htr1 & Hag1).
    split; simpl.
    + intros t' e. rewrite length_insert.
      intros [Hin|Hin]%elem_of_app; [by apply (Hlog t' e)|].
      apply list_elem_of_fmap in Hin as (e' & [= -> ->] & _).
      by eapply lookup_lt_Some.
    + intros t' th'. rewrite list_lookup_insert, events_of_app.
      case_decide as E.
      * destruct E as [-> _]. intros [= <-]. exists ph1.
        rewrite events_of_tag, trace_app, Htr. done.
      * intros Hl. rewrite events_of_tag_ne, app_nil_r; [by apply Hth|].
        intros ->. apply E. split; [done|]. by eapply lookup_lt_Some.
Qed.

Lemma reachable_traced now schedule : traced (run (start now) schedule).
Proof.
  apply (run_invariant traced (λ _, True)).
  - split; simpl; [|done]. intros t e Hin. by apply not_elem_of_nil in Hin.
  - apply Forall_forall. done.
  - intros σ x H _. by apply exec_traced.
Qed.

End Traces.

Section Sequence.

Implicit Types (es : list event) (p q : phase) (e : event).

Lemma next_stage p e q :
  next p e = Some q →
  match place e with
  | Some k => k = stage p ∧ stage q = S k
  | None => stage q = 4
  end.
Proof.
  destruct p, e; simpl; intros H; repeat case_decide; simplify_eq; try done.
  all: by destruct err.
Qed.

Lemma place_bound e k : place e = Some k → k < 4.
Proof. destruct e; simpl; intros; simplify_eq; lia. Qed.

Lemma trace_place p es q i e k :
  trace p es = Some q → es !! i = Some e → place e = Some k →
  k = stage p + i.
Proof.
  revert p i. induction es as [|e0 es IH]; intros p i Htr Hi Hk; [done|].
  simpl in Htr. destruct (next p e0) as [p'|] eqn:Hn; [|done].
  apply next_stage in Hn. destruct i as [|i]; simpl in Hi.
  - simplify_eq. rewrite Hk in Hn. lia.
  - specialize (IH p' i Htr Hi Hk). apply place_bound in Hk.
    destruct (place e0); lia.
Qed.

Lemma trace_head p es q e :
  trace p es = Some q → es !! 0 = Some e → is_Some (next p e).
Proof.
  destruct es as [|e0 es]; simpl; [done|]. intros Htr [= ->].
  by destruct (next p e).
Qed.

Lemma next_connected p e q :
  next p e = Some q → connected p = true → connected q = true.
Proof.
  destruct p, e; simpl; intros H; repeat case_decide; simplify_eq; try done.
  all: by destruct err.
Qed.

Lemma trace_connected p es q :
  trace p es = Some q → connected p = true → connected q = true.
Proof.
  revert p. induction es as [|e es IH]; intros p; simpl; [by intros [= ->]|].
  destruct (next p e) as [p'|] eqn:Hn; [|done].
  intros Htr Hp. eapply IH; [done|]. by eapply next_connected.
Qed.

Lemma trace_snoc p es e :
  trace p (es ++ [e]) = trace p es ≫= λ q, next q e.
Proof.
  rewrite trace_app. destruct (trace p es) as [q|]; simpl; [|done].
  by destruct (next q e).
Qed.

(** A connection is closed by its last three events. *)
Lemma trace_closed p es ch :
  trace p es = Some (Closed ch) →
  p = Closed ch ∧ es = []
  ∨ (∃ n, p = LeftCounting ch n ∧ es = [EvCount (countFragment n)])
  ∨ (∃ n, p = Left ch
          ∧ es = [EvLen n; EvCount (countFragment n)])
  ∨ (∃ es0 n,
       es = es0 ++ [EvLeave ch; EvLen n; EvCount (countFragment n)]).
Proof.
  intros Htr.
  destruct es as [|e3 es _] using rev_ind; [left; by simplify_eq/=|].
  right. rewrite trace_snoc in Htr.
  destruct (trace p es) as [q3|] eqn:H3; simpl in Htr; [|done].
  destruct q3, e3; simpl in Htr; repeat case_decide; simplify_eq;
    try by destruct err.
  destruct es as [|e2 es _] using rev_ind; [left; exists n; by simplify_eq/=|].
  right. rewrite trace_snoc in H3.
  destruct (trace p es) as [q2|] eqn:H2; simpl in H3; [|done].
  destruct q2, e2; simpl in H3; repeat case_decide; simplify_eq;
    try by destruct err.
  destruct es as [|e1 es _] using rev_ind; [left; exists n; by simplify_eq/=|].
  right. rewrite trace_snoc in H2.
  destruct (trace p es) as [q1|] eqn:H1; simpl in H2; [|done].
  destruct q1, e1; simpl in H2; repeat case_decide; simplify_eq;
    try by destruct err.
  exists es, n. by rewrite <- !app_assoc.
Qed.

Ltac peel Htr es :=
  destruct es as [|[] es]; simpl in Htr; repeat case_decide; simplify_eq;
  try done.

(** The first seven events of a goroutine that made a channel. *)
Lemma opening_sequence es q ch :
  trace Opening es = Some q →
  es !! 0 = Some (EvMake ch) →
  (∀ e, es !! 1 = Some e → e = EvJoin ch)
  ∧ (∀ e, es !! 2 = Some e → ∃ err, e = EvHead err)
  ∧ (∀ e, es !! 3 = Some e → ∃ err, e = EvHistory err)
  ∧ (∀ e, es !! 4 = Some e →
       es !! 3 = Some (EvHistory false) ∧ e = EvFlush
       ∨ es !! 3 = Some (EvHistory true) ∧ e = EvLeave ch)
  ∧ (∀ e, es !! 5 = Some e → ∃ n, e = EvLen n)
  ∧ (∀ n e, es !! 5 = Some (EvLen n) → es !! 6 = Some e →
       e = EvCount (countFragment n)).
Proof.
  intros Htr H0. destruct es as [|e0 es]; simplify_eq/=.
  do 6 (peel Htr es; try solve [split_and!; intros; simplify_eq/=; eauto];
        try match goal with err : bool |- _ => destruct err end).
  all: split_and!; intros; simplify_eq/=; eauto.
Qed.

End Sequence.

(** ** The connection handler *)

Lemma reachable_trace now schedule t :
  ∃ ph, trace Opening (events_of t (log (run (start now) schedule))) = Some ph.
Proof.
  destruct (reachable_traced now schedule) as [Hlog Hth].
  destruct (threads (run (start now) schedule) !! t) as [th|] eqn:Ht.
  - destruct (Hth t th Ht) as (ph & Htr & _). by exists ph.
  - exists Opening. rewrite events_of_fresh; [done|].
    intros t' e Hin. apply Hlog in Hin. apply lookup_ge_None in Ht. lia.
Qed.

(** C3, as the code has it.  A goroutine that makes a channel does so as
    its first step, and its next steps are, in this order: the channel is
    registered ([addChan]); the page head is written; the chat log is
    written ([sendHistory]); then, when that write succeeded, the flush and
    the count update (the length is read, the payload is sent), and when it
    failed, the channel is removed at once.  A goroutine registers a channel
    at no other place than the second, and writes the page head and the chat
    log at no other places than the third and the fourth: in every run of
    the server the channel is in the registry before the replay is
    written. *)
Theorem getHandler_joins_before_replay now schedule t ch :
  let es := events_of t (log (run (start now) schedule)) in
  es !! 0 = Some (EvMake ch) →
  (∀ e, es !! 1 = Some e → e = EvJoin ch)
  ∧ (∀ e, es !! 2 = Some e → ∃ err, e = EvHead err)
  ∧ (∀ e, es !! 3 = Some e → ∃ err, e = EvHistory err)
  ∧ (∀ e, es !! 4 = Some e →
       es !! 3 = Some (EvHistory false) ∧ e = EvFlush
       ∨ es !! 3 = Some (EvHistory true) ∧ e = EvLeave ch)
  ∧ (∀ e, es !! 5 = Some e → ∃ n, e = EvLen n)
  ∧ (∀ n e, es !! 5 = Some (EvLen n) → es !! 6 = Some e →
       e = EvCount (countFragment n))
  ∧ (∀ i e k, es !! i = Some e → place e = Some k → i = k).
Proof.
  intros es H0. destruct (reachable_trace now schedule t) as [ph Htr].
  fold es in Htr.
  destruct (opening_sequence es ph ch Htr H0) as (H1 & H2 & H3 & H4 & H5 & H6).
  split_and!; try done.
  intros i e k Hi Hk. by rewrite (trace_place _ _ _ _ _ _ Htr Hi Hk).
Qed.

(** The connection of [oneConnection]. *)
Lemma getHandler_joins_before_replay_witness :
  let es := events_of 1 (log (run (start noon) oneConnection)) in
  es !! 0 = Some (EvMake 0)
  ∧ (∀ e, es !! 1 = Some e → e = EvJoin 0)
  ∧ (∀ i e k, es !! i = Some e → place e = Some k → i = k).
Proof.
  intros es. split; [reflexivity|].
  destruct (getHandler_joins_before_replay noon oneConnection 1 0)
    as (H1 & _ & _ & _ & _ & _ & Hplace); [reflexivity|].
  split; [exact H1|exact Hplace].
Defined.

(** C3, as it is stated, fails: in this run the channel is registered
    (second event) before the page head (third) and the chat log (fourth)
    are written. *)
Lemma join_precedes_replay :
  let es := events_of 1 (log (run (start noon) oneConnection)) in
  take 4 es = [EvMake 0; EvJoin 0; EvHead false; EvHistory false]
  ∧ ¬ joins_after_replay es.
Proof.
  intros es. split; [reflexivity|].
  intros H. specialize (H 1 2 0 false eq_refl (or_introl eq_refl)). lia.
Qed.

Lemma next_chan p e q ch :
  next p e = Some q → chan_of p = Some ch → chan_of q = Some ch.
Proof.
  destruct p, e; simpl; intros H; repeat case_decide; simplify_eq; try done.
  all: by destruct err.
Qed.

Lemma trace_chan p es q ch :
  trace p es = Some q → chan_of p = Some ch → chan_of q = Some ch.
Proof.
  revert p. induction es as [|e es IH]; intros p; simpl; [by intros [= ->]|].
  destruct (next p e) as [p'|] eqn:Hn; [|done].
  intros Htr Hp. eapply IH; [done|]. by eapply next_chan.
Qed.

(** A goroutine that made a channel and has returned has closed it. *)
Lemma returned_closed es ph ch :
  trace Opening es = Some ph →
  agrees Returned ph →
  es !! 0 = Some (EvMake ch) →
  ∃ es0 n, es = es0 ++ [EvLeave ch; EvLen n; EvCount (countFragment n)].
Proof.
  intros Htr Hag H0. destruct es as [|e0 es']; simplify_eq/=.
  pose proof (trace_connected _ _ _ Htr eq_refl) as Hc.
  pose proof (trace_chan _ _ _ ch Htr eq_refl) as Hch.
  destruct ph; simpl in Hag; try done; simplify_eq/=.
  assert (Hfull : trace Opening (EvMake ch :: es') = Some (Closed ch)) by done.
  apply trace_closed in Hfull as [[? _]|[(n & ? & _)|[(n & ? & _)|H]]];
    simplify_eq. done.
Qed.

(** The phase before and after the event at a place. *)
Lemma trace_at p es q i e :
  trace p es = Some q → es !! i = Some e →
  ∃ p1 p2, trace p (take i es) = Some p1 ∧ next p1 e = Some p2
           ∧ trace p (take (S i) es) = Some p2.
Proof.
  intros Htr Hi. rewrite (take_S_r _ _ _ Hi), trace_snoc.
  rewrite <- (take_drop_middle _ _ _ Hi), trace_app in Htr.
  destruct (trace p (take i es)) as [p1|]; simpl in *; [|done].
  destruct (next p1 e) as [p2|] eqn:Hn; [|done]. exists p1, p2.
  by split_and!.
Qed.

(** The event before one that cannot come first. *)
Lemma trace_before es q i e :
  trace Opening es = Some q → es !! i = Some e → next Opening e = None →
  ∃ j e0 p1 p2 p3,
    i = S j ∧ es !! j = Some e0 ∧ trace Opening (take j es) = Some p1
    ∧ next p1 e0 = Some p2 ∧ next p2 e = Some p3.
Proof.
  intros Htr Hi Hn. destruct i as [|j].
  - destruct (trace_head _ _ _ _ Htr Hi) as [? ?]. congruence.
  - destruct (lookup_lt_is_Some_2 es j) as [e0 Hj];
      [apply lookup_lt_Some in Hi; lia|].
    destruct (trace_at _ _ _ _ _ Htr Hj) as (p1 & p2 & H1 & H2 & H3).
    destruct (trace_at _ _ _ _ _ Htr Hi) as (p2' & p3 & G1 & G2 & _).
    simplify_eq. eexists j, e0, p1, _, _. by split_and!.
Qed.

Ltac invert_next H :=
  match type of H with
  | next ?p ?e = Some _ =>
      destruct p; try (is_var e; destruct e); simpl in H;
      repeat case_decide; simplify_eq;
      try match goal with
        | H' : (if ?b then _ else _) = _ |- _ => destruct b; simplify_eq
        end
  end.

Lemma count_sequence es ph :
  trace Opening es = Some ph →
  (∀ i n, es !! i = Some (EvLen n) →
     ∃ j, i = S j
          ∧ (es !! j = Some EvFlush
             ∧ (∃ j', j = S j' ∧ es !! j' = Some (EvHistory false))
             ∨ ∃ ch, es !! j = Some (EvLeave ch)))
  ∧ (∀ i data, es !! i = Some (EvCount data) →
       ∃ j n, i = S j ∧ es !! j = Some (EvLen n) ∧ data = countFragment n)
  ∧ (∀ i ch e, es !! i = Some (EvLeave ch) → es !! S i = Some e →
       ∃ n, e = EvLen n)
  ∧ (∀ i n e, es !! i = Some (EvLen n) → es !! S i = Some e →
       e = EvCount (countFragment n))
  ∧ (∀ i ch e, es !! i = Some (EvJoin ch) → es !! S i = Some e →
       ∃ err, e = EvHead err).
Proof.
  intros Htr. split_and!.
  - intros i n Hi.
    destruct (trace_before _ _ _ _ Htr Hi eq_refl)
      as (j & e0 & p1 & p2 & p3 & -> & Hj & Hp1 & H1 & H2).
    exists j. split; [done|].
    destruct p2; simpl in H2; simplify_eq; invert_next H1.
    + left. split; [done|].
      destruct (trace_before _ _ _ _ Htr Hj eq_refl)
        as (j' & e1 & q1 & q2 & q3 & -> & Hj' & Hq1 & G1 & G2).
      destruct (trace_at _ _ _ _ _ Htr Hj') as (r1 & r2 & R1 & R2 & R3).
      simplify_eq. exists j'. split; [done|]. invert_next G1. done.
    + right. by eexists.
  - intros i data Hi.
    destruct (trace_before _ _ _ _ Htr Hi eq_refl)
      as (j & e0 & p1 & p2 & p3 & -> & Hj & Hp1 & H1 & H2).
    destruct p2; simpl in H2; repeat case_decide; simplify_eq;
      invert_next H1; by exists j, n.
  - intros i ch e Hi Hi'.
    destruct (trace_at _ _ _ _ _ Htr Hi) as (p1 & p2 & _ & H1 & H3).
    destruct (trace_at _ _ _ _ _ Htr Hi') as (p2' & p3 & G1 & G2 & _).
    simplify_eq. invert_next H1. destruct e; simpl in G2; simplify_eq.
    by eexists.
  - intros i n e Hi Hi'.
    destruct (trace_at _ _ _ _ _ Htr Hi) as (p1 & p2 & _ & H1 & H3).
    destruct (trace_at _ _ _ _ _ Htr Hi') as (p2' & p3 & G1 & G2 & _).
    simplify_eq. invert_next H1;
      destruct e; simpl in G2; repeat case_decide; simplify_eq; done.
  - intros i ch e Hi Hi'.
    destruct (trace_at _ _ _ _ _ Htr Hi) as (p1 & p2 & _ & H1 & H3).
    destruct (trace_at _ _ _ _ _ Htr Hi') as (p2' & p3 & G1 & G2 & _).
    simplify_eq. invert_next H1. destruct e; simpl in G2; simplify_eq.
    by eexists.
Qed.

Lemma count_steps now th a h k :
  at_pc th = CountLen k →
  steps 2 now th a h
  = (goto th (rw th) (resume k), a, sendCount a h,
     [EvLen (size (chans a)); EvCount (countData a)]).
Proof.
  intros Hpc. cbn [steps]. unfold thread_step at 1. rewrite Hpc.
  unfold thread_step. by cbn [at_pc goto].
Qed.

(** With no step of another goroutine in between, the two steps of
    [sendCount] are the function of the source. *)
Lemma count_alone σ t th k :
  threads σ !! t = Some th →
  at_pc th = CountLen k →
  let σ2 := run σ [Run t; Run t] in
  app σ2 = app σ
  ∧ heap σ2 = sendCount (app σ) (heap σ)
  ∧ log σ2
    = log σ ++ [(t, EvLen (size (chans (app σ))));
                (t, EvCount (countFragment (size (chans (app σ)))))].
Proof.
  intros Ht Hpc σ2. subst σ2.
  change [Run t; Run t] with (replicate 2 (Run t)).
  by rewrite (run_alone 2 _ _ _ Ht), (count_steps _ _ _ _ _ Hpc).
Qed.

(** ** The registry in a run *)

Section Registry.

Implicit Types (σ : World) (t : nat) (ch : chan).

Lemma joined_holds p ch : joined p = Some ch → holds p = Some ch.
Proof. by destruct p. Qed.

Lemma member_holder σ t ch : member σ t = Some ch → holder σ t = Some ch.
Proof.
  unfold member, holder. destruct (threads σ !! t) as [th|]; [|done].
  apply joined_holds.
Qed.

Lemma dom_broadcast data a (h : gmap chan Chan) :
  dom (broadcast data a h) = dom h.
Proof.
  apply set_eq. intros ch. rewrite !elem_of_dom, broadcast_lookup.
  destruct (decide (ch ∈ chans a)); [|done].
  destruct (h !! ch); simpl; split; intros [? ?]; by eauto.
Qed.

(** What a step does to the channel of its goroutine and to the registry. *)
Lemma thread_step_registry now th a h th1 a1 h1 evs :
  thread_step now th a h = (th1, a1, h1, evs) →
  dom h ⊆ dom h1
  ∧ (at_pc th = GetMake ∧ at_pc th1 = GetAdd (fresh (dom h)) ∧ a1 = a
     ∧ fresh (dom h) ∈ dom h1
     ∨ (∃ ch, at_pc th = GetAdd ch ∧ at_pc th1 = GetHead ch
              ∧ a1 = addChan ch a)
     ∨ (∃ ch, at_pc th = GetDeferred ch ∧ holds (at_pc th1) = None
              ∧ a1 = removeChan ch a)
     ∨ (holds (at_pc th1) = holds (at_pc th)
        ∧ joined (at_pc th1) = joined (at_pc th)
        ∧ chans a1 = chans a)).
Proof.
  intros Hstep. unfold thread_step in Hstep.
  destruct (at_pc th) as [| | | | | | | | | |k|data k| | | | |] eqn:Hat;
    try destruct k.
  all: step_cases Hstep; simplify_eq; cbn [at_pc goto resume holds joined].
  all: rewrite ?dom_broadcast, ?dom_insert_L.
  all: split; [set_solver|].
  all: try (right; right; right; by rewrite ?Hat).
  - left. split_and!; try done. set_solver.
  - right; left. by eexists.
  - right; right; left. by eexists.
Qed.

Lemma holder_insert σ t th1 t' :
  is_Some (threads σ !! t) →
  (<[t:=th1]> (threads σ) !! t') ≫= (λ th, holds (at_pc th))
  = if decide (t' = t) then holds (at_pc th1) else holder σ t'.
Proof.
  intros Hsome. unfold holder. case_decide as Heq.
  - subst. rewrite list_lookup_insert_eq; [done|].
    by apply lookup_lt_is_Some.
  - by rewrite list_lookup_insert_ne.
Qed.

Lemma member_insert σ t th1 t' :
  is_Some (threads σ !! t) →
  (<[t:=th1]> (threads σ) !! t') ≫= (λ th, joined (at_pc th))
  = if decide (t' = t) then joined (at_pc th1) else member σ t'.
Proof.
  intros Hsome. unfold member. case_decide as Heq.
  - subst. rewrite list_lookup_insert_eq; [done|].
    by apply lookup_lt_is_Some.
  - by rewrite list_lookup_insert_ne.
Qed.

Lemma exec_registered σ x : registered σ → registered (exec σ x).
Proof.
  intros (Hreg & Hdom & Hinj). destruct x as [r w wr|t|now].
  - assert (Hh : ∀ t, holder (exec σ (Accept r w wr)) t = holder σ t).
    { intros t. unfold holder. simpl.
      destruct (decide (t < length (threads σ))) as [Hlt|Hge].
      - by rewrite lookup_app_l.
      - rewrite lookup_app_r by lia. rewrite (lookup_ge_None_2 (threads σ)) by lia.
        by destruct (t - length (threads σ)) as [|n]. }
    assert (Hm : ∀ t, member (exec σ (Accept r w wr)) t = member σ t).
    { intros t. unfold member. simpl.
      destruct (decide (t < length (threads σ))) as [Hlt|Hge].
      - by rewrite lookup_app_l.
      - rewrite lookup_app_r by lia. rewrite (lookup_ge_None_2 (threads σ)) by lia.
        by destruct (t - length (threads σ)) as [|n]. }
    split_and!.
    + intros ch. setoid_rewrite Hm. apply Hreg.
    + intros t ch. rewrite Hh. apply Hdom.
    + intros t1 t2 ch. rewrite !Hh. apply Hinj.
  - destruct (threads σ !! t) as [th|] eqn:Hth.
    2: { unfold exec. by rewrite Hth. }
    destruct (thread_step (clock σ) th (app σ) (heap σ))
      as [[[th1 a1] h1] evs] eqn:Hstep.
    rewrite (exec_Run _ _ _ Hth), Hstep.
    assert (Hh : ∀ t', holder
      {| app := a1; heap := h1; clock := clock σ;
         threads := <[t:=th1]> (threads σ);
         log := log σ ++ tag t evs |} t'
      = if decide (t' = t) then holds (at_pc th1) else holder σ t').
    { intros t'. apply holder_insert. by rewrite Hth. }
    assert (Hm : ∀ t', member
      {| app := a1; heap := h1; clock := clock σ;
         threads := <[t:=th1]> (threads σ);
         log := log σ ++ tag t evs |} t'
      = if decide (t' = t) then joined (at_pc th1) else member σ t').
    { intros t'. apply member_insert. by rewrite Hth. }
    assert (Hht : holder σ t = holds (at_pc th)).
    { unfold holder. by rewrite Hth. }
    assert (Hmt : member σ t = joined (at_pc th)).
    { unfold member. by rewrite Hth. }
    apply thread_step_registry in Hstep
      as (Hsub & [(Hat & Hat1 & -> & Hfresh)
                 |[(ch & Hat & Hat1 & ->)
                 |[(ch & Hat & Hat1 & ->)|(Hho & Hjo & Hch)]]]).
    + rewrite Hat in Hht, Hmt. rewrite Hat1 in Hh, Hm. simpl in *.
      split_and!.
      * intros ch. cbn [app]. rewrite Hreg. split; intros [t' Ht']; exists t'.
        -- rewrite Hm. case_decide; [congruence|done].
        -- rewrite Hm in Ht'. case_decide; [done|done].
      * intros t' ch. rewrite Hh. cbn [heap]. case_decide.
        -- intros [= <-]. done.
        -- intros H'. apply Hsub. by eapply Hdom.
      * intros t1 t2 ch. rewrite !Hh.
        repeat case_decide; subst; try done.
        -- intros [= <-] H2. apply Hdom in H2. by apply is_fresh in H2.
        -- intros H1 [= <-]. apply Hdom in H1. by apply is_fresh in H1.
        -- apply Hinj.
    + rewrite Hat in Hht, Hmt. rewrite Hat1 in Hh, Hm. simpl in *.
      split_and!.
      * intros ch'. cbn [app]. unfold addChan; cbn [chans].
        rewrite elem_of_union, elem_of_singleton, Hreg.
        split.
        -- intros [->|[t' Ht']].
           ++ exists t. rewrite Hm. by rewrite decide_True.
           ++ exists t'. rewrite Hm. case_decide; [congruence|done].
        -- intros [t' Ht']. rewrite Hm in Ht'. case_decide.
           ++ left. congruence.
           ++ right. by exists t'.
      * intros t' ch'. rewrite Hh. cbn [heap]. case_decide.
        -- subst. intros [= <-]. apply Hsub. by eapply Hdom.
        -- intros H'. apply Hsub. by eapply Hdom.
      * intros t1 t2 ch'. rewrite !Hh.
        repeat case_decide; subst; try done.
        -- intros [= <-] H2. by eapply Hinj.
        -- intros H1 [= <-]. by eapply Hinj.
        -- apply Hinj.
    + rewrite Hat in Hht, Hmt. simpl in *.
      assert (Hj1 : joined (at_pc th1) = None).
      { destruct (joined (at_pc th1)) eqn:E; [|done].
        apply joined_holds in E. congruence. }
      split_and!.
      * intros ch'. cbn [app]. unfold removeChan; cbn [chans].
        rewrite elem_of_difference, elem_of_singleton, Hreg.
        split.
        -- intros [[t' Ht'] Hne]. exists t'. rewrite Hm.
           case_decide; [congruence|done].
        -- intros [t' Ht']. rewrite Hm in Ht'. case_decide; [congruence|].
           split; [by exists t'|]. intros ->.
           apply member_holder in Ht'. eauto.
      * intros t' ch'. rewrite Hh. cbn [heap]. case_decide.
        -- congruence.
        -- intros H'. apply Hsub. by eapply Hdom.
      * intros t1 t2 ch'. rewrite !Hh.
        repeat case_decide; subst; try congruence.
        apply Hinj.
    + assert (Hh' : ∀ t', holder
        {| app := a1; heap := h1; clock := clock σ;
           threads := <[t:=th1]> (threads σ);
           log := log σ ++ tag t evs |} t' = holder σ t').
      { intros t'. rewrite Hh. case_decide; [subst; congruence|done]. }
      assert (Hm' : ∀ t', member
        {| app := a1; heap := h1; clock := clock σ;
           threads := <[t:=th1]> (threads σ);
           log := log σ ++ tag t evs |} t' = member σ t').
      { intros t'. rewrite Hm. case_decide; [subst; congruence|done]. }
      split_and!.
      * intros ch. cbn [app]. rewrite Hch. setoid_rewrite Hm'. apply Hreg.
      * intros t' ch. rewrite Hh'. cbn [heap]. intros H'.
        apply Hsub. by eapply Hdom.
      * intros t1 t2 ch. rewrite !Hh'. apply Hinj.
  - done.
Qed.

Lemma reachable_registered now schedule :
  registered (run (start now) schedule).
Proof.
  apply (run_invariant registered (λ _, True)).
  - split_and!.
    + intros ch. split; [set_solver|]. by intros [[|t] ?].
    + by intros [|t] ch.
    + by intros [|t1] t2 ch.
  - by apply Forall_true.
  - intros σ x Hσ _. by apply exec_registered.
Qed.

End Registry.

Section Lists.

Lemma NoDup_omap_lookup {A B} (f : A → option B) (l : list A) :
  (∀ i j x y b, l !! i = Some x → l !! j = Some y →
                f x = Some b → f y = Some b → i = j) →
  NoDup (omap f l).
Proof.
  induction l as [|x l IH]; intros Hinj; [constructor|].
  assert (Hl : NoDup (omap f l)).
  { apply IH. intros i j y z b Hi Hj Hy Hz.
    assert (S i = S j) by (by eapply Hinj). lia. }
  simpl. destruct (f x) as [b|] eqn:Hx; [|done].
  constructor; [|done].
  intros (y & Hy & Hfy)%list_elem_of_omap.
  apply list_elem_of_lookup in Hy as [j Hj].
  by assert (0 = S j) by (by eapply (Hinj 0 (S j) x y b)).
Qed.

Lemma elem_of_omap_lookup {A B} (f : A → option B) (l : list A) b :
  b ∈ omap f l ↔ ∃ i, l !! i ≫= f = Some b.
Proof.
  rewrite list_elem_of_omap. split.
  - intros (x & [i Hi]%list_elem_of_lookup & Hx). exists i. by rewrite Hi.
  - intros [i Hi]. destruct (l !! i) as [x|] eqn:Hx; [|done].
    exists x. split; [|done]. by eapply list_elem_of_lookup_2.
Qed.

End Lists.

(** ** The count is the number of open connections *)

Section Count.

Lemma trace_online es ph :
  trace Opening es = Some ph →
  existsb isJoin es = entered ph ∧ existsb isLeave es = gone ph.
Proof.
  revert ph. induction es as [|e es IH] using rev_ind; intros ph Htr.
  - by simplify_eq/=.
  - rewrite trace_snoc in Htr.
    destruct (trace Opening es) as [p1|]; [|done]. simpl in Htr.
    destruct (IH p1 eq_refl) as [Hj Hl].
    rewrite !existsb_app, Hj, Hl. simpl.
    destruct p1, e; simpl in Htr; repeat case_decide; simplify_eq;
      try done;
      match goal with
      | |- context [if ?b then _ else _] => by destruct b
      end.
Qed.

Lemma agrees_joined p ph :
  agrees p ph → is_Some (joined p) ↔ entered ph && negb (gone ph) = true.
Proof.
  destruct p as [| | | | | | | | | |k|data k| | | | |]; try destruct k;
    destruct ph; simpl; try done.
  all: intros _; split; try done; try (by intros [? ?]); by eauto.
Qed.

Lemma events_of_elem t l : events_of t l ≠ [] → t ∈ l.*1.
Proof.
  induction l as [|[t' e] l IH]; [done|].
  rewrite events_of_cons. simpl. case_decide as Heq.
  - subst. intros _. apply list_elem_of_here.
  - intros H. apply list_elem_of_further. by apply IH.
Qed.

Lemma elem_of_connections l t :
  t ∈ connections l ↔ online (events_of t l) = true.
Proof.
  unfold connections. rewrite elem_of_list_to_set, list_elem_of_filter.
  split; [by intros [? _]|]. intros Hon. split; [done|].
  apply events_of_elem. intros Hnil. by rewrite Hnil in Hon.
Qed.

(** A goroutine is between its [addChan] and its [removeChan] exactly when
    it has logged a join and no leave. *)
Lemma online_member σ t :
  traced σ → online (events_of t (log σ)) = true ↔ is_Some (member σ t).
Proof.
  intros [Hlog Hth]. unfold member.
  destruct (threads σ !! t) as [th|] eqn:Ht; simpl.
  - destruct (Hth t th Ht) as (ph & Htr & Hag).
    destruct (trace_online _ _ Htr) as [Hj Hl].
    unfold online. rewrite Hj, Hl. symmetry. by apply agrees_joined.
  - rewrite events_of_fresh.
    + split; [done|]. by intros [? ?].
    + intros t' e Hin. apply Hlog in Hin. apply lookup_ge_None in Ht. lia.
Qed.

Lemma filter_ext_elem {A} (P Q : A → Prop) `{∀ x, Decision (P x)}
    `{∀ x, Decision (Q x)} (l : list A) :
  (∀ x, x ∈ l → P x ↔ Q x) → filter P l = filter Q l.
Proof.
  induction l as [|x l IH]; intros Hext; [done|].
  rewrite !filter_cons.
  rewrite IH by (intros y Hy; apply Hext; by apply list_elem_of_further).
  pose proof (Hext x (list_elem_of_here _ _)) as Hx.
  destruct (decide (P x)), (decide (Q x)); tauto.
Qed.

Lemma length_omap_filter {A B} (f : A → option B) (l : list A) :
  length (omap f l)
  = length (filter (λ i, is_Some (l !! i ≫= f)) (seq 0 (length l))).
Proof.
  induction l as [|x l IH] using rev_ind; [done|].
  rewrite omap_app, !length_app. simpl length.
  rewrite Nat.add_1_r, seq_S, filter_app, length_app, IH. simpl.
  f_equal.
  - f_equal. apply filter_ext_elem. intros i [_ Hi]%elem_of_seq.
    by rewrite lookup_app_l by lia.
  - rewrite filter_cons, filter_nil.
    rewrite lookup_app_r, Nat.sub_diag by lia. simpl.
    by destruct (f x) as [b|].
Qed.

(** The registry as a list: the channels of the goroutines that are
    between their [addChan] and their [removeChan], none twice. *)
Lemma registered_list σ :
  registered σ →
  chans (app σ) = list_to_set (omap (λ th, joined (at_pc th)) (threads σ))
  ∧ NoDup (omap (λ th, joined (at_pc th)) (threads σ)).
Proof.
  intros (Hreg & Hdom & Hinj). split.
  - apply set_eq. intros ch.
    rewrite elem_of_list_to_set, elem_of_omap_lookup. apply Hreg.
  - apply NoDup_omap_lookup. intros i j x y b Hi Hj Hx Hy.
    apply (Hinj i j b); unfold holder.
    + rewrite Hi. by apply joined_holds.
    + rewrite Hj. by apply joined_holds.
Qed.

Lemma connections_list σ :
  traced σ →
  connections (log σ)
  = list_to_set (filter (λ t, is_Some (member σ t))
                   (seq 0 (length (threads σ)))).
Proof.
  intros Htr. apply set_eq. intros t.
  rewrite elem_of_connections, (online_member _ _ Htr).
  rewrite elem_of_list_to_set, list_elem_of_filter, elem_of_seq.
  split; [|by intros [? _]]. intros Hm. split; [done|].
  split; [lia|]. simpl. unfold member in Hm.
  destruct (threads σ !! t) as [th|] eqn:Ht.
  - by eapply lookup_lt_Some.
  - by destruct Hm.
Qed.

(** The size of the registry is the number of goroutines that have joined
    and not left. *)
Lemma size_chans_connections σ :
  registered σ → traced σ →
  size (chans (app σ)) = size (connections (log σ)).
Proof.
  intros Hreg Htr. destruct (registered_list σ Hreg) as [-> Hnd].
  rewrite (connections_list σ Htr).
  rewrite !size_list_to_set; [|by apply NoDup_filter, NoDup_seq|done].
  apply length_omap_filter.
Qed.

Lemma reachable_connections now schedule :
  let σ := run (start now) schedule in
  size (chans (app σ)) = size (connections (log σ)).
Proof.
  apply size_chans_connections;
    [apply reachable_registered|apply reachable_traced].
Qed.

(** Only the read of [sendCount] logs a length, and it logs the size of the
    registry. *)
Lemma thread_step_len now th a h th1 a1 h1 evs j n :
  thread_step now th a h = (th1, a1, h1, evs) →
  evs !! j = Some (EvLen n) →
  j = 0 ∧ n = size (chans a).
Proof.
  intros Hstep Hj. unfold thread_step in Hstep.
  destruct (at_pc th) eqn:Hat.
  all: step_cases Hstep; simplify_eq.
  all: destruct j as [|[|j]]; simplify_eq/=; done.
Qed.

Lemma reachable_count_read now schedule i t n :
  let σ := run (start now) schedule in
  log σ !! i = Some (t, EvLen n) →
  n = size (connections (take i (log σ))).
Proof.
  revert i t n. induction schedule as [|x s IH] using rev_ind;
    intros i t n σ Hi; [done|].
  subst σ. rewrite run_app, run_cons in Hi |- *. simpl run in Hi |- *.
  set (σ0 := run (start now) s) in *.
  destruct x as [r canFlush writes|t'|now'];
    [by apply (IH i t n)| |by apply (IH i t n)].
  destruct (threads σ0 !! t') as [th|] eqn:Hth.
  2: { unfold exec in Hi |- *. rewrite Hth in Hi |- *. by apply (IH i t n). }
  rewrite (exec_Run _ _ _ Hth) in Hi |- *.
  destruct (thread_step _ _ _ _) as [[[th1 a1] h1] evs] eqn:Hstep.
  cbn [log] in Hi |- *.
  destruct (decide (i < length (log σ0))) as [Hlt|Hge].
  - rewrite lookup_app_l in Hi by done.
    rewrite take_app_le by lia. by apply (IH i t n).
  - rewrite lookup_app_r in Hi by lia. unfold tag in Hi.
    rewrite list_lookup_fmap in Hi.
    destruct (evs !! (i - length (log σ0))) as [e|] eqn:He; [|done].
    simpl in Hi. injection Hi as <- ->.
    destruct (thread_step_len _ _ _ _ _ _ _ _ _ _ Hstep He) as [Hj ->].
    assert (i = length (log σ0)) as -> by lia.
    rewrite take_app_length. apply reachable_connections.
Qed.

(** ** The count is triggered *)

Lemma turns_split t s :
  1 ≤ turns t s →
  ∃ s1 s2, s = s1 ++ Run t :: s2 ∧ turns t s1 = 0
           ∧ turns t s = S (turns t s2).
Proof.
  induction s as [|x s IH]; simpl; [lia|].
  destruct x as [r canFlush writes|t'|now].
  - intros H. destruct (IH H) as (s1 & s2 & -> & H1 & H2).
    by exists (Accept r canFlush writes :: s1), s2.
  - case_decide as Heq.
    + subst. intros _. by exists [], s.
    + simpl. intros H. destruct (IH H) as (s1 & s2 & -> & H1 & H2).
      exists (Run t' :: s1), s2. simpl. by rewrite decide_False.
  - intros H. destruct (IH H) as (s1 & s2 & -> & H1 & H2).
    by exists (Tick now :: s1), s2.
Qed.

(** The steps of the others leave a goroutine and its events alone. *)
Lemma run_idle σ t th s :
  threads σ !! t = Some th → turns t s = 0 →
  threads (run σ s) !! t = Some th
  ∧ events_of t (log (run σ s)) = events_of t (log σ).
Proof.
  revert σ. induction s as [|x s IH]; intros σ Ht Hturns; [done|].
  rewrite run_cons. destruct x as [r canFlush writes|t'|now]; simpl in Hturns.
  - destruct (IH (exec σ (Accept r canFlush writes))) as [H1 H2];
      [|done|done]. simpl. by apply lookup_app_l_Some.
  - case_decide as Heq; [lia|].
    destruct (IH (exec σ (Run t'))) as [H1 H2]; [|done|].
    + simpl. destruct (threads σ !! t') as [th'|]; [|done].
      destruct (thread_step _ _ _ _) as [[[th1 a1] h1] evs]. simpl.
      by rewrite list_lookup_insert_ne.
    + split; [done|]. rewrite H2. simpl.
      destruct (threads σ !! t') as [th'|]; [|done].
      destruct (thread_step _ _ _ _) as [[[th1 a1] h1] evs]. simpl.
      rewrite events_of_app, events_of_tag_ne by done. by rewrite app_nil_r.
  - by destruct (IH (exec σ (Tick now))) as [H1 H2].
Qed.

(** The events of a goroutine are only added to. *)
Lemma run_extends σ t s :
  ∃ rest, events_of t (log (run σ s)) = events_of t (log σ) ++ rest.
Proof.
  revert σ. induction s as [|x s IH]; intros σ.
  - exists []. by rewrite app_nil_r.
  - rewrite run_cons. destruct (IH (exec σ x)) as [rest ->].
    destruct x as [r canFlush writes|t'|now]; simpl; [by exists rest| |by exists rest].
    destruct (threads σ !! t') as [th'|]; [|by exists rest].
    destruct (thread_step _ _ _ _) as [[[th1 a1] h1] evs]. simpl.
    rewrite events_of_app, <- app_assoc. by eexists.
Qed.

(** The next step of a goroutine in a schedule in which it has a turn. *)
Lemma own_step σ t th s :
  threads σ !! t = Some th → 1 ≤ turns t s →
  ∃ σ1 s2 th1 a1 h1 evs σ2,
    thread_step (clock σ1) th (app σ1) (heap σ1) = (th1, a1, h1, evs)
    ∧ run σ s = run σ2 s2
    ∧ threads σ2 !! t = Some th1
    ∧ events_of t (log σ2) = events_of t (log σ) ++ evs
    ∧ turns t s = S (turns t s2).
Proof.
  intros Ht Hturns.
  destruct (turns_split t s Hturns) as (s1 & s2 & -> & H1 & H2).
  destruct (run_idle σ t th s1 Ht H1) as [Ht1 Hev1].
  destruct (thread_step (clock (run σ s1)) th (app (run σ s1))
              (heap (run σ s1))) as [[[th1 a1] h1] evs] eqn:Hstep.
  exists (run σ s1), s2, th1, a1, h1, evs, (exec (run σ s1) (Run t)).
  split_and!; try done.
  - by rewrite run_app, run_cons.
  - rewrite (exec_Run _ _ _ Ht1), Hstep. simpl.
    apply list_lookup_insert_eq. by eapply lookup_lt_Some.
  - rewrite (exec_Run _ _ _ Ht1), Hstep. simpl.
    by rewrite events_of_app, events_of_tag, Hev1.
Qed.

(** A goroutine that has returned logs nothing more. *)
Lemma run_returned σ t th s :
  threads σ !! t = Some th → at_pc th = Returned →
  events_of t (log (run σ s)) = events_of t (log σ).
Proof.
  remember (turns t s) as k eqn:Hk. revert σ s Hk.
  induction k as [|k IH]; intros σ s Hk Ht Hpc.
  - by destruct (run_idle σ t th s Ht).
  - destruct (own_step σ t th s Ht) as
      (σ1 & s2 & th1 & a1 & h1 & evs & σ2 & Hstep & -> & Ht2 & Hev & Hturns);
      [lia|].
    unfold thread_step in Hstep. rewrite Hpc in Hstep. simplify_eq.
    rewrite (IH σ2 s2); [|lia|done|done]. by rewrite Hev, app_nil_r.
Qed.

(** After the flush that ends a replay the goroutine reads the count and
    sends it. *)
Lemma flush_then_count σ t th ch s :
  threads σ !! t = Some th → at_pc th = GetFlush ch → 3 ≤ turns t s →
  ∃ n rest,
    events_of t (log (run σ s))
    = events_of t (log σ)
      ++ EvFlush :: EvLen n :: EvCount (countFragment n) :: rest.
Proof.
  intros Ht Hpc Hturns.
  destruct (own_step σ t th s Ht) as
    (σ1 & s2 & th1 & a1 & h1 & evs & σ2 & Hstep & -> & Ht2 & Hev & Hturns2);
    [lia|].
  unfold thread_step in Hstep. rewrite Hpc in Hstep. simplify_eq.
  destruct (own_step σ2 t _ s2 Ht2) as
    (σ3 & s3 & th3 & a3 & h3 & evs3 & σ4 & Hstep3 & -> & Ht4 & Hev4 & Hturns4);
    [lia|].
  unfold thread_step in Hstep3. cbn [at_pc goto] in Hstep3. simplify_eq.
  destruct (own_step σ4 t _ s3 Ht4) as
    (σ5 & s5 & th5 & a5 & h5 & evs5 & σ6 & Hstep5 & -> & Ht6 & Hev6 & Hturns6);
    [lia|].
  unfold thread_step in Hstep5. cbn [at_pc goto] in Hstep5. simplify_eq.
  destruct (run_extends σ6 t s5) as [rest ->].
  exists (size (chans (app σ3))), rest.
  rewrite Hev6, Hev4, Hev, <- !app_assoc. done.
Qed.

(** After [removeChan] the goroutine reads the count, sends it and
    returns. *)
Lemma leave_then_count σ t th s :
  threads σ !! t = Some th → at_pc th = CountLen ThenReturn →
  2 ≤ turns t s →
  ∃ n,
    events_of t (log (run σ s))
    = events_of t (log σ) ++ [EvLen n; EvCount (countFragment n)].
Proof.
  intros Ht Hpc Hturns.
  destruct (own_step σ t th s Ht) as
    (σ1 & s2 & th1 & a1 & h1 & evs & σ2 & Hstep & -> & Ht2 & Hev & Hturns2);
    [lia|].
  unfold thread_step in Hstep. rewrite Hpc in Hstep. simplify_eq.
  destruct (own_step σ2 t _ s2 Ht2) as
    (σ3 & s3 & th3 & a3 & h3 & evs3 & σ4 & Hstep3 & -> & Ht4 & Hev4 & Hturns4);
    [lia|].
  unfold thread_step in Hstep3. cbn [at_pc goto] in Hstep3. simplify_eq.
  rewrite (run_returned σ4 t _ s3 Ht4) by done.
  exists (size (chans (app σ1))).
  rewrite Hev4, Hev, <- !app_assoc. done.
Qed.

(** The goroutine of a log that has events. *)
Lemma traced_thread σ t :
  traced σ → events_of t (log σ) ≠ [] →
  ∃ th ph, threads σ !! t = Some th
           ∧ trace Opening (events_of t (log σ)) = Some ph
           ∧ agrees (at_pc th) ph.
Proof.
  intros [Hlog Hth] Hne.
  destruct (threads σ !! t) as [th|] eqn:Ht.
  - destruct (Hth t th Ht) as (ph & ? & ?). by exists th, ph.
  - destruct Hne. apply events_of_fresh.
    intros t' e Hin. apply Hlog in Hin. apply lookup_ge_None in Ht. lia.
Qed.

(** Where a goroutine is, by its last event. *)
Lemma last_replayed σ t :
  traced σ → last (events_of t (log σ)) = Some (EvHistory false) →
  ∃ th ch, threads σ !! t = Some th ∧ at_pc th = GetFlush ch.
Proof.
  intros Htr Hlast.
  destruct (traced_thread σ t Htr) as (th & ph & Ht & Htrace & Hag).
  { intros Hnil. by rewrite Hnil in Hlast. }
  apply last_Some in Hlast as [es0 Hes]. rewrite Hes, trace_snoc in Htrace.
  destruct (trace Opening es0) as [p1|]; [|done]. simpl in Htrace.
  destruct p1; simpl in Htrace; simplify_eq.
  exists th, ch. split; [done|].
  destruct (at_pc th) as [| | | | | | | | | |k|data k| | | | |];
    try destruct k; simpl in Hag; try done. by subst.
Qed.

Lemma last_left σ t ch :
  traced σ → last (events_of t (log σ)) = Some (EvLeave ch) →
  ∃ th, threads σ !! t = Some th ∧ at_pc th = CountLen ThenReturn.
Proof.
  intros Htr Hlast.
  destruct (traced_thread σ t Htr) as (th & ph & Ht & Htrace & Hag).
  { intros Hnil. by rewrite Hnil in Hlast. }
  apply last_Some in Hlast as [es0 Hes]. rewrite Hes, trace_snoc in Htrace.
  destruct (trace Opening es0) as [p1|]; [|done]. simpl in Htrace.
  destruct p1; simpl in Htrace; repeat case_decide; simplify_eq.
  exists th. split; [done|].
  destruct (at_pc th) as [| | | | | | | | | |k|data k| | | | |];
    try destruct k; simpl in Hag; try done.
Qed.

End Count.

(** The events that follow a replay written without error. *)
Lemma replay_sequence es ph :
  trace Opening es = Some ph →
  (∀ i e, es !! i = Some (EvHistory false) → es !! S i = Some e →
     e = EvFlush)
  ∧ (∀ i e, es !! i = Some (EvHistory false) → es !! S (S i) = Some e →
       ∃ n, e = EvLen n).
Proof.
  intros Htr.
  assert (Hflush : ∀ i e, es !! i = Some (EvHistory false) →
            es !! S i = Some e →
            e = EvFlush
            ∧ ∃ ch, trace Opening (take (S (S i)) es) = Some (Flushed ch)).
  { intros i e Hi Hi'.
    destruct (trace_at _ _ _ _ _ Htr Hi) as (p1 & p2 & _ & H1 & H3).
    destruct (trace_at _ _ _ _ _ Htr Hi') as (p2' & p3 & G1 & G2 & G3).
    simplify_eq. invert_next H1.
    destruct e; simpl in G2; simplify_eq. eauto. }
  split.
  - intros i e Hi Hi'. by destruct (Hflush i e Hi Hi').
  - intros i e Hi Hi''.
    destruct (lookup_lt_is_Some_2 es (S i)) as [e1 Hi'];
      [apply lookup_lt_Some in Hi''; lia|].
    destruct (Hflush i e1 Hi Hi') as (-> & ch & Hfl).
    destruct (trace_at _ _ _ _ _ Htr Hi'') as (p2 & p3 & G1 & G2 & _).
    simplify_eq. destruct e; simpl in G2; simplify_eq. eauto.
Qed.

(** C7, as the code has it.  A count update is exactly
    [<style>#nc::before{content:"N"}</style>], N in decimal.  N is the size
    of the registry at the instant [sendCount] reads it ([len(a.chans)],
    before the lock is taken); the payload made of it is what the goroutine
    offers to the registered channels at its next step, whatever the others
    did meanwhile; when they did nothing, the two steps are [sendCount] on
    the registry as it is.  In every run of the server, a goroutine reads
    the count only right after the flush that ends a replay that succeeded,
    or right after it removed its channel; the count update it sends next
    shows the number it read; after removing its channel its next step is to
    read the count; after registering its channel its next step is to write
    the page head, not to send a count; and a goroutine that made a channel
    and has returned ended with: channel removed, count read, count sent.

    The size of the registry is, in every run, the number of goroutines
    that have joined and not yet left, and every count read in a run is
    that number for the part of the run before the read: the connections
    that joined or left between a join and the read of its count are
    counted.  A replay written without error is followed by the flush and
    the read of the count, and a goroutine whose replay was written
    without error reads and sends the count in its next three steps,
    whatever the others do; one that removed its channel does so in its
    next two, and returns. *)
Theorem count_update_reports_size_read :
  (∀ n,
     countFragment n
     = "<style>#nc::before{content:" +:+ dquote +:+ decimal n +:+ dquote
       +:+ "}</style>")
  ∧ (∀ σ t th k,
       threads σ !! t = Some th →
       at_pc th = CountLen k →
       let σ1 := exec σ (Run t) in
       app σ1 = app σ ∧ heap σ1 = heap σ
       ∧ log σ1 = log σ ++ [(t, EvLen (size (chans (app σ))))]
       ∧ threads σ1 !! t
         = Some {| req := req th; rw := rw th;
                   at_pc :=
                     CountLoop (countFragment (size (chans (app σ)))) k |})
  ∧ (∀ σ t th data k,
       threads σ !! t = Some th →
       at_pc th = CountLoop data k →
       let σ1 := exec σ (Run t) in
       app σ1 = app σ
       ∧ heap σ1 = broadcast data (app σ) (heap σ)
       ∧ log σ1 = log σ ++ [(t, EvCount data)])
  ∧ (∀ σ t th k,
       threads σ !! t = Some th →
       at_pc th = CountLen k →
       let σ2 := run σ [Run t; Run t] in
       app σ2 = app σ
       ∧ heap σ2 = sendCount (app σ) (heap σ)
       ∧ log σ2
         = log σ ++ [(t, EvLen (size (chans (app σ))));
                     (t, EvCount (countFragment (size (chans (app σ)))))])
  ∧ (∀ now schedule t,
       let σ := run (start now) schedule in
       let es := events_of t (log σ) in
       (∀ i n, es !! i = Some (EvLen n) →
          ∃ j, i = S j
               ∧ (es !! j = Some EvFlush
                  ∧ (∃ j', j = S j' ∧ es !! j' = Some (EvHistory false))
                  ∨ ∃ ch, es !! j = Some (EvLeave ch)))
       ∧ (∀ i data, es !! i = Some (EvCount data) →
            ∃ j n, i = S j ∧ es !! j = Some (EvLen n)
                   ∧ data = countFragment n)
       ∧ (∀ i ch e, es !! i = Some (EvLeave ch) → es !! S i = Some e →
            ∃ n, e = EvLen n)
       ∧ (∀ i n e, es !! i = Some (EvLen n) → es !! S i = Some e →
            e = EvCount (countFragment n))
       ∧ (∀ i ch e, es !! i = Some (EvJoin ch) → es !! S i = Some e →
            ∃ err, e = EvHead err)
       ∧ (∀ th ch,
            threads σ !! t = Some th →
            at_pc th = Returned →
            es !! 0 = Some (EvMake ch) →
            ∃ es0 n,
              es = es0 ++ [EvLeave ch; EvLen n; EvCount (countFragment n)]))
  ∧ (∀ now schedule,
       let σ := run (start now) schedule in
       size (chans (app σ)) = size (connections (log σ))
       ∧ (∀ t, t ∈ connections (log σ)
               ↔ ∃ th ch, threads σ !! t = Some th
                          ∧ joined (at_pc th) = Some ch
                          ∧ ch ∈ chans (app σ))
       ∧ (∀ i t n, log σ !! i = Some (t, EvLen n) →
            n = size (connections (take i (log σ)))))
  ∧ (∀ now schedule t more,
       let σ := run (start now) schedule in
       let es := events_of t (log σ) in
       (∀ i e, es !! i = Some (EvHistory false) → es !! S i = Some e →
          e = EvFlush)
       ∧ (∀ i e, es !! i = Some (EvHistory false) →
            es !! S (S i) = Some e → ∃ n, e = EvLen n)
       ∧ (last es = Some (EvHistory false) → 3 ≤ turns t more →
            ∃ n rest,
              events_of t (log (run σ more))
              = es ++ EvFlush :: EvLen n :: EvCount (countFragment n)
                      :: rest)
       ∧ (∀ ch, last es = Some (EvLeave ch) → 2 ≤ turns t more →
            ∃ n,
              events_of t (log (run σ more))
              = es ++ [EvLen n; EvCount (countFragment n)])).
Proof.
  split_and!.
  - apply countFragment_exact.
  - intros σ t th k Ht Hpc σ1. subst σ1. rewrite (exec_Run _ _ _ Ht).
    unfold thread_step. rewrite Hpc. simpl. split_and!; try done.
    apply list_lookup_insert_eq. by eapply lookup_lt_Some.
  - intros σ t th data k Ht Hpc σ1. subst σ1. rewrite (exec_Run _ _ _ Ht).
    unfold thread_step. rewrite Hpc. done.
  - apply count_alone.
  - intros now schedule t σ es.
    destruct (reachable_trace now schedule t) as [ph Htr]. fold σ es in Htr.
    destruct (count_sequence es ph Htr) as (H1 & H2 & H3 & H4 & H5).
    split_and!; try done.
    intros th ch Ht Hpc H0.
    destruct (reachable_traced now schedule) as [_ Hth].
    destruct (Hth t th Ht) as (ph' & Htr' & Hag). rewrite Hpc in Hag.
    by eapply returned_closed.
  - intros now schedule σ. split_and!.
    + apply reachable_connections.
    + intros t.
      pose proof (reachable_traced now schedule) as Htraced.
      fold σ in Htraced.
      rewrite elem_of_connections, (online_member σ t Htraced).
      destruct (reachable_registered now schedule) as (Hreg & _).
      fold σ in Hreg. unfold member.
      destruct (threads σ !! t) as [th|] eqn:Ht; simpl.
      * split.
        -- intros [ch Hch]. exists th, ch. split_and!; [done|done|].
           apply Hreg. exists t. unfold member. by rewrite Ht.
        -- intros (th' & ch & ? & Hch & _). simplify_eq. by exists ch.
      * split; [by intros [? ?]|]. by intros (? & ? & ? & _).
    + apply reachable_count_read.
  - intros now schedule t more σ es.
    destruct (reachable_trace now schedule t) as [ph Htr]. fold σ es in Htr.
    destruct (replay_sequence es ph Htr) as [H1 H2].
    split_and!; try done.
    + intros Hlast Hturns.
      destruct (last_replayed σ t (reachable_traced now schedule) Hlast)
        as (th & ch & Ht & Hpc).
      by eapply flush_then_count.
    + intros ch Hlast Hturns.
      destruct (last_left σ t ch (reachable_traced now schedule) Hlast)
        as (th & Ht & Hpc).
      by eapply leave_then_count.
Qed.

(** The first of two connections, about to send its count: both are
    counted.  And a connection whose replay was written reads and sends the
    count in its next three steps. *)
Lemma count_update_reports_size_read_witness :
  let σ := run (start noon) (firstJoins ++ secondJoins) in
  let th := {| req := getRequest;
               rw := Flush (Write pageHead (HeaderSet "Content-Type"
                        "text/html; charset=utf-8" (newWriter true 9))).1;
               at_pc := CountLoop (countFragment 2) (ThenLoop 0) |} in
  let σ0 := run (start noon)
              ([Accept getRequest true 9] ++ replicate 6 (Run 0)) in
  threads σ !! 0 = Some th
  ∧ heap (exec σ (Run 0))
    = broadcast (countFragment 2) (app σ) (heap σ)
  ∧ log σ !! 7 = Some (0, EvLen 2)
  ∧ size (connections (take 7 (log σ))) = 2
  ∧ ∃ n rest,
      events_of 0 (log (run σ0 (replicate 3 (Run 0))))
      = [EvMake 0; EvJoin 0; EvHead false; EvHistory false]
        ++ EvFlush :: EvLen n :: EvCount (countFragment n) :: rest.
Proof.
  intros σ th σ0. split; [reflexivity|].
  destruct (proj1 (proj2 (proj2 count_update_reports_size_read))
              σ 0 th (countFragment 2) (ThenLoop 0) eq_refl eq_refl)
    as (_ & Hheap & _).
  split; [exact Hheap|]. split; [reflexivity|].
  destruct (proj1 (proj2 (proj2 (proj2 (proj2
              (proj2 count_update_reports_size_read)))))
              noon (firstJoins ++ secondJoins)) as (_ & _ & Hread).
  split; [symmetry; exact (Hread 7 0 2 eq_refl)|].
  destruct (proj2 (proj2 (proj2 (proj2 (proj2
              (proj2 count_update_reports_size_read)))))
              noon ([Accept getRequest true 9] ++ replicate 6 (Run 0)) 0
              (replicate 3 (Run 0))) as (_ & _ & Hnext & _).
  apply Hnext; [reflexivity|simpl; lia].
Defined.

(** C7, as it is stated, fails.  The first connection joins when the
    registry holds one channel; the second joins while the first writes its
    replay; the count update the first then sends for its join shows 2.
    And a connection whose peer goes away during the replay joins and leaves
    and sends one count update, the one after its leave. *)
Lemma count_not_size_at_join :
  size (chans (app (run (start noon) firstJoins))) = 1
  ∧ last (log (run (start noon) firstJoins)) = Some (0, EvJoin 0)
  ∧ (at_pc <$> threads (run (start noon) (firstJoins ++ secondJoins)) !! 0)
    = Some (CountLoop (countFragment 2) (ThenLoop 0))
  ∧ ¬ count_is_size_at_join
  ∧ events_of 1 (log (run (start noon) lostInReplay))
    = [EvMake 0; EvJoin 0; EvHead false; EvHistory true; EvLeave 0; EvLen 0;
       EvCount (countFragment 0)]
  ∧ ¬ count_follows_join (events_of 1 (log (run (start noon) lostInReplay))).
Proof.
  split_and!; try reflexivity.
  - intros H.
    specialize (H noon firstJoins secondJoins 0
                  {| req := getRequest;
                     rw := Flush (Write pageHead (HeaderSet "Content-Type"
                              "text/html; charset=utf-8" (newWriter true 9))).1;
                     at_pc := CountLoop (countFragment 2) (ThenLoop 0) |}
                  0 (countFragment 2) eq_refl).
    rewrite <- run_app in H. specialize (H eq_refl eq_refl).
    vm_compute in H. discriminate.
  - assert (Hes : events_of 1 (log (run (start noon) lostInReplay))
                  = [EvMake 0; EvJoin 0; EvHead false; EvHistory true;
                     EvLeave 0; EvLen 0; EvCount (countFragment 0)])
      by reflexivity.
    rewrite Hes. intros H.
    destruct (H 1 4 0 eq_refl eq_refl) as (k & data & [Hlo Hhi] & Hk).
    destruct k as [|[|[|[|k]]]]; try lia; discriminate.
Qed.

(** * More of the code *)

(** ** Lengths, blanks and plain text *)

Section Lengths.

Implicit Types (s : string) (c : ascii) (l : list ascii).

Lemma substring_len i n s :
  len (String.substring i n s) ≤ n ∧ len (String.substring i n s) ≤ len s - i.
Proof.
  revert i n. induction s as [|c s IH]; intros i n.
  - destruct i, n; simpl; lia.
  - destruct i as [|i]; simpl.
    + destruct n as [|n]; simpl; [lia|]. specialize (IH 0 n). simpl in IH.
      unfold len in *. lia.
    + specialize (IH i n). unfold len in *. simpl. lia.
Qed.

Lemma slice_len s i j : len (slice s i j) ≤ len s.
Proof. unfold slice. destruct (substring_len i (j - i) s). lia. Qed.

Lemma sliceFrom_len s i : len (sliceFrom s i) ≤ len s.
Proof. unfold sliceFrom. destruct (substring_len i (len s - i) s). lia. Qed.

Lemma trimLeftLoop_len f s fuel : len (trimLeftLoop f s fuel) ≤ len s.
Proof.
  revert s. induction fuel as [|fuel IH]; intros s; simpl; [lia|].
  destruct (len s =? 0); [simpl; lia|].
  destruct (Utf8.DecodeRuneInString s) as [r size].
  destruct (f r); [|done].
  etrans; [apply IH|apply sliceFrom_len].
Qed.

Lemma TrimRightFunc_len s f : len (TrimRightFunc s f) ≤ len s.
Proof.
  unfold TrimRightFunc. destruct (lastIndexLoop _ _ _ _) as [i|].
  - destruct (_ <=? _)%N; [|apply slice_len].
    destruct (Utf8.DecodeRuneInString _). apply slice_len.
  - apply slice_len.
Qed.

(** Trimming never makes a string longer. *)
Lemma TrimSpace_len s : len (TrimSpace s) ≤ len s.
Proof.
  unfold TrimSpace. destruct (scanStart s 0) as [start|start].
  - unfold TrimFunc, TrimLeftFunc.
    etrans; [apply TrimRightFunc_len|].
    etrans; [apply trimLeftLoop_len|apply sliceFrom_len].
  - destruct (scanStop _ _ _) as [stop|stop]; [|apply slice_len].
    etrans; [apply TrimRightFunc_len|apply slice_len].
Qed.

Lemma htmlReplacement_len c h :
  htmlReplacement c = Some h → 1 ≤ len h ≤ 5.
Proof.
  unfold htmlReplacement.
  destruct (N_of_ascii c) as [|p]; [intros [= <-]; vm_compute; lia|].
  do 6 (destruct p as [p|p|]; try done);
    intros [= <-]; vm_compute; lia.
Qed.

(** Escaping makes a string at most five times as long, and never shorter. *)
Lemma HTMLEscapeString_len s :
  len s ≤ len (HTMLEscapeString s) ≤ 5 * len s.
Proof.
  induction s as [|c s IH]; simpl; [lia|].
  destruct (htmlReplacement c) as [h|] eqn:Hc.
  - apply htmlReplacement_len in Hc. rewrite len_app. unfold len in *. lia.
  - unfold len in *. simpl. lia.
Qed.

End Lengths.

Section Strip.

Implicit Types (s : string) (c : ascii) (l : list ascii).

Lemma bytes_substring i n s :
  bytes (String.substring i n s) = take n (drop i (bytes s)).
Proof.
  revert i n. induction s as [|c s IH]; intros i n.
  - by destruct i, n.
  - destruct i as [|i]; simpl.
    + destruct n as [|n]; simpl; [done|]. f_equal. apply (IH 0 n).
    + apply IH.
Qed.

Lemma get_bytes i s : String.get i s = bytes s !! i.
Proof.
  revert i. induction s as [|c s IH]; intros i; [by destruct i|].
  destruct i as [|i]; simpl; [done|]. apply IH.
Qed.

Lemma byteAt_lookup s i c : bytes s !! i = Some c → byteAt s i = N_of_ascii c.
Proof. intros H. unfold byteAt. by rewrite get_bytes, H. Qed.

Lemma bytes_inj s1 s2 : bytes s1 = bytes s2 → s1 = s2.
Proof.
  intros H. rewrite <- (string_of_list_ascii_of_string s1).
  rewrite <- (string_of_list_ascii_of_string s2). unfold bytes in H.
  by rewrite H.
Qed.

Lemma lstrip_suffix l : ∃ k, l = k ++ lstrip l ∧ Forall (λ c, blank c = true) k.
Proof.
  induction l as [|c l (k & Hk & Hb)]; simpl.
  - by exists [].
  - destruct (blank c) eqn:Hc.
    + exists (c :: k). split; [simpl; congruence|by constructor].
    + by exists [].
Qed.

Lemma lstrip_drop l : drop (length l - length (lstrip l)) l = lstrip l.
Proof.
  destruct (lstrip_suffix l) as (k & Hk & _).
  rewrite Hk at 1 3. rewrite length_app.
  replace (length k + length (lstrip l) - length (lstrip l)) with (length k)
    by lia.
  by rewrite drop_app_length.
Qed.

Lemma lstrip_length l : length (lstrip l) ≤ length l.
Proof.
  destruct (lstrip_suffix l) as (k & Hk & _). rewrite Hk at 2.
  rewrite length_app. lia.
Qed.

Lemma rstrip_snoc l c :
  rstrip (l ++ [c]) = if blank c then rstrip l else l ++ [c].
Proof.
  unfold rstrip. rewrite rev_unit. simpl. destruct (blank c); [done|].
  simpl. by rewrite rev_involutive.
Qed.

Lemma rstrip_take l : take (length (rstrip l)) l = rstrip l.
Proof.
  unfold rstrip. destruct (lstrip_suffix (rev l)) as (k & Hk & _).
  assert (Hl : l = rev (lstrip (rev l)) ++ rev k).
  { rewrite <- rev_app_distr, <- Hk. by rewrite rev_involutive. }
  rewrite Hl at 2. by rewrite take_app_length.
Qed.

Lemma blank_ascii c : blank c = true → isASCII c = true.
Proof.
  unfold blank, isASCII, asciiSpace, Utf8.RuneSelf.
  intros H. apply N.ltb_lt.
  apply orb_true_iff in H as [[_ H]%andb_true_iff|H].
  - apply N.leb_le in H. lia.
  - apply N.eqb_eq in H. lia.
Qed.

Lemma RuneSelf_ascii c :
  isASCII c = true → (Utf8.RuneSelf <=? N_of_ascii c)%N = false.
Proof.
  unfold isASCII. intros H%N.ltb_lt. apply N.leb_gt. done.
Qed.

(** The first loop of [TrimSpace] on ASCII bytes stops after the blanks. *)
Lemma scanStart_ascii rest k :
  Forall (λ c, isASCII c = true) (bytes rest) →
  scanStart rest k
  = Stop (k + (length (bytes rest) - length (lstrip (bytes rest)))).
Proof.
  revert k. induction rest as [|c rest IH]; intros k Hall; simpl.
  - f_equal. lia.
  - apply Forall_cons in Hall as [Hc Hall].
    rewrite (RuneSelf_ascii c Hc). fold (blank c).
    destruct (blank c) eqn:Hb.
    + rewrite IH by done. f_equal.
      pose proof (lstrip_length (bytes rest)). simpl. lia.
    + f_equal. simpl. lia.
Qed.

(** The second loop stops before the blanks at the end. *)
Lemma scanStop_ascii s start n :
  Forall (λ c, isASCII c = true) (bytes s) →
  start + n ≤ length (bytes s) →
  scanStop s start n
  = Stop (start + length (rstrip (take n (drop start (bytes s))))).
Proof.
  intros Hall. induction n as [|n IH]; intros Hn; simpl.
  - f_equal. unfold rstrip. simpl. lia.
  - destruct (lookup_lt_is_Some_2 (bytes s) (start + n)) as [c Hc]; [lia|].
    rewrite (byteAt_lookup _ _ _ Hc).
    assert (Hd : drop start (bytes s) !! n = Some c) by by rewrite lookup_drop.
    rewrite (take_S_r _ _ _ Hd), rstrip_snoc.
    assert (Ha : isASCII c = true).
    { eapply Forall_forall in Hall; [done|]. by eapply list_elem_of_lookup_2. }
    rewrite (RuneSelf_ascii c Ha). fold (blank c).
    destruct (blank c); [apply IH; lia|].
    f_equal. rewrite length_app, length_take, length_drop. simpl. lia.
Qed.

(** On ASCII, [TrimSpace] takes the blank bytes off both ends and nothing
    else. *)
Lemma TrimSpace_ascii s :
  Forall (λ c, isASCII c = true) (bytes s) →
  bytes (TrimSpace s) = rstrip (lstrip (bytes s)).
Proof.
  intros Hall. unfold TrimSpace. rewrite (scanStart_ascii s 0 Hall).
  simpl "+". pose proof (lstrip_length (bytes s)) as Hle.
  pose proof (lstrip_drop (bytes s)) as Hdrop.
  remember (length (bytes s) - length (lstrip (bytes s))) as k eqn:Hk.
  rewrite scanStop_ascii; [|done|rewrite len_bytes; lia].
  rewrite len_bytes.
  rewrite (take_ge (drop k (bytes s))) by (rewrite length_drop; lia).
  rewrite Hdrop. unfold slice. rewrite bytes_substring, Hdrop.
  replace (k + length (rstrip (lstrip (bytes s))) - k)
    with (length (rstrip (lstrip (bytes s)))) by lia.
  apply rstrip_take.
Qed.

End Strip.

Section Fields.

Implicit Types (s raw : string) (c : ascii) (l : list ascii).

Lemma escape_plain s :
  Forall (λ c, htmlReplacement c = None) (bytes s) → HTMLEscapeString s = s.
Proof.
  induction s as [|c s IH]; simpl; [done|].
  intros [Hc Hs]%Forall_cons. rewrite Hc. by rewrite IH.
Qed.

Lemma blank_plain c : blank c = true → htmlReplacement c = None.
Proof.
  unfold blank, asciiSpace, htmlReplacement.
  intros H. apply orb_true_iff in H as [[H1 H2]%andb_true_iff|H].
  - apply N.leb_le in H1, H2.
    destruct (N_of_ascii c) as [|p]; [lia|].
    do 6 (destruct p as [p|p|]; try done); lia.
  - apply N.eqb_eq in H. by rewrite H.
Qed.

Lemma lstrip_blank l : Forall (λ c, blank c = true) l → lstrip l = [].
Proof.
  induction l as [|c l IH]; [done|]. intros [Hc Hl]%Forall_cons. simpl.
  rewrite Hc. by apply IH.
Qed.

(** A string of ASCII blanks trims to the empty string. *)
Lemma TrimSpace_blank s :
  Forall (λ c, blank c = true) (bytes s) → TrimSpace s = "".
Proof.
  intros Hall. apply bytes_inj. rewrite TrimSpace_ascii.
  - by rewrite lstrip_blank.
  - eapply Forall_impl; [done|]. apply blank_ascii.
Qed.

Lemma htmlReplacement_ascii c h :
  htmlReplacement c = Some h → N_of_ascii c ≠ 0%N →
  Forall (λ x, isASCII x = true) (bytes h).
Proof.
  unfold htmlReplacement.
  destruct (N_of_ascii c) as [|p]; [done|]. intros H _. revert H.
  do 6 (destruct p as [p|p|]; try done);
    intros [= <-]; vm_compute; repeat constructor.
Qed.

Lemma HTMLEscapeString_ascii s :
  Forall (λ c, isASCII c = true ∧ N_of_ascii c ≠ 0%N) (bytes s) →
  Forall (λ c, isASCII c = true) (bytes (HTMLEscapeString s)).
Proof.
  induction s as [|c s IH]; simpl; [constructor|].
  intros [[Hc Hn] Hs]%Forall_cons.
  destruct (htmlReplacement c) as [h|] eqn:Hr.
  - rewrite bytes_app. apply Forall_app. split; [|by apply IH].
    by eapply htmlReplacement_ascii.
  - constructor; [done|by apply IH].
Qed.

Lemma substring_all s : String.substring 0 (String.length s) s = s.
Proof. induction s as [|c s IH]; simpl; [done|]. by rewrite IH. Qed.

(** A string that begins and ends with an ASCII byte that is not a blank
    is left as it is, whatever is in between. *)
Lemma TrimSpace_solid s :
  0 < len s →
  solid (byteAt s 0) = true →
  solid (byteAt s (len s - 1)) = true →
  TrimSpace s = s.
Proof.
  unfold solid. intros Hlen [H0 B0]%andb_true_iff [H1 B1]%andb_true_iff.
  apply N.ltb_lt in H0, H1. apply negb_true_iff in B0, B1.
  unfold TrimSpace.
  assert (Hstart : scanStart s 0 = Stop 0).
  { destruct s as [|c s]; [simpl in Hlen; lia|]. simpl.
    unfold byteAt in H0, B0. simpl in H0, B0.
    apply N.leb_gt in H0. unfold Utf8.RuneSelf. by rewrite H0, B0. }
  rewrite Hstart, Nat.sub_0_r.
  destruct (len s) as [|n] eqn:Hn; [lia|]. simpl scanStop.
  replace (S n - 1) with n in H1, B1 by lia.
  apply N.leb_gt in H1. unfold Utf8.RuneSelf. rewrite H1, B1.
  unfold slice. simpl "+". rewrite Nat.sub_0_r, <- Hn. apply substring_all.
Qed.

End Fields.

(** ** Queues and the chat log in a run *)

Section Queues.

Lemma offer_roomy data c :
  length (buf c) ≤ cap c → length (buf (offer data c)) ≤ cap (offer data c).
Proof.
  intros H. unfold offer. destruct (_ <? _) eqn:E; [|done].
  apply Nat.ltb_lt in E. simpl. rewrite length_app. simpl. lia.
Qed.

Lemma broadcast_roomy data a h : roomy h → roomy (broadcast data a h).
Proof.
  intros Hh ch c. rewrite broadcast_lookup. case_decide; [|by apply Hh].
  destruct (h !! ch) as [c0|] eqn:Hc; [|done]. intros [= <-].
  apply offer_roomy. by eapply Hh.
Qed.

Lemma thread_step_roomy now th a h th1 a1 h1 evs :
  thread_step now th a h = (th1, a1, h1, evs) → roomy h → roomy h1.
Proof.
  intros Hstep Hh. unfold thread_step in Hstep.
  destruct (at_pc th) eqn:Hat.
  all: step_cases Hstep; simplify_eq; try done.
  all: try by apply broadcast_roomy.
  all: intros ch' c'; rewrite lookup_insert_Some;
    intros [[<- <-]|[_ Hc]]; [|by eapply Hh]; simpl; try lia.
  all: match goal with
       | H : _ !! _ = Some _ |- _ => apply Hh in H; simpl in H; lia
       end.
Qed.

Lemma reachable_roomy now schedule : roomy (heap (run (start now) schedule)).
Proof.
  apply (run_invariant (λ σ, roomy (heap σ)) (λ _, True)).
  - by intros ch c.
  - by apply Forall_true.
  - intros σ [r w n|t|now'] Hσ _; try done.
    destruct (threads σ !! t) as [th|] eqn:Hth.
    2: { unfold exec. by rewrite Hth. }
    destruct (thread_step (clock σ) th (app σ) (heap σ))
      as [[[th1 a1] h1] evs] eqn:Hstep.
    rewrite (exec_Run _ _ _ Hth), Hstep. cbn [heap].
    by eapply thread_step_roomy.
Qed.

End Queues.

Section ChatLog.

Lemma appended_app l1 l2 : appended (l1 ++ l2) = appended l1 ++ appended l2.
Proof. apply omap_app. Qed.

Lemma append_lastn update a :
  history (append update a) = lastn historyLimit (history a ++ [update]).
Proof. apply append_history. Qed.

(** A step appends to the chat log exactly when it logs an [EvAppend]. *)
Lemma thread_step_appended now th a h th1 a1 h1 evs t :
  thread_step now th a h = (th1, a1, h1, evs) →
  (history a1 = history a ∧ appended (tag t evs) = [])
  ∨ (∃ update, history a1 = history (append update a)
               ∧ appended (tag t evs) = [update]).
Proof.
  intros Hstep. unfold thread_step in Hstep.
  destruct (at_pc th) eqn:Hat.
  all: step_cases Hstep; simplify_eq; try (by left).
  right. by eexists.
Qed.

End ChatLog.

(** ** The steps of the connection handler *)

Section Connection.

Lemma steps_S n now th a h :
  steps (S n) now th a h
  = let '(th1, a1, h1, evs1) := thread_step now th a h in
    let '(th2, a2, h2, evs2) := steps n now th1 a1 h1 in
    (th2, a2, h2, evs1 ++ evs2).
Proof. done. Qed.

Lemma steps_add n m now th a h :
  steps (n + m) now th a h
  = let '(th1, a1, h1, evs1) := steps n now th a h in
    let '(th2, a2, h2, evs2) := steps m now th1 a1 h1 in
    (th2, a2, h2, evs1 ++ evs2).
Proof.
  revert th a h. induction n as [|n IH]; intros th a h.
  - simpl. by destruct (steps m now th a h) as [[[th2 a2] h2] evs2].
  - simpl. destruct (thread_step now th a h) as [[[th1 a1] h1] evs1].
    rewrite IH. destruct (steps n now th1 a1 h1) as [[[th2 a2] h2] evs2].
    destruct (steps m now th2 a2 h2) as [[[th3 a3] h3] evs3].
    by rewrite app_assoc.
Qed.

(** [sendHistory] writes the updates the transport accepts, oldest first,
    and stops at the first that it refuses. *)
Lemma sendHistoryLoop_partial updates w :
  body (sendHistoryLoop updates w).1
  = body w ++ take (credit w) (historyData <$> updates)
  ∧ (sendHistoryLoop updates w).2 = (credit w <? length updates)
  ∧ credit (sendHistoryLoop updates w).1 = credit w - length updates
  ∧ flushes (sendHistoryLoop updates w).1 = flushes w
  ∧ flusher (sendHistoryLoop updates w).1 = flusher w
  ∧ header (sendHistoryLoop updates w).1 = header w.
Proof.
  revert w. induction updates as [|update rest IH]; intros w.
  - simpl. rewrite take_nil, app_nil_r. split_and!; try done; lia.
  - simpl. unfold Write. destruct (credit w) as [|k] eqn:Hk.
    + simpl. rewrite app_nil_r, Hk. split_and!; done.
    + cbn [fst snd].
      match goal with
      | |- context [sendHistoryLoop rest ?w1] =>
          destruct (IH w1) as (Hb & He & Hc & Hf & Hfl & Hh)
      end.
      rewrite Hb, He, Hc, Hf, Hfl, Hh. simpl.
      rewrite <- app_assoc. split_and!; done.
Qed.

Lemma thread_step_deaf w0 now th a h th1 a1 h1 evs :
  thread_step now th a h = (th1, a1, h1, evs) →
  deaf w0 th →
  (deaf w0 th1 ∧ toreturn (at_pc th1) ≤ toreturn (at_pc th) - 1)
  ∧ a1 = a ∧ h1 = h ∧ evs = [].
Proof.
  intros Hstep (Hm & Hfl & Hw). unfold thread_step in Hstep. unfold deaf.
  destruct (at_pc th) eqn:Hat; try done.
  - rewrite Hm in Hstep. simpl in Hstep. simplify_eq. simpl.
    split_and!; try done; lia.
  - rewrite Hw in Hstep. simpl in Hstep. rewrite Hfl in Hstep.
    simplify_eq. simpl. split_and!; try done; lia.
  - simplify_eq. rewrite Hat. simpl. split_and!; try done.
Qed.

Lemma run_deaf w0 schedule σ t th :
  threads σ !! t = Some th →
  deaf w0 th →
  ∃ th1, threads (run σ schedule) !! t = Some th1
         ∧ deaf w0 th1
         ∧ toreturn (at_pc th1) ≤ toreturn (at_pc th) - turns t schedule
         ∧ events_of t (log (run σ schedule)) = events_of t (log σ).
Proof.
  revert σ th. induction schedule as [|x s IH]; intros σ th Ht Hp.
  - exists th. simpl. split_and!; [done|done|lia|done].
  - rewrite run_cons. destruct x as [r canFlush writes|t'|now]; simpl turns.
    + destruct (IH (exec σ (Accept r canFlush writes)) th)
        as (th2 & Ht2 & Hp2 & Htodo2 & Hev); [|done|].
      { simpl. by apply lookup_app_l_Some. }
      by exists th2.
    + destruct (decide (t' = t)) as [->|Hne].
      * rewrite (exec_Run _ _ _ Ht).
        destruct (thread_step _ _ _ _) as [[[th1 a1] h1] evs] eqn:Hstep.
        destruct (thread_step_deaf _ _ _ _ _ _ _ _ _ Hstep Hp)
          as ([Hp1 Htodo] & _ & _ & ->).
        destruct (IH {| app := a1; heap := h1; clock := clock σ;
                        threads := <[t := th1]> (threads σ);
                        log := log σ ++ tag t [] |} th1)
          as (th2 & Ht2 & Hp2 & Htodo2 & Hev); [|done|].
        { simpl. apply list_lookup_insert_eq. by eapply lookup_lt_Some. }
        exists th2. split_and!; [done|done|lia|].
        rewrite Hev. simpl. by rewrite app_nil_r.
      * destruct (IH (exec σ (Run t')) th) as (th2 & Ht2 & Hp2 & Htodo2 & Hev);
          [|done|].
        { simpl. destruct (threads σ !! t') as [th'|]; [|done].
          destruct (thread_step _ _ _ _) as [[[th1 a1] h1] evs]. simpl.
          by rewrite list_lookup_insert_ne. }
        exists th2. split_and!; [done|done|lia|].
        rewrite Hev. simpl. destruct (threads σ !! t') as [th'|]; [|done].
        destruct (thread_step _ _ _ _) as [[[th1 a1] h1] evs]. simpl.
        rewrite events_of_app, events_of_tag_ne by done. by rewrite app_nil_r.
    + destruct (IH (exec σ (Tick now)) th)
        as (th2 & Ht2 & Hp2 & Htodo2 & Hev); [done|done|].
      by exists th2.
Qed.

(** The nine steps that open a connection, when the transport takes the
    page head and the chat log. *)
Lemma open_steps now th a h :
  at_pc th = Handler → Method (req th) = "GET" → flusher (rw th) = true →
  length (history a) < credit (rw th) →
  let ch := fresh (dom h) in
  let a1 := addChan ch a in
  ∃ w1, steps 9 now th a h
        = (goto th w1 (GetSelect ch), a1,
           sendCount a1 (<[ch := {| cap := bufferSize; buf := [] |}]> h),
           [EvMake ch; EvJoin ch; EvHead false; EvHistory false; EvFlush;
            EvLen (size (chans a1)); EvCount (countData a1)])
        ∧ body w1 = body (rw th) ++ pageHead :: (historyData <$> history a)
        ∧ flushes w1 = S (flushes (rw th))
        ∧ credit w1 = credit (rw th) - S (length (history a))
        ∧ header w1 = <["Content-Type" := htmlType]> (header (rw th)).
Proof.
  intros Hpc Hm Hfl Hcr ch a1.
  destruct (credit (rw th)) as [|k] eqn:Hk; [lia|].
  set (w0 := HeaderSet "Content-Type" htmlType (rw th)).
  set (wh := (Write pageHead w0).1).
  assert (Hwh : Write pageHead w0 = (wh, false)).
  { unfold wh, Write, w0. simpl. by rewrite Hk. }
  destruct (sendHistoryLoop_partial (history a) wh)
    as (Hb & He & Hc & Hf & Hfr & Hh).
  assert (Hcwh : credit wh = k).
  { unfold wh, Write, w0. simpl. by rewrite Hk. }
  assert (Hbwh : body wh = body (rw th) ++ [pageHead]).
  { unfold wh, Write, w0. simpl. by rewrite Hk. }
  rewrite Hcwh in Hb, He, Hc.
  destruct (sendHistoryLoop (history a) wh) as [w2 err] eqn:Hsh.
  simpl in Hb, He, Hc, Hf, Hfr, Hh.
  assert (err = false) as ->.
  { rewrite He. apply Nat.ltb_ge. lia. }
  exists (Flush w2). split_and!.
  - change 9 with (7 + 2). rewrite steps_add.
    assert (H7 : steps 7 now th a h
                 = (goto th (Flush w2) (CountLen (ThenLoop ch)), a1,
                    <[ch := {| cap := bufferSize; buf := [] |}]> h,
                    [EvMake ch; EvJoin ch; EvHead false; EvHistory false;
                     EvFlush])).
    { cbn [steps]. unfold thread_step at 1. rewrite Hpc, Hm.
      cbn [String.eqb Ascii.eqb Bool.eqb]. cbv iota.
      unfold thread_step at 1. cbn [at_pc goto req rw].
      fold htmlType. fold w0.
      replace (flusher w0) with true by done.
      unfold thread_step at 1. cbn [at_pc goto req rw].
      unfold thread_step at 1. cbn [at_pc goto req rw].
      unfold thread_step at 1. cbn [at_pc goto req rw].
      rewrite Hwh.
      unfold thread_step at 1. cbn [at_pc goto req rw].
      change (sendHistory wh (addChan (fresh (dom h)) a))
        with (sendHistoryLoop (history a) wh).
      rewrite Hsh.
      unfold thread_step at 1. cbn [at_pc goto req rw].
      done. }
    rewrite H7. rewrite (count_steps now _ _ _ (ThenLoop ch)) by done.
    done.
  - simpl. rewrite Hb, Hbwh, <- app_assoc. simpl.
    do 2 f_equal. apply take_ge. rewrite length_fmap. lia.
  - simpl. rewrite Hf. unfold wh, Write, w0. simpl. by rewrite Hk.
  - simpl. rewrite Hc. lia.
  - simpl. rewrite Hh. unfold wh, Write, w0. simpl. by rewrite Hk.
Qed.

(** The live loop drains the queue first in, first out: a write and a
    flush for every payload. *)
Lemma drain_steps msgs now th a h ch n :
  at_pc th = GetSelect ch →
  h !! ch = Some {| cap := n; buf := msgs |} →
  length msgs ≤ credit (rw th) →
  ∃ w1 evs, steps (2 * length msgs) now th a h
        = (goto th w1 (GetSelect ch), a,
           <[ch := {| cap := n; buf := [] |}]> h, evs)
        ∧ body w1 = body (rw th) ++ msgs
        ∧ flushes w1 = flushes (rw th) + length msgs
        ∧ credit w1 = credit (rw th) - length msgs
        ∧ evs = msgs ≫= λ msg, [EvPayload msg false; EvFlush].
Proof.
  revert th h. induction msgs as [|msg rest IH]; intros th h Hpc Hch Hcr.
  - exists (rw th), []. simpl. rewrite app_nil_r, insert_id by done.
    split_and!; try done; try lia. by destruct th; simpl in *; subst.
  - simpl in Hcr. destruct (credit (rw th)) as [|k] eqn:Hk; [lia|].
    replace (2 * length (msg :: rest)) with (2 + 2 * length rest)
      by (simpl; lia).
    rewrite steps_add.
    set (w1 := (Write msg (rw th)).1).
    assert (Hw : Write msg (rw th) = (w1, false)).
    { unfold w1, Write. by rewrite Hk. }
    assert (H2 : steps 2 now th a h
                 = (goto th (Flush w1) (GetSelect ch), a,
                    <[ch := {| cap := n; buf := rest |}]> h,
                    [EvPayload msg false; EvFlush])).
    { cbn [steps]. unfold thread_step at 1. rewrite Hpc, Hch, Hw.
      unfold thread_step. by cbn [at_pc goto rw]. }
    rewrite H2.
    destruct (IH (goto th (Flush w1) (GetSelect ch))
                 (<[ch := {| cap := n; buf := rest |}]> h))
      as (w2 & evs & Hst & Hb & Hf & Hc & Hev).
    { done. }
    { by rewrite lookup_insert_eq. }
    { unfold w1, Write. rewrite Hk. simpl. lia. }
    rewrite Hst. exists w2, ([EvPayload msg false; EvFlush] ++ evs).
    rewrite insert_insert_eq. split_and!.
    + done.
    + rewrite Hb. unfold w1, Write. rewrite Hk. simpl.
      by rewrite <- app_assoc.
    + rewrite Hf. unfold w1, Write. rewrite Hk. simpl. lia.
    + rewrite Hc. unfold w1, Write. rewrite Hk. simpl. lia.
    + by rewrite Hev.
Qed.

(** With nothing queued, every round of the loop writes one space and
    flushes. *)
Lemma ping_steps k now th a h ch c :
  at_pc th = GetSelect ch →
  h !! ch = Some c → buf c = [] →
  k ≤ credit (rw th) →
  ∃ w1, steps (2 * k) now th a h
        = (goto th w1 (GetSelect ch), a, h,
           mjoin (replicate k [EvPing false; EvFlush]))
        ∧ body w1 = body (rw th) ++ replicate k " "
        ∧ flushes w1 = flushes (rw th) + k
        ∧ credit w1 = credit (rw th) - k.
Proof.
  revert th. induction k as [|k IH]; intros th Hpc Hch Hbuf Hcr.
  - exists (rw th). simpl. rewrite app_nil_r.
    split_and!; try done; try lia. by destruct th; simpl in *; subst.
  - destruct (credit (rw th)) as [|m] eqn:Hm; [lia|].
    replace (2 * S k) with (2 + 2 * k) by lia.
    rewrite steps_add.
    set (w1 := (Write " " (rw th)).1).
    assert (Hw : Write " " (rw th) = (w1, false)).
    { unfold w1, Write. by rewrite Hm. }
    assert (H2 : steps 2 now th a h
                 = (goto th (Flush w1) (GetSelect ch), a, h,
                    [EvPing false; EvFlush])).
    { cbn [steps]. unfold thread_step at 1. rewrite Hpc, Hch.
      destruct c as [n b]. simpl in Hbuf. subst b. rewrite Hw.
      unfold thread_step. by cbn [at_pc goto rw]. }
    rewrite H2.
    destruct (IH (goto th (Flush w1) (GetSelect ch)))
      as (w2 & Hst & Hb & Hf & Hc); [done|done|done|..].
    { unfold w1, Write. rewrite Hm. simpl. lia. }
    rewrite Hst. exists w2. split_and!.
    + done.
    + rewrite Hb. unfold w1, Write. rewrite Hm. simpl.
      by rewrite <- app_assoc.
    + rewrite Hf. unfold w1, Write. rewrite Hm. simpl. lia.
    + rewrite Hc. unfold w1, Write. rewrite Hm. simpl. lia.
Qed.

(** When the transport refuses a write, the connection leaves the registry
    and the others are told the new count. *)
Lemma close_steps now th a h ch :
  at_pc th = GetSelect ch →
  credit (rw th) = 0 →
  let h1 := match h !! ch with
            | Some {| cap := n; buf := _ :: rest |} =>
                <[ch := {| cap := n; buf := rest |}]> h
            | _ => h
            end in
  ∃ e, steps 4 now th a h
       = (goto th (rw th) Returned, removeChan ch a,
          sendCount (removeChan ch a) h1,
          [e; EvLeave ch; EvLen (size (chans (removeChan ch a)));
           EvCount (countData (removeChan ch a))])
       ∧ (e = EvPing true ∨ ∃ msg, e = EvPayload msg true).
Proof.
  intros Hpc Hcr h1.
  assert (Hw : ∀ data, Write data (rw th) = (rw th, true)).
  { intros data. unfold Write. by rewrite Hcr. }
  change 4 with (2 + 2). rewrite steps_add.
  assert (H2 : ∃ e, steps 2 now th a h
               = (goto th (rw th) (CountLen ThenReturn), removeChan ch a, h1,
                  [e; EvLeave ch])
               ∧ (e = EvPing true ∨ ∃ msg, e = EvPayload msg true)).
  { cbn [steps]. unfold thread_step at 1. rewrite Hpc. subst h1.
    destruct (h !! ch) as [[n [|msg rest]]|].
    - rewrite Hw. unfold thread_step. cbn [at_pc goto rw]. eauto.
    - rewrite Hw. unfold thread_step. cbn [at_pc goto rw]. eauto.
    - rewrite Hw. unfold thread_step. cbn [at_pc goto rw]. eauto. }
  destruct H2 as (e & -> & He).
  rewrite (count_steps now _ _ _ ThenReturn) by done.
  exists e. split; [done|done].
Qed.

End Connection.

(** ** The registry is the set of open connections *)

Section Census.

(** X1: in every run the registry is exactly the set of the channels of the
    goroutines between their [addChan] and their [removeChan], its size is
    their number, no channel is held by two goroutines, and every channel
    held is allocated. *)
Theorem registry_is_open_connections now schedule :
  let σ := run (start now) schedule in
  chans (app σ) = list_to_set (omap (λ th, joined (at_pc th)) (threads σ))
  ∧ size (chans (app σ))
    = length (omap (λ th, joined (at_pc th)) (threads σ))
  ∧ NoDup (omap (λ th, holds (at_pc th)) (threads σ))
  ∧ list_to_set (omap (λ th, holds (at_pc th)) (threads σ)) ⊆ dom (heap σ).
Proof.
  intros σ.
  pose proof (reachable_registered now schedule) as Hσ. fold σ in Hσ.
  destruct (registered_list σ Hσ) as [Heq Hnd].
  destruct Hσ as (Hreg & Hdom & Hinj).
  split_and!.
  - done.
  - rewrite Heq. by apply size_list_to_set.
  - apply NoDup_omap_lookup. intros i j x y b Hi Hj Hx Hy.
    apply (Hinj i j b); unfold holder; [by rewrite Hi|by rewrite Hj].
  - intros ch. rewrite elem_of_list_to_set, elem_of_omap_lookup.
    intros [t Ht]. by apply (Hdom t).
Qed.

(** X2: in every run every channel has the capacity [bufferSize] and holds
    at most that many payloads. *)
Theorem queues_bounded now schedule :
  map_Forall (λ _ c, cap c = bufferSize ∧ length (buf c) ≤ bufferSize)
    (heap (run (start now) schedule)).
Proof.
  intros ch c Hc.
  destruct (reachable_sound_any now schedule) as (_ & _ & Hheap & _).
  destruct (Hheap ch c Hc) as [Hcap _]. split; [done|].
  rewrite <- Hcap. by eapply reachable_roomy.
Qed.

(** X3: in every run the chat log is the last [historyLimit] of the updates
    appended so far, in the order in which [append] took them. *)
Theorem history_is_last_appended now schedule :
  let σ := run (start now) schedule in
  history (app σ) = lastn historyLimit (appended (log σ)).
Proof.
  apply (run_invariant
           (λ σ, history (app σ) = lastn historyLimit (appended (log σ)))
           (λ _, True)).
  - done.
  - by apply Forall_true.
  - intros σ [r w n|t|now'] Hσ _; try done.
    destruct (threads σ !! t) as [th|] eqn:Hth.
    2: { unfold exec. by rewrite Hth. }
    destruct (thread_step (clock σ) th (app σ) (heap σ))
      as [[[th1 a1] h1] evs] eqn:Hstep.
    rewrite (exec_Run _ _ _ Hth), Hstep. cbn [app log].
    rewrite appended_app.
    apply (thread_step_appended _ _ _ _ _ _ _ _ t) in Hstep
      as [[-> ->]|(update & -> & ->)].
    + by rewrite app_nil_r.
    + by rewrite append_lastn, Hσ, lastn_app_lastn.
Qed.

(** X4: [sendHistory] writes the updates of the chat log oldest first for
    as long as the transport accepts them, returns an error exactly when it
    refuses one, and never flushes. *)
Theorem sendHistory_stops_at_first_error w a :
  body (sendHistory w a).1
  = body w ++ take (credit w) (historyData <$> history a)
  ∧ (sendHistory w a).2 = (credit w <? length (history a))
  ∧ flushes (sendHistory w a).1 = flushes w.
Proof.
  unfold sendHistory.
  destruct (sendHistoryLoop_partial (history a) w) as (Hb & He & _ & Hf & _).
  done.
Qed.

End Census.

(** ** The connection handler, step by step *)

Section Life.

(** X5: a GET whose writer is no [http.Flusher] is answered by the media
    type alone.  Under any interleaving its goroutine makes no channel,
    writes and flushes nothing, sends no status and logs no event; after
    two steps of its own it has returned. *)
Theorem get_without_flusher σ t th schedule :
  threads σ !! t = Some th →
  at_pc th = Handler →
  Method (req th) = "GET" →
  flusher (rw th) = false →
  ∃ th1, threads (run σ schedule) !! t = Some th1
         ∧ holds (at_pc th1) = None
         ∧ body (rw th1) = body (rw th)
         ∧ flushes (rw th1) = flushes (rw th)
         ∧ status (rw th1) = status (rw th)
         ∧ events_of t (log (run σ schedule)) = events_of t (log σ)
         ∧ (2 ≤ turns t schedule →
            at_pc th1 = Returned
            ∧ rw th1 = HeaderSet "Content-Type" htmlType (rw th)).
Proof.
  intros Ht Hpc Hm Hfl.
  destruct (run_deaf (rw th) schedule σ t th Ht)
    as (th1 & Ht1 & (_ & _ & Hp) & Htodo & Hev).
  { split_and!; [done|done|]. by rewrite Hpc. }
  exists th1. rewrite Hpc in Htodo. simpl in Htodo.
  destruct (at_pc th1) eqn:Hat; try done.
  all: rewrite Hp; split_and!; try done.
  all: intros Hturns; simpl in Htodo; lia.
Qed.

Lemma get_without_flusher_witness :
  let σ := run (start noon) [Accept getRequest false 3] in
  ∃ th1, threads (run σ [Run 0; Run 0]) !! 0 = Some th1
         ∧ at_pc th1 = Returned
         ∧ body (rw th1) = []
         ∧ header (rw th1) !! "Content-Type" = Some htmlType.
Proof.
  intros σ.
  destruct (get_without_flusher σ 0
              {| req := getRequest; rw := newWriter false 3;
                 at_pc := Handler |} [Run 0; Run 0]
              eq_refl eq_refl eq_refl eq_refl)
    as (th1 & Ht & _ & Hb & _ & _ & _ & Hret).
  exists th1. destruct Hret as [Hat Hrw]; [simpl; lia|].
  split_and!; [exact Ht|exact Hat|exact Hb|].
  rewrite Hrw. reflexivity.
Defined.



(** X7: while its channel is empty, a live connection writes a single
    space and flushes on every round of its loop; nothing shared
    changes. *)
Theorem idle_connection_pings σ t th ch c k :
  threads σ !! t = Some th →
  at_pc th = GetSelect ch →
  heap σ !! ch = Some c →
  buf c = [] →
  k ≤ credit (rw th) →
  let σ1 := run σ (replicate (2 * k) (Run t)) in
  ∃ th1, threads σ1 !! t = Some th1
         ∧ at_pc th1 = GetSelect ch
         ∧ body (rw th1) = body (rw th) ++ replicate k " "
         ∧ flushes (rw th1) = flushes (rw th) + k
         ∧ app σ1 = app σ
         ∧ heap σ1 = heap σ.
Proof.
  intros Ht Hpc Hch Hbuf Hcr σ1.
  destruct (ping_steps k (clock σ) th (app σ) (heap σ) ch c Hpc Hch Hbuf Hcr)
    as (w1 & Hst & Hb & Hf & _).
  exists (goto th w1 (GetSelect ch)). subst σ1.
  rewrite (run_alone _ _ _ _ Ht), Hst. cbn [threads app heap].
  split_and!; try done.
  apply list_lookup_insert_eq. by eapply lookup_lt_Some.
Qed.

Lemma idle_connection_pings_witness :
  let σ := run (start noon)
             (Accept getRequest true 9 :: replicate 11 (Run 0)) in
  ∃ th1, threads (run σ (replicate 6 (Run 0))) !! 0 = Some th1
         ∧ body (rw th1)
           = [pageHead; countFragment 1; " "; " "; " "].
Proof.
  intros σ.
  destruct (idle_connection_pings σ 0
              {| req := getRequest;
                 rw := Flush (Write (countFragment 1)
                                (Flush (Write pageHead
                                   (HeaderSet "Content-Type" htmlType
                                      (newWriter true 9))).1)).1;
                 at_pc := GetSelect 0 |} 0
              {| cap := bufferSize; buf := [] |} 3
              eq_refl eq_refl eq_refl eq_refl)
    as (th1 & Ht & _ & Hb & _).
  { vm_compute. lia. }
  exists th1. split; [exact Ht|exact Hb].
Defined.

(** X8: a live connection writes the payloads queued in its channel first
    in, first out, with a flush after each, as long as the transport takes
    them; the channel is then empty and the registry and the chat log are
    as they were. *)
Theorem live_loop_drains_in_order σ t th ch c :
  threads σ !! t = Some th →
  at_pc th = GetSelect ch →
  heap σ !! ch = Some c →
  length (buf c) ≤ credit (rw th) →
  let σ1 := run σ (replicate (2 * length (buf c)) (Run t)) in
  ∃ th1, threads σ1 !! t = Some th1
         ∧ at_pc th1 = GetSelect ch
         ∧ body (rw th1) = body (rw th) ++ buf c
         ∧ flushes (rw th1) = flushes (rw th) + length (buf c)
         ∧ app σ1 = app σ
         ∧ heap σ1 = <[ch := {| cap := cap c; buf := [] |}]> (heap σ).
Proof.
  intros Ht Hpc Hch Hcr σ1. destruct c as [n msgs]. cbn [buf cap] in *.
  destruct (drain_steps msgs (clock σ) th (app σ) (heap σ) ch n Hpc Hch Hcr)
    as (w1 & evs & Hst & Hb & Hf & _).
  exists (goto th w1 (GetSelect ch)). subst σ1.
  rewrite (run_alone _ _ _ _ Ht), Hst. cbn [threads app heap].
  split_and!; try done.
  apply list_lookup_insert_eq. by eapply lookup_lt_Some.
Qed.

Lemma live_loop_drains_in_order_witness :
  let σ := run (start noon)
             ([Accept getRequest true 9] ++ replicate 9 (Run 0)
              ++ Accept (postRequest "hi") true 0 :: replicate 5 (Run 1)) in
  ∃ th1, threads (run σ (replicate 4 (Run 0))) !! 0 = Some th1
         ∧ body (rw th1)
           = [pageHead; countFragment 1;
              newData {| timestamp := "2026-10-30 12:00:00";
                         message := "hi" |}].
Proof.
  intros σ.
  destruct (live_loop_drains_in_order σ 0
              {| req := getRequest;
                 rw := Flush (Write pageHead
                                (HeaderSet "Content-Type" htmlType
                                   (newWriter true 9))).1;
                 at_pc := GetSelect 0 |} 0
              {| cap := bufferSize;
                 buf := [countFragment 1;
                         newData {| timestamp := "2026-10-30 12:00:00";
                                    message := "hi" |}] |}
              eq_refl eq_refl eq_refl)
    as (th1 & Ht & _ & Hb & _).
  { vm_compute. lia. }
  exists th1. split; [exact Ht|exact Hb].
Defined.

(** X9: when the transport refuses a write of a live connection, the
    payload in hand is lost and the connection closes in four steps: its
    channel leaves the registry, whose size drops by one, the new count is
    offered to every channel that remains, and the handler returns; the
    chat log is as it was. *)
Theorem failed_write_closes now schedule t th ch :
  let σ := run (start now) schedule in
  threads σ !! t = Some th →
  at_pc th = GetSelect ch →
  credit (rw th) = 0 →
  let σ1 := run σ (replicate 4 (Run t)) in
  let n := size (chans (app σ)) in
  threads σ1 !! t = Some (goto th (rw th) Returned)
  ∧ ch ∈ chans (app σ)
  ∧ chans (app σ1) = chans (app σ) ∖ {[ch]}
  ∧ size (chans (app σ1)) = n - 1
  ∧ history (app σ1) = history (app σ)
  ∧ (∀ ch', ch' ∈ chans (app σ) → ch' ≠ ch →
       heap σ1 !! ch' = offer (countFragment (n - 1)) <$> heap σ !! ch').
Proof.
  intros σ Ht Hpc Hcr σ1 n.
  destruct (close_steps (clock σ) th (app σ) (heap σ) ch Hpc Hcr)
    as (e & Hst & _).
  assert (Hin : ch ∈ chans (app σ)).
  { destruct (reachable_registered now schedule) as (Hreg & _).
    apply Hreg. exists t. unfold member. fold σ. rewrite Ht. simpl.
    by rewrite Hpc. }
  assert (Hsize : size (chans (removeChan ch (app σ))) = n - 1).
  { unfold removeChan; cbn [chans].
    rewrite size_difference by (by apply singleton_subseteq_l).
    by rewrite size_singleton. }
  subst σ1. rewrite (run_alone 4 _ _ _ Ht), Hst. cbn [threads app heap].
  split_and!; try done.
  - apply list_lookup_insert_eq. by eapply lookup_lt_Some.
  - intros ch' Hin' Hne. unfold sendCount, countData.
    rewrite Hsize, broadcast_lookup.
    rewrite decide_True.
    2: { unfold removeChan; cbn [chans]. apply elem_of_difference.
         split; [done|]. by apply not_elem_of_singleton. }
    destruct (heap σ !! ch) as [[m [|msg rest]]|]; try done.
    by rewrite lookup_insert_ne.
Qed.

Lemma failed_write_closes_witness :
  let σ := run (start noon)
             ([Accept getRequest true 9] ++ replicate 9 (Run 0)
              ++ [Accept getRequest true 1] ++ replicate 9 (Run 1)) in
  let σ1 := run σ (replicate 4 (Run 1)) in
  chans (app σ) = {[0; 1]}
  ∧ at_pc <$> threads σ1 !! 1 = Some Returned
  ∧ size (chans (app σ1)) = 1
  ∧ buf <$> heap σ1 !! 0
    = Some [countFragment 1; countFragment 2; countFragment 1].
Proof.
  intros σ σ1.
  assert (Hσ : chans (app σ) = {[0; 1]}) by (vm_compute; reflexivity).
  destruct (failed_write_closes noon
              ([Accept getRequest true 9] ++ replicate 9 (Run 0)
               ++ [Accept getRequest true 1] ++ replicate 9 (Run 1)) 1
              {| req := getRequest;
                 rw := Flush (Write pageHead
                                (HeaderSet "Content-Type" htmlType
                                   (newWriter true 1))).1;
                 at_pc := GetSelect 1 |} 1 eq_refl eq_refl eq_refl)
    as (Ht & _ & _ & Hsize & _ & Hoffer).
  subst σ1 σ. rewrite Hσ in Hsize.
  split_and!.
  - exact Hσ.
  - rewrite Ht. reflexivity.
  - rewrite Hsize. reflexivity.
  - refine (eq_trans (f_equal (fmap buf) (Hoffer 0 _ _)) _).
    + rewrite Hσ. apply elem_of_union_l. by apply elem_of_singleton.
    + discriminate.
    + vm_compute. reflexivity.
Defined.

End Life.

(** ** What a post stores, byte by byte *)

Section Stored.

(** X10: in every run a stored message has at least one byte and at most
    five times [maxMsgLen]: the length is checked before escaping, and no
    byte is replaced by more than five.  The bound is reached by a field of
    [maxMsgLen] double quotes. *)
Theorem stored_message_bounded :
  (∀ now schedule update,
     update ∈ history (app (run (start now) schedule)) →
     1 ≤ len (message update) ≤ 5 * maxMsgLen)
  ∧ (let raw := repeat (ascii_of_N 34) maxMsgLen in
     len raw = maxMsgLen
     ∧ len (TrimSpace (HTMLEscapeString raw)) = 5 * maxMsgLen).
Proof.
  split.
  - intros now schedule update Hin.
    destruct (reachable_sound_any now schedule) as (_ & Hhist & _).
    rewrite Forall_forall in Hhist.
    destruct (Hhist update Hin) as (raw & now' & _ & Hlen & -> & Hpos & _).
    split; [lia|].
    pose proof (TrimSpace_len (HTMLEscapeString raw)).
    pose proof (HTMLEscapeString_len raw). lia.
  - split; vm_compute; reflexivity.
Qed.

Lemma stored_message_bounded_witness :
  let update := {| timestamp := "2026-10-30 12:00:00"; message := "hi" |} in
  1 ≤ len (message update) ≤ 5 * maxMsgLen.
Proof.
  intros update.
  apply (proj1 stored_message_bounded noon
           (Accept (postRequest "hi") true 0 :: replicate 5 (Run 0))).
  vm_compute. apply list_elem_of_here.
Defined.

(** X11: for a field of at most [maxMsgLen] bytes of ASCII other than NUL,
    [postHandler] stores the escaped text without the blanks (space, tab,
    line feed, vertical tab, form feed, carriage return) at its two ends,
    and stores nothing when nothing is left. *)
Theorem ascii_field_stored_stripped now r w a h :
  let raw := Get (PostForm r) "msg" in
  let stripped := rstrip (lstrip (bytes (HTMLEscapeString raw))) in
  Forall (λ c, isASCII c = true ∧ N_of_ascii c ≠ 0%N) (bytes raw) →
  len raw ≤ maxMsgLen →
  (postHandler now r w a h).1.2
  = if decide (stripped = []) then a
    else append {| timestamp := Time.Format now stampLayout;
                   message := string_of_list_ascii stripped |} a.
Proof.
  intros raw stripped Hascii Hlen.
  assert (Hb : bytes (TrimSpace (HTMLEscapeString raw)) = stripped).
  { apply TrimSpace_ascii. by apply HTMLEscapeString_ascii. }
  case_decide as Hnil.
  - destruct (postHandler_empty now r w a h) as [-> _]; [|done].
    fold raw. by rewrite len_bytes, Hb, Hnil.
  - destruct (postHandler_accepted now r w a h) as [-> _]; [done| |].
    + fold raw. rewrite len_bytes, Hb. destruct stripped; [done|simpl; lia].
    + fold raw. cbn [fst snd]. rewrite <- Hb. unfold bytes.
      by rewrite string_of_list_ascii_of_string.
Qed.

Lemma ascii_field_stored_stripped_witness :
  let raw := String (ascii_of_N 9) " a < b  " +:+ String (ascii_of_N 10) "" in
  (postHandler noon (postRequest raw) (newWriter true 0) NewApp ∅).1.2
  = append {| timestamp := "2026-10-30 12:00:00"; message := "a &lt; b" |}
      NewApp.
Proof.
  intros raw.
  rewrite (ascii_field_stored_stripped noon (postRequest raw)
             (newWriter true 0) NewApp ∅).
  - reflexivity.
  - vm_compute. repeat (constructor; [split; [reflexivity|discriminate]|]).
    constructor.
  - vm_compute. lia.
Defined.

(** X12: a field of at most [maxMsgLen] bytes that holds none of the bytes
    [HTMLEscapeString] replaces, and starts and ends with an ASCII byte that
    is no blank, is stored and sent as it is. *)
Theorem plain_field_stored_verbatim now r w a h :
  let raw := Get (PostForm r) "msg" in
  let update :=
    {| timestamp := Time.Format now stampLayout; message := raw |} in
  0 < len raw →
  len raw ≤ maxMsgLen →
  Forall (λ c, htmlReplacement c = None) (bytes raw) →
  solid (byteAt raw 0) = true →
  solid (byteAt raw (len raw - 1)) = true →
  postHandler now r w a h
  = (Redirect w "/" 302, append update a,
     broadcast (newData update) (append update a) h).
Proof.
  intros raw update Hpos Hlen Hplain Hfirst Hlast.
  assert (Hst : TrimSpace (HTMLEscapeString raw) = raw).
  { rewrite (escape_plain raw Hplain). by apply TrimSpace_solid. }
  destruct (postHandler_accepted now r w a h) as [-> _]; [done| |].
  - fold raw. by rewrite Hst.
  - fold raw. by rewrite Hst.
Qed.

Lemma plain_field_stored_verbatim_witness :
  let update :=
    {| timestamp := "2026-10-30 12:00:00"; message := "hello, world" |} in
  postHandler noon (postRequest "hello, world") (newWriter true 0) NewApp ∅
  = (Redirect (newWriter true 0) "/" 302, append update NewApp,
     broadcast (newData update) (append update NewApp) ∅).
Proof.
  intros update.
  apply (plain_field_stored_verbatim noon (postRequest "hello, world")
           (newWriter true 0) NewApp ∅).
  - vm_compute. lia.
  - vm_compute. lia.
  - vm_compute. repeat (constructor; [reflexivity|]). constructor.
  - reflexivity.
  - reflexivity.
Defined.

End Stored.

(** ** A post reaches the connections *)

Section Delivery.



(** X14: a connection opened after a post is accepted replays it: the page
    head and the chat log, which ends with the post, are what it has
    written when it enters its loop. *)
Theorem late_joiner_replays_post σ p g thp thg :
  let raw := Get (PostForm (req thp)) "msg" in
  let update :=
    {| timestamp := Time.Format (clock σ) stampLayout;
       message := TrimSpace (HTMLEscapeString raw) |} in
  threads σ !! p = Some thp →
  at_pc thp = Handler →
  Method (req thp) = "POST" →
  len raw ≤ maxMsgLen →
  0 < len (TrimSpace (HTMLEscapeString raw)) →
  threads σ !! g = Some thg →
  at_pc thg = Handler →
  Method (req thg) = "GET" →
  flusher (rw thg) = true →
  historyLimit < credit (rw thg) →
  let σ1 := run σ (replicate 5 (Run p) ++ replicate 9 (Run g)) in
  ∃ thg1 ch, threads σ1 !! g = Some thg1
             ∧ at_pc thg1 = GetSelect ch
             ∧ body (rw thg1)
               = body (rw thg) ++ pageHead
                   :: (historyData <$> history (append update (app σ)))
             ∧ last (body (rw thg1)) = Some (historyData update).
Proof.
  intros raw update Hp Hpcp Hmp Hlen Hpos Hg Hpcg Hmg Hfl Hcr σ1.
  assert (Hne : g ≠ p).
  { intros ->. rewrite Hp in Hg. simplify_eq. rewrite Hmp in Hmg. done. }
  subst σ1. rewrite run_app, (post_alone _ _ _ Hp Hpcp Hmp).
  destruct (postHandler_accepted (clock σ) (req thp) (rw thp) (app σ)
              (heap σ) Hlen Hpos) as [-> _].
  fold raw update.
  set (σ2 := {| app := append update (app σ);
                heap := broadcast (newData update) (append update (app σ))
                          (heap σ);
                clock := clock σ;
                threads := <[p:=goto thp (Redirect (rw thp) "/" 302)
                                   Returned]> (threads σ);
                log := log σ ++ tag p (postEvents (clock σ) (req thp)) |}).
  assert (Hg2 : threads σ2 !! g = Some thg).
  { simpl. by rewrite list_lookup_insert_ne. }
  destruct (open_steps (clock σ2) thg (app σ2) (heap σ2) Hpcg Hmg Hfl)
    as (w1 & Hst & Hb & _).
  { change (app σ2) with (append update (app σ)).
    pose proof (append_bounded update (app σ)). lia. }
  rewrite (run_alone 9 _ _ _ Hg2), Hst. cbn [threads].
  exists (goto thg w1 (GetSelect (fresh (dom (heap σ2))))), (fresh (dom (heap σ2))).
  split_and!.
  - apply list_lookup_insert_eq. by eapply lookup_lt_Some.
  - done.
  - done.
  - cbn [goto rw]. rewrite Hb.
    change (app σ2) with (append update (app σ)).
    pose proof (append_last update (app σ)) as Hlast.
    apply last_Some in Hlast as [l ->].
    rewrite fmap_app. simpl.
    change (pageHead :: (historyData <$> l) ++ [historyData update])
      with ((pageHead :: (historyData <$> l)) ++ [historyData update]).
    rewrite app_assoc. apply last_snoc.
Qed.

Lemma late_joiner_replays_post_witness :
  let σ := run (start noon)
             [Accept (postRequest "hi") true 0; Accept getRequest true 30] in
  let σ1 := run σ (replicate 5 (Run 0) ++ replicate 9 (Run 1)) in
  ∃ thg1, threads σ1 !! 1 = Some thg1
          ∧ last (body (rw thg1))
            = Some (historyData {| timestamp := "2026-10-30 12:00:00";
                                   message := "hi" |}).
Proof.
  intros σ σ1.
  destruct (late_joiner_replays_post σ 0 1
              {| req := postRequest "hi"; rw := newWriter true 0;
                 at_pc := Handler |}
              {| req := getRequest; rw := newWriter true 30;
                 at_pc := Handler |}
              eq_refl eq_refl eq_refl)
    as (thg1 & ch & Ht & _ & _ & Hlast).
  - vm_compute. lia.
  - vm_compute. lia.
  - reflexivity.
  - reflexivity.
  - reflexivity.
  - reflexivity.
  - vm_compute. lia.
  - exists thg1. split; [exact Ht|exact Hlast].
Defined.

End Delivery.
